(** * The follow-graph pipeline of nostr-social-graph

    A shallow embedding of the two traversal hooks ([useWebOfTrust] with its
    analytics helpers [assignClusters] and [calculateDegreesOfSeparation],
    and [useSocialGraph] with [parseContactList] and the profile map it
    builds) and of the relay panel and the colour choice of the visualizer
    that calls [useWebOfTrust], together with the properties of the
    collected graph.

    Conventions of the embedding:
    - a JavaScript [Map] or [Set] is a list in insertion order (the order
      [Array.from] and [forEach] observe);
    - a value of static type [string] that can be [undefined] at run time
      (the second field of a tag) is an [option string];
    - [number]s that only count are [nat]; the importance [val], which the
      analytics divide, is a rational ([Q]): the arithmetic of the model is
      exact, where JavaScript rounds [totalDegree / 5] to a double.  Halves
      are exact in both, and so is the importance of a node that is not a
      hub; of the importance of a hub only bounds by integers are stated,
      which survive the rounding; the values of the examples are exact in
      both;
    - a property read from [JSON.parse(event.content)] is a [JsValue]:
      [undefined], a string, or a value of another kind, of which the code
      only tests the truthiness;
    - [s.slice(0, 8)] is a parameter of the label, so that nothing depends
      on how the UTF-16 code units of a string are laid out in a [string];
    - the relay client is a function [query] from the number of earlier
      calls and the filter to the list of events received; a run in which a
      fetch throws produces no snapshot and is not modelled;
    - the [while] loop of the collector, whose length depends on what the
      relays answer, takes fuel and returns [None] when the fuel runs out. *)

From Stdlib Require Import List Arith Bool String Ascii Lia PeanoNat.
From Stdlib Require Import QArith Qminmax Lqa Permutation.
Import ListNotations.

Local Open Scope nat_scope.
Local Open Scope list_scope.

(** ** Keys, insertion-ordered maps and sets *)

(** Keys of a [Map] and elements of a [Set]: values compared by [===]. *)
Class EqKey (K : Type) := {
  keqb : K -> K -> bool;
  keqb_eq : forall a b, keqb a b = true <-> a = b
}.

#[export] Instance EqKey_string : EqKey string :=
  {| keqb := String.eqb; keqb_eq := String.eqb_eq |}.

(** An identity as the code handles it: a string, or [undefined]. *)
Definition Ident := option string.

(** [a === b] on identities. *)
Definition ident_eqb (a b : Ident) : bool :=
  match a, b with
  | Some x, Some y => String.eqb x y
  | None, None => true
  | _, _ => false
  end.

#[export, refine] Instance EqKey_Ident : EqKey Ident :=
  {| keqb := ident_eqb |}.
Proof.
  intros [x|] [y|]; simpl; split; intro H; try discriminate; try reflexivity.
  - apply String.eqb_eq in H. now subst.
  - inversion H. apply String.eqb_refl.
Defined.

Section OrderedMap.
Context {K V : Type} `{EqKey K}.

(** [Map.prototype.get] *)
Fixpoint mget (k : K) (m : list (K * V)) : option V :=
  match m with
  | [] => None
  | (k', v) :: m' => if keqb k k' then Some v else mget k m'
  end.

(** [Map.prototype.has] *)
Definition mhas (k : K) (m : list (K * V)) : bool :=
  match mget k m with Some _ => true | None => false end.

(** [Map.prototype.set]: an existing key keeps its position. *)
Fixpoint mset (k : K) (v : V) (m : list (K * V)) : list (K * V) :=
  match m with
  | [] => [(k, v)]
  | (k', v') :: m' =>
      if keqb k k' then (k, v) :: m' else (k', v') :: mset k v m'
  end.

(** [Array.from(m.keys())] and [Array.from(m.values())] *)
Definition mkeys (m : list (K * V)) : list K := map fst m.
Definition mvalues (m : list (K * V)) : list V := map snd m.
End OrderedMap.

Section OrderedSet.
Context {K : Type} `{EqKey K}.

(** [Set.prototype.has] *)
Definition shas (k : K) (s : list K) : bool := existsb (keqb k) s.

(** [Set.prototype.add] *)
Definition sadd (k : K) (s : list K) : list K :=
  if shas k s then s else s ++ [k].
End OrderedSet.

(** ** Data model *)

(** [GraphNode]; the optional [name] is never written by the hook and is
    left out. *)
Record GraphNode := mkNode {
  id : Ident;
  val : Q;
  inDegree : nat;
  outDegree : nat;
  isHub : bool;
  cluster : option nat;
  degreesFromRoot : option nat
}.

Record GraphLink := mkLink {
  source : Ident;
  target : Ident;
  isBidirectional : bool
}.

Record Stats := mkStats {
  totalNodes : nat;
  totalLinks : nat;
  hubs : nat;
  bidirectionalLinks : nat;
  clusters : nat
}.

Record GraphData := mkGraph {
  nodes : list GraphNode;
  links : list GraphLink;
  stats : Stats
}.

(** [NostrEvent]; the event id and the signature play no part. *)
Record NostrEvent := mkEvent {
  pubkey : string;
  kind : nat;
  created_at : nat;
  tags : list (list string);
  content : string
}.

(** A relay filter: [{ kinds, authors?, limit? }]. *)
Record Filter := mkFilter {
  kinds : list nat;
  authors : option (list Ident);
  limit : option nat
}.

(** [WebOfTrustOptions]: [opt_limit] is the option [limit] (the name
    [limit] is the field of [Filter]); [relayUrls] only selects the client
    queried. *)
Record WebOfTrustOptions := mkOptions {
  startPubkey : option string;
  depth : option nat;
  opt_limit : option nat;
  referenceUser : option string
}.

(** JavaScript truthiness of an optional string. *)
Definition truthy (s : option string) : bool :=
  match s with
  | Some x => negb (String.eqb x EmptyString)
  | None => false
  end.

(** A default value, as in [const { depth = 2, limit = 100 } = options] and
    in [x || d]. *)
Definition default {A : Type} (d : A) (o : option A) : A :=
  match o with Some x => x | None => d end.

(** Template-literal conversion [`${x}`]. *)
Definition toStr (i : Ident) : string :=
  match i with Some s => s | None => "undefined"%string end.

(** [`${a}->${b}`] *)
Definition linkId (a b : Ident) : string :=
  (toStr a ++ "->" ++ toStr b)%string.

(** ** Contact-list parsing *)

(** [tag[0] === 'p'] *)
Definition isPTag (tag : list string) : bool :=
  match nth_error tag 0 with
  | Some m => String.eqb m "p"
  | None => false
  end.

(** [Boolean(x)] for [x : string | undefined]. *)
Definition jsBoolean (x : Ident) : bool := truthy x.

(** [parseContactList] of useSocialGraph.ts:
    [tags.filter(tag => tag[0] === 'p').map(tag => tag[1]).filter(Boolean)]. *)
Definition parseContactList (event : NostrEvent) : list Ident :=
  filter jsBoolean (map (fun tag => nth_error tag 1) (filter isPTag (tags event))).

(** The extraction written inline in useWebOfTrust:
    [tags.filter(([tag]) => tag === 'p').map(([_, pubkey]) => pubkey)]. *)
Definition followedPubkeys (event : NostrEvent) : list Ident :=
  map (fun tag => nth_error tag 1) (filter isPTag (tags event)).

(** ** The collector of useWebOfTrust *)

(** An entry [{ pubkey, level }] of [toProcess]. *)
Record Pending := mkPending {
  pending_pubkey : Ident;
  level : nat
}.

(** The mutable locals of [queryFn].  [queries] counts the calls made to the
    relay client; [dequeued] logs, oldest first, every batch spliced off
    [toProcess] (a record of the run, not read by the code). *)
Record Collector := mkCollector {
  nodesMap : list (Ident * GraphNode);
  linksMap : list (string * GraphLink);
  processed : list Ident;
  toProcess : list Pending;
  queries : nat;
  dequeued : list (list Pending)
}.

(** [{ id, val, inDegree: 0, outDegree: 0, isHub: false }] *)
Definition freshNode (i : Ident) (v : Q) : GraphNode :=
  mkNode i v 0 0 false None None.

(** [node.val = Math.min(node.val + 1, 20)] *)
Definition bump (n : GraphNode) : GraphNode :=
  mkNode (id n) (Qmin (val n + 1) 20)%Q (inDegree n) (outDegree n)
         (isHub n) (cluster n) (degreesFromRoot n).

(** Body of [for (const followedPubkey of followedPubkeys)]. *)
Definition addFollowed (author : string) (currentLevel dep : nat)
    (st : Collector) (followedPubkey : Ident) : Collector :=
  let lid := linkId (Some author) followedPubkey in
  let links' :=
    if mhas lid (linksMap st) then linksMap st
    else mset lid (mkLink (Some author) followedPubkey false) (linksMap st) in
  match mget followedPubkey (nodesMap st) with
  | None =>
      let nodes' := mset followedPubkey (freshNode followedPubkey 3) (nodesMap st) in
      let queue' :=
        if (currentLevel + 1 <? dep) && negb (shas followedPubkey (processed st))
        then toProcess st ++ [mkPending followedPubkey (currentLevel + 1)]
        else toProcess st in
      mkCollector nodes' links' (processed st) queue' (queries st) (dequeued st)
  | Some node =>
      mkCollector (mset followedPubkey (bump node) (nodesMap st)) links'
                  (processed st) (toProcess st) (queries st) (dequeued st)
  end.

(** Body of [for (const event of events)]. *)
Definition processEvent (currentLevel dep : nat) (st : Collector)
    (event : NostrEvent) : Collector :=
  let st1 := mkCollector (nodesMap st) (linksMap st)
               (sadd (Some (pubkey event)) (processed st))
               (toProcess st) (queries st) (dequeued st) in
  fold_left (addFollowed (pubkey event) currentLevel dep) (followedPubkeys event) st1.

Section Collect.
(** The relay client: [query n f] is what the [n]-th call returns when it
    is made with filter [f]. *)
Variable query : nat -> Filter -> list NostrEvent.

(** One iteration of [while (toProcess.length > 0)]. *)
Definition processBatch (dep : nat) (st : Collector) : Collector :=
  let batch := firstn 50 (toProcess st) in
  let rest := skipn 50 (toProcess st) in
  let pubkeys := map pending_pubkey batch in
  let currentLevel := match batch with b :: _ => level b | [] => 0 end in
  if dep <=? currentLevel then
    mkCollector (nodesMap st) (linksMap st)
      (fold_left (fun s b => sadd (pending_pubkey b) s) batch (processed st))
      rest (queries st) (dequeued st ++ [batch])
  else
    let events := query (queries st) (mkFilter [3] (Some pubkeys) (Some 1)) in
    let st1 := mkCollector (nodesMap st) (linksMap st) (processed st)
                 rest (S (queries st)) (dequeued st ++ [batch]) in
    fold_left (processEvent currentLevel dep) events st1.

(** [while (toProcess.length > 0)], at most [fuel] iterations. *)
Fixpoint drain (fuel : nat) (dep : nat) (st : Collector) : option Collector :=
  match toProcess st with
  | [] => Some st
  | _ :: _ =>
      match fuel with
      | O => None
      | S fuel' => drain fuel' dep (processBatch dep st)
      end
  end.

(** Body of [recentEvents.forEach]. *)
Definition addSeed (st : Collector) (event : NostrEvent) : Collector :=
  if negb (shas (Some (pubkey event)) (processed st)) then
    mkCollector
      (mset (Some (pubkey event)) (freshNode (Some (pubkey event)) 5) (nodesMap st))
      (linksMap st) (processed st)
      (toProcess st ++ [mkPending (Some (pubkey event)) 0])
      (queries st) (dequeued st)
  else st.

(** The state when the [while] loop is entered. *)
Definition seed (opts : WebOfTrustOptions) : Collector :=
  if truthy (startPubkey opts) then
    mkCollector [(startPubkey opts, freshNode (startPubkey opts) 10)] [] []
                [mkPending (startPubkey opts) 0] 0 []
  else
    let limit := default 100 (opt_limit opts) in
    let recentEvents := query 0 (mkFilter [3] None (Some limit)) in
    fold_left addSeed recentEvents
      (mkCollector [] [] [] [] 1 []).

(** The collection: the maps when the loop is left. *)
Definition collect (opts : WebOfTrustOptions) (fuel : nat) : option Collector :=
  drain fuel (default 2 (depth opts)) (seed opts).
End Collect.

(** ** Analytics of useWebOfTrust *)

(** Cluster labels are the elements of the set counted in [stats.clusters]. *)
#[export] Instance EqKey_nat : EqKey nat :=
  {| keqb := Nat.eqb; keqb_eq := Nat.eqb_eq |}.

(** Mutation of the object stored under [k], if any. *)
Definition mupdate {K V : Type} `{EqKey K} (k : K) (f : V -> V)
    (m : list (K * V)) : list (K * V) :=
  match mget k m with
  | Some v => mset k (f v) m
  | None => m
  end.

(** Mutation of the [i]-th element of an array of objects. *)
Fixpoint updateAt {A : Type} (i : nat) (f : A -> A) (l : list A) : list A :=
  match l, i with
  | [], _ => []
  | x :: l', O => f x :: l'
  | x :: l', S i' => x :: updateAt i' f l'
  end.

(** [node.outDegree++] *)
Definition incOut (n : GraphNode) : GraphNode :=
  mkNode (id n) (val n) (inDegree n) (S (outDegree n)) (isHub n)
         (cluster n) (degreesFromRoot n).

(** [targetNode.inDegree++] *)
Definition incIn (n : GraphNode) : GraphNode :=
  mkNode (id n) (val n) (S (inDegree n)) (outDegree n) (isHub n)
         (cluster n) (degreesFromRoot n).

(** [link.isBidirectional = true] *)
Definition markLink (l : GraphLink) : GraphLink :=
  mkLink (source l) (target l) true.

(** The same, on an entry of [linksMap]. *)
Definition markEntry (e : string * GraphLink) : string * GraphLink :=
  (fst e, markLink (snd e)).

(** Body of the second [links.forEach], for the link at position [i] of
    [Array.from(linksMap.values())].  The array holds the very objects of
    the map, so the pass is a pass over the entries of [linksMap].  (The
    first [links.forEach] fills [reverseLinks], which is never read.) *)
Definition degreeStep (st : list (Ident * GraphNode) * list (string * GraphLink))
    (i : nat) : list (Ident * GraphNode) * list (string * GraphLink) :=
  match nth_error (snd st) i with
  | None => st
  | Some (_, link) =>
      let nm1 := mupdate (source link) incOut (fst st) in
      let nm2 := mupdate (target link) incIn nm1 in
      let reverseLinkId := linkId (target link) (source link) in
      let lm :=
        if mhas reverseLinkId (snd st)
        then mupdate reverseLinkId markLink (updateAt i markEntry (snd st))
        else snd st in
      (nm2, lm)
  end.

(** The second [links.forEach]. *)
Definition degreePass (nm : list (Ident * GraphNode))
    (lm : list (string * GraphLink))
    : list (Ident * GraphNode) * list (string * GraphLink) :=
  fold_left degreeStep (seq 0 (List.length lm)) (nm, lm).

(** [node.inDegree + node.outDegree] *)
Definition totalDegree (n : GraphNode) : nat := inDegree n + outDegree n.

(** A count read as a [number] that is divided or compared with one. *)
Definition ofNat (n : nat) : Q := inject_Z (Z.of_nat n).

(** [nodes.reduce((sum, n) => sum + n.inDegree + n.outDegree, 0) / nodes.length];
    on the empty array JavaScript yields NaN, which is never read because
    the following [forEach] has no element to visit. *)
Definition avgDegree (ns : list GraphNode) : Q :=
  (ofNat (fold_left (fun sum n => (sum + inDegree n + outDegree n)%nat) ns 0%nat)
   / ofNat (List.length ns))%Q.

(** Body of [nodes.forEach] in the hub detection. *)
Definition classify (hubThreshold : Q) (n : GraphNode) : GraphNode :=
  let td := totalDegree n in
  let hub := Qle_bool hubThreshold (ofNat td) && (10 <=? td) in
  let v :=
    if hub then Qmax (val n) (15 + Qmin (ofNat td / 5) 15)%Q
    else Qmax (val n) (3 + Qmin (ofNat td / 2) 7)%Q in
  mkNode (id n) v (inDegree n) (outDegree n) hub (cluster n) (degreesFromRoot n).

(** The hub detection: [hubThreshold = avgDegree * 2], then the [forEach]. *)
Definition hubPass (ns : list GraphNode) : list GraphNode :=
  let hubThreshold := (avgDegree ns * 2)%Q in
  map (classify hubThreshold) ns.

(** [adjacency.get(a)?.add(b)] *)
Definition addNeighbor (a b : Ident) (adj : list (Ident * list Ident))
    : list (Ident * list Ident) :=
  mupdate a (sadd b) adj.

(** The adjacency map built, by the same statements, in [assignClusters]
    and in [calculateDegreesOfSeparation]. *)
Definition buildAdjacency (ns : list GraphNode) (ls : list GraphLink)
    : list (Ident * list Ident) :=
  let adj0 := fold_left (fun m n => mset (id n) [] m) ns [] in
  fold_left (fun m link =>
               addNeighbor (target link) (source link)
                 (addNeighbor (source link) (target link) m)) ls adj0.

(** *** assignClusters *)

(** One execution of [x.cluster = clusterId]: whether [x] is the seed of the
    region, the position of [x] in [nodes], and the label written. *)
Record Labelling := mkLabelling {
  isSeed : bool;
  position : nat;
  label : nat
}.

(** The array [nodes], whose objects the pass mutates, the set [visited],
    the [queue] of the region being explored, and the labellings made so
    far (a record of the run, not read by the code). *)
Record ClusterState := mkClusterState {
  c_nodes : list GraphNode;
  visited : list Ident;
  queue : list Ident;
  labellings : list Labelling
}.

(** [node.cluster = c] *)
Definition setCluster (c : nat) (n : GraphNode) : GraphNode :=
  mkNode (id n) (val n) (inDegree n) (outDegree n) (isHub n) (Some c)
         (degreesFromRoot n).

(** Position of [nodes.find(n => n.id === i)]. *)
Fixpoint findIndex (i : Ident) (ns : list GraphNode) : option nat :=
  match ns with
  | [] => None
  | n :: ns' =>
      if keqb (id n) i then Some 0
      else match findIndex i ns' with Some k => Some (S k) | None => None end
  end.

(** Body of [neighbors.forEach]. *)
Definition visitNeighbor (clusterId : nat) (st : ClusterState)
    (neighborId : Ident) : ClusterState :=
  match findIndex neighborId (c_nodes st) with
  | Some k =>
      if negb (shas neighborId (visited st)) then
        mkClusterState (updateAt k (setCluster clusterId) (c_nodes st))
                       (sadd neighborId (visited st))
                       (queue st ++ [neighborId])
                       (labellings st ++ [mkLabelling false k clusterId])
      else st
  | None => st
  end.

(** [for (let i = 0; i < batchSize; i++)]; the queue cannot be empty at a
    [shift] because [batchSize] is its length when the loop starts. *)
Fixpoint forBatch (adj : list (Ident * list Ident)) (clusterId : nat)
    (batchSize : nat) (st : ClusterState) : ClusterState :=
  match batchSize with
  | O => st
  | S batchSize' =>
      match queue st with
      | [] => st
      | currentId :: rest =>
          let neighbors := default [] (mget currentId adj) in
          let st1 := mkClusterState (c_nodes st) (visited st) rest (labellings st) in
          forBatch adj clusterId batchSize'
                   (fold_left (visitNeighbor clusterId) neighbors st1)
      end
  end.

(** [while (queue.length > 0 && depth < maxDepth)], by the number
    [maxDepth - depth] of rounds left. *)
Fixpoint bfsRounds (adj : list (Ident * list Ident)) (clusterId : nat)
    (roundsLeft : nat) (st : ClusterState) : ClusterState :=
  match roundsLeft with
  | O => st
  | S r =>
      match queue st with
      | [] => st
      | _ :: _ => bfsRounds adj clusterId r
                    (forBatch adj clusterId (List.length (queue st)) st)
      end
  end.

(** Body of the outer [nodes.forEach], for the node at position [i]; the
    accumulator carries [clusterId]. *)
Definition clusterStep (adj : list (Ident * list Ident))
    (acc : ClusterState * nat) (i : nat) : ClusterState * nat :=
  let (st, clusterId) := acc in
  match nth_error (c_nodes st) i with
  | None => acc
  | Some node =>
      if negb (shas (id node) (visited st)) then
        let st1 := mkClusterState
                     (updateAt i (setCluster clusterId) (c_nodes st))
                     (sadd (id node) (visited st))
                     [id node]
                     (labellings st ++ [mkLabelling true i clusterId]) in
        (bfsRounds adj clusterId 2 st1, S clusterId)
      else acc
  end.

(** The state and the value of [clusterId] when [assignClusters] returns. *)
Definition assignClustersRun (ns : list GraphNode) (ls : list GraphLink)
    : ClusterState * nat :=
  let adjacency := buildAdjacency ns ls in
  fold_left (clusterStep adjacency) (seq 0 (List.length ns))
            (mkClusterState ns [] [] [], 0).

(** [assignClusters(nodes, links)]: the array [nodes] afterwards. *)
Definition assignClusters (ns : list GraphNode) (ls : list GraphLink)
    : list GraphNode :=
  c_nodes (fst (assignClustersRun ns ls)).

(** *** calculateDegreesOfSeparation *)

(** The map [distances] and the [queue] of the search. *)
Record Search := mkSearch {
  distances : list (Ident * nat);
  frontier : list (Ident * nat)
}.

(** Body of [neighbors.forEach] in the search. *)
Definition relax (newDistance : nat) (st : Search) (neighborId : Ident) : Search :=
  if negb (mhas neighborId (distances st)) then
    mkSearch (mset neighborId newDistance (distances st))
             (frontier st ++ [(neighborId, newDistance)])
  else st.

(** [while (queue.length > 0)], at most [fuel] iterations. *)
Fixpoint searchLoop (adj : list (Ident * list Ident)) (fuel : nat)
    (st : Search) : Search :=
  match fuel with
  | O => st
  | S fuel' =>
      match frontier st with
      | [] => st
      | (cur, d) :: rest =>
          let neighbors := default [] (mget cur adj) in
          searchLoop adj fuel'
            (fold_left (relax (d + 1)) neighbors (mkSearch (distances st) rest))
      end
  end.

(** [node.degreesFromRoot = d] *)
Definition setDistance (d : option nat) (n : GraphNode) : GraphNode :=
  mkNode (id n) (val n) (inDegree n) (outDegree n) (isHub n) (cluster n) d.

(** The distances map when the [while] loop is left.  Every identity enters
    the queue at most once and, the reference apart, is an endpoint of a
    link, so [1 + 2 * links.length] iterations exhaust the queue
    ([search_exhausts] below). *)
Definition searchDistances (ns : list GraphNode) (ls : list GraphLink)
    (reference : Ident) : Search :=
  searchLoop (buildAdjacency ns ls) (1 + 2 * List.length ls)
             (mkSearch [(reference, 0)] [(reference, 0)]).

(** [calculateDegreesOfSeparation(nodes, links, referenceUser)]: the array
    [nodes] afterwards. *)
Definition calculateDegreesOfSeparation (ns : list GraphNode)
    (ls : list GraphLink) (reference : Ident) : list GraphNode :=
  let dist := distances (searchDistances ns ls reference) in
  map (fun n => setDistance (mget (id n) dist) n) ns.

(** *** The snapshot *)

(** [new Set(nodes.map(n => n.cluster).filter(c => c !== undefined))] *)
Definition distinctLabels (ns : list GraphNode) : list nat :=
  fold_left (fun s n => match cluster n with Some c => sadd c s | None => s end)
            ns [].

(** The part of [queryFn] that follows the [while] loop. *)
Definition analyse (referenceUser : option string)
    (nm : list (Ident * GraphNode)) (lm : list (string * GraphLink)) : GraphData :=
  let (nm1, lm1) := degreePass nm lm in
  let links := mvalues lm1 in
  let nodes1 := hubPass (mvalues nm1) in
  let nodes2 := assignClusters nodes1 links in
  let nodes3 :=
    if truthy referenceUser
    then calculateDegreesOfSeparation nodes2 links referenceUser
    else nodes2 in
  mkGraph nodes3 links
    (mkStats (List.length nodes3) (List.length links)
             (List.length (filter isHub nodes3))
             (List.length (filter isBidirectional links))
             (List.length (distinctLabels nodes3))).

(** [queryFn] of useWebOfTrust. *)
Definition useWebOfTrust (query : nat -> Filter -> list NostrEvent)
    (opts : WebOfTrustOptions) (fuel : nat) : option GraphData :=
  match collect query opts fuel with
  | Some st => Some (analyse (referenceUser opts) (nodesMap st) (linksMap st))
  | None => None
  end.

(** * The collector of useSocialGraph *)

Module SocialGraph.

(** [SocialGraphOptions]; [relayUrl] only selects the client queried. *)
Record Options := mkOptions {
  rootPubkey : option string;
  depth : option nat;
  limit : option nat
}.

(** [GraphNode] of lib/forceGraph as this hook fills it: [radius] is 20
    for the root and 12 otherwise.  The label and the avatar, read from
    the kind-0 profiles, the colour and the coordinates are left out. *)
Record GraphNode := mkNode {
  id : Ident;
  radius : nat;
  isRoot : bool
}.

Record GraphLink := mkLink {
  source : Ident;
  target : Ident
}.

Record GraphData := mkGraph {
  nodes : list GraphNode;
  links : list GraphLink
}.

(** The mutable locals of the traversal. *)
Record Crawl := mkCrawl {
  followMap : list (Ident * list Ident);
  allPubkeys : list Ident;
  visited : list Ident;
  nextLevel : list Ident
}.

(** Body of the first [for (const event of contactEvents)]. *)
Definition recordContacts (c : Crawl) (event : NostrEvent) : Crawl :=
  let followed := parseContactList event in
  mkCrawl (mset (Some (pubkey event)) followed (followMap c))
          (fold_left (fun s pk => sadd pk s) followed
                     (sadd (Some (pubkey event)) (allPubkeys c)))
          (visited c) (nextLevel c).

(** Body of [for (const pk of followed)] in the traversal. *)
Definition visit (lim : nat) (c : Crawl) (pk : Ident) : Crawl :=
  if negb (shas pk (visited c)) && (List.length (allPubkeys c) <? lim) then
    mkCrawl (followMap c) (sadd pk (allPubkeys c))
            (sadd pk (visited c)) (nextLevel c ++ [pk])
  else c.

(** Body of [for (const event of levelEvents)]. *)
Definition crawlEvent (lim : nat) (c : Crawl) (event : NostrEvent) : Crawl :=
  let followed := parseContactList event in
  fold_left (visit lim) followed
    (mkCrawl (mset (Some (pubkey event)) followed (followMap c))
             (allPubkeys c) (visited c) (nextLevel c)).

(** [for (let level = 1; level < depth && currentLevel.length > 0; level++)],
    by the number [depth - level] of levels left; [calls] counts the
    queries made. *)
Fixpoint crawlLevels (query : nat -> Filter -> list NostrEvent) (lim : nat)
    (levelsLeft calls : nat) (currentLevel : list Ident) (c : Crawl) : Crawl :=
  match levelsLeft with
  | O => c
  | S levelsLeft' =>
      match currentLevel with
      | [] => c
      | _ :: _ =>
          let levelEvents := query calls (mkFilter [3] (Some currentLevel) None) in
          let c1 := fold_left (crawlEvent lim) levelEvents
                      (mkCrawl (followMap c) (allPubkeys c) (visited c) []) in
          crawlLevels query lim levelsLeft' (S calls) (nextLevel c1) c1
      end
  end.

(** [pubkeyArray.includes] *)
Definition includes (pk : Ident) (l : list Ident) : bool := shas pk l.

(** [queryFn] of useSocialGraph. *)
Definition useSocialGraph (query : nat -> Filter -> list NostrEvent)
    (opts : Options) : GraphData :=
  let dep := default 2 (depth opts) in
  let lim := default 100 (limit opts) in
  let filters :=
    if truthy (rootPubkey opts)
    then mkFilter [3] (Some [rootPubkey opts]) (Some 1)
    else mkFilter [3] None (Some lim) in
  let contactEvents := query 0 filters in
  match contactEvents with
  | [] => mkGraph [] []
  | _ :: _ =>
      let c0 := fold_left recordContacts contactEvents (mkCrawl [] [] [] []) in
      let c :=
        if truthy (rootPubkey opts) && (1 <? dep)
        then crawlLevels query lim (dep - 1) 1 [rootPubkey opts]
               (mkCrawl (followMap c0) (allPubkeys c0) [rootPubkey opts] [])
        else c0 in
      let pubkeyArray := firstn lim (allPubkeys c) in
      mkGraph
        (map (fun pk =>
                let root := ident_eqb pk (rootPubkey opts) in
                mkNode pk (if root then 20 else 12) root) pubkeyArray)
        (flat_map (fun entry =>
                     if includes (fst entry) pubkeyArray
                     then map (mkLink (fst entry))
                              (filter (fun t => includes t pubkeyArray) (snd entry))
                     else [])
                  (followMap c))
  end.
End SocialGraph.

(** * Invariants, specifications and example data *)

(** ** The collector *)

(** The importance written by the collector. *)
Definition valCollected (n : GraphNode) : Prop :=
  (3 <= val n)%Q /\ (val n <= 20)%Q.

(** What holds of the maps and of the frontier throughout the loop of the
    collector, whatever the relays answer. *)
Record Sound (st : Collector) : Prop := {
  nodes_nodup : NoDup (mkeys (nodesMap st));
  links_nodup : NoDup (mkeys (linksMap st));
  nodes_ok : forall k n, In (k, n) (nodesMap st) -> id n = k /\ valCollected n;
  links_ok : forall k l, In (k, l) (linksMap st) ->
               k = linkId (source l) (target l) /\
               In (target l) (mkeys (nodesMap st)) /\
               isBidirectional l = false;
  queue_ok : forall p, In p (toProcess st) ->
               In (pending_pubkey p) (mkeys (nodesMap st))
}.

(** Every link starts at a node. *)
Definition Sourced (st : Collector) : Prop :=
  forall k l, In (k, l) (linksMap st) -> In (source l) (mkeys (nodesMap st)).

(** A relay that answers a query for a set of authors only with records of
    those authors. *)
Definition answersAuthors (query : nat -> Filter -> list NostrEvent) : Prop :=
  forall n f ps e,
    authors f = Some ps -> In e (query n f) -> In (Some (pubkey e)) ps.

(** Everything that was ever pushed on [toProcess], in order. *)
Definition enqueued (st : Collector) : list Ident :=
  map pending_pubkey (List.concat (dequeued st) ++ toProcess st).

(** Pushed identities are nodes, and no identity is pushed twice. *)
Definition Queued (st : Collector) : Prop :=
  NoDup (enqueued st) /\ incl (enqueued st) (mkeys (nodesMap st)).

(** ** The pass over the links *)

(** What the marking leaves untouched: key, source and target. *)
Definition ends (e : string * GraphLink) : string * (Ident * Ident) :=
  (fst e, (source (snd e), target (snd e))).

(** The links component of [degreeStep]. *)
Definition linkStep (lm : list (string * GraphLink)) (i : nat)
    : list (string * GraphLink) :=
  snd (degreeStep ([], lm) i).

(** Where a mark on the entry at position [j], of key [k], comes from: it
    was there, or the entry's own reverse key is in the map, or [k] is the
    reverse key of some entry. *)
Definition markJustified (lm : list (string * GraphLink)) (j : nat)
    (k : string) (l : GraphLink) : Prop :=
  (exists l0, nth_error lm j = Some (k, l0) /\ isBidirectional l0 = true) \/
  mhas (linkId (target l) (source l)) lm = true \/
  (exists i ki li, nth_error lm i = Some (ki, li) /\
                   k = linkId (target li) (source li)).

(** The ordered pair a link stands for. *)
Definition endpoints (l : GraphLink) : Ident * Ident := (source l, target l).

(** The nodes handed to [assignClusters] in [analyse]. *)
Definition classified (nm : list (Ident * GraphNode))
    (lm : list (string * GraphLink)) : list GraphNode :=
  hubPass (mvalues (fst (degreePass nm lm))).

(** ** Clustering *)

(** Number of regions started so far. *)
Definition seeds (log : list Labelling) : nat :=
  List.length (filter isSeed log).

(** Every label written is the number of regions started before the region
    it belongs to: the labels run through 0, 1, 2, ... and none is used again
    once the next region has started. *)
Definition labelLaw (log : list Labelling) : Prop :=
  forall j e, nth_error log j = Some e -> S (label e) = seeds (firstn (S j) log).

(** What holds of the nodes, the visited set and the labellings throughout
    [assignClusters ns _]. *)
Record ClusterInv (ns : list GraphNode) (st : ClusterState) : Prop := {
  ci_ids : map id (c_nodes st) = map id ns;
  ci_visited : forall x, In x (visited st) <->
                 exists e, In e (labellings st) /\
                           nth_error (map id ns) (position e) = Some x;
  ci_nodup : NoDup (map position (labellings st));
  ci_range : forall e, In e (labellings st) -> position e < List.length ns;
  ci_cluster : forall i n, nth_error (c_nodes st) i = Some n ->
                 (exists e, In e (labellings st) /\ position e = i /\
                            cluster n = Some (label e)) \/
                 (~ In i (map position (labellings st)) /\
                  nth_error ns i = Some n)
}.

(** The invariant kept while the region of label [cid] is explored. *)
Definition Exploring (ns : list GraphNode) (cid : nat)
    (base : list Labelling) (st : ClusterState) : Prop :=
  ClusterInv ns st /\ labelLaw (labellings st) /\
  seeds (labellings st) = S cid /\ incl base (labellings st).

(** The invariant of the outer [forEach]. *)
Definition Clustered (ns : list GraphNode) (acc : ClusterState * nat) : Prop :=
  ClusterInv ns (fst acc) /\ labelLaw (labellings (fst acc)) /\
  seeds (labellings (fst acc)) = snd acc.

(** The clustering pass of [queryFn]: the run of [assignClusters] on the
    array and the links that [analyse] hands to it, with its labellings and
    the value of [clusterId] reached. *)
Definition clusteringPass (nm : list (Ident * GraphNode))
    (lm : list (string * GraphLink)) : ClusterState * nat :=
  assignClustersRun (classified nm lm) (mvalues (snd (degreePass nm lm))).

(** ** The search for distances *)

(** [adjacency.get(x) || new Set()] *)
Definition neighbours (adj : list (Ident * list Ident)) (x : Ident)
    : list Ident :=
  default [] (mget x adj).

(** A list of distances in non-decreasing order. *)
Fixpoint ascending (l : list nat) : Prop :=
  match l with
  | [] => True
  | a :: l' => (forall b, In b l' -> a <= b) /\ ascending l'
  end.

(** A walk of [k] steps along the adjacency sets. *)
Inductive walk (adj : list (Ident * list Ident)) (reference : Ident)
    : nat -> Ident -> Prop :=
| walk_here : walk adj reference 0 reference
| walk_step : forall k x y, walk adj reference k x -> In y (neighbours adj x) ->
                            walk adj reference (S k) y.

(** All neighbours of [x] have a distance, at most one more than [d]. *)
Definition settled (adj : list (Ident * list Ident))
    (D : list (Ident * nat)) (x : Ident) (d : nat) : Prop :=
  forall y, In y (neighbours adj x) ->
            exists d', mget y D = Some d' /\ d' <= S d.

(** The state while the neighbours of [cur], at distance [d], are relaxed. *)
Record Relaxing (adj : list (Ident * list Ident)) (reference : Ident)
    (cur : Ident) (d : nat) (st : Search) : Prop := {
  rx_ref : mget reference (distances st) = Some 0;
  rx_cur : mget cur (distances st) = Some d;
  rx_walk : forall x dx, mget x (distances st) = Some dx ->
                         walk adj reference dx x;
  rx_frontier : forall x dx, In (x, dx) (frontier st) ->
                             mget x (distances st) = Some dx;
  rx_asc : ascending (d :: map snd (frontier st));
  rx_bound : forall x dx, mget x (distances st) = Some dx -> dx <= S d;
  rx_settled : forall x dx, mget x (distances st) = Some dx ->
                 x = cur \/ In (x, dx) (frontier st) \/
                 settled adj (distances st) x dx
}.

(** The state at the head of the [while] loop. *)
Record Searching (adj : list (Ident * list Ident)) (reference : Ident)
    (st : Search) : Prop := {
  se_ref : mget reference (distances st) = Some 0;
  se_walk : forall x dx, mget x (distances st) = Some dx ->
                         walk adj reference dx x;
  se_frontier : forall x dx, In (x, dx) (frontier st) ->
                             mget x (distances st) = Some dx;
  se_asc : ascending (map snd (frontier st));
  se_bound : forall x0 d0 rest, frontier st = (x0, d0) :: rest ->
               forall x dx, mget x (distances st) = Some dx -> dx <= S d0;
  se_settled : forall x dx, mget x (distances st) = Some dx ->
                 In (x, dx) (frontier st) \/ settled adj (distances st) x dx
}.

(** Number of entries of [U] that have no distance yet. *)
Definition unreached (U : list Ident) (D : list (Ident * nat)) : nat :=
  List.length (filter (fun u => negb (mhas u D)) U).

(** What decreases at every iteration of the search. *)
Definition searchMeasure (U : list Ident) (st : Search) : nat :=
  List.length (frontier st) + unreached U (distances st).

(** The two orientations in which a link joins [x] to [y]. *)
Definition joins (l : GraphLink) (x y : Ident) : Prop :=
  (source l = x /\ target l = y) \/ (target l = x /\ source l = y).

(** ** Properties stated of a run and of a snapshot *)

(** Some link joins [x] and [y], in either direction. *)
Definition linked (ls : list GraphLink) (x y : Ident) : Prop :=
  exists l, In l ls /\ joins l x y.

(** [hops ls r k x]: [x] is [k] undirected links away from [r]. *)
Inductive hops (ls : list GraphLink) (r : Ident) : nat -> Ident -> Prop :=
| hops_O : hops ls r 0 r
| hops_S : forall k x y, hops ls r k x -> linked ls x y -> hops ls r (S k) y.

(** [k] is the undirected hop-distance of [x] from [r]. *)
Definition hopDistance (ls : list GraphLink) (r x : Ident) (k : nat) : Prop :=
  hops ls r k x /\ forall j, hops ls r j x -> k <= j.

(** Both endpoints of [l] are among [ids]. *)
Definition anchored (ids : list Ident) (l : GraphLink) : bool :=
  shas (source l) ids && shas (target l) ids.

(** The property claimed of the distances, for the reference [r]: a node
    at undirected hop-distance [k] from [r] over the links has
    [degreesFromRoot] equal to [k], a node that no undirected path joins to
    [r] has none, and the node of [r] has distance 0. *)
Definition hopCountsWritten (r : Ident) (g : GraphData) : Prop :=
  forall n, In n (nodes g) ->
    (forall k, hopDistance (links g) r (id n) k -> degreesFromRoot n = Some k) /\
    ((forall k, ~ hops (links g) r k (id n)) -> degreesFromRoot n = None) /\
    (id n = r -> degreesFromRoot n = Some 0).

(** No dangling edges. *)
Definition noDangling (ids : list Ident) (ls : list GraphLink) : Prop :=
  forall l, In l ls -> In (source l) ids /\ In (target l) ids.

(** [l] and [l'] stand for the same ordered pair. *)
Definition sameEnds (l l' : GraphLink) : bool :=
  ident_eqb (source l) (source l') && ident_eqb (target l) (target l').

(** A string without the character [>]. *)
Fixpoint plainString (s : string) : bool :=
  match s with
  | EmptyString => true
  | String c r => negb (Ascii.eqb c ">") && plainString r
  end.

(** An identity that is a string, has no [>] in it and is not the text
    "undefined" that the template of [linkId] prints for a missing value;
    public keys in hexadecimal are of this kind. *)
Definition keyed (i : Ident) : bool :=
  match i with
  | Some s => plainString s && negb (String.eqb s "undefined")
  | None => false
  end.

(** The reverse of [l] is among [ls]. *)
Definition reverseIn (ls : list GraphLink) (l : GraphLink) : Prop :=
  exists l', In l' ls /\ source l' = target l /\ target l' = source l.

(** The same, as a test. *)
Definition hasReverse (ls : list GraphLink) (l : GraphLink) : bool :=
  existsb (fun l' => ident_eqb (source l') (target l) &&
                     ident_eqb (target l') (source l)) ls.

(** The property claimed of the marks: a link is marked exactly when its
    reverse is a link of the snapshot. *)
Definition bidirectionalSymmetry (g : GraphData) : Prop :=
  forall l, In l (links g) ->
            (isBidirectional l = true <-> reverseIn (links g) l).

(** The property claimed of the importance: between 3 and 20. *)
Definition importanceWithin20 (g : GraphData) : Prop :=
  forall n, In n (nodes g) -> (3 <= val n)%Q /\ (val n <= 20)%Q.

(** The property claimed of a batch: all its identities are of one level. *)
Definition uniformLevels (batch : list Pending) : Prop :=
  forall p q, In p batch -> In q batch -> level p = level q.

(** The property claimed of the frontier: no identity enters it twice. *)
Definition enqueuedOnce (st : Collector) : Prop := NoDup (enqueued st).

(** The sequence the parser is to return, in the words of the contract:
    the identities of the tags whose marker is "p", in the order of the
    record, a tag whose identity is missing or empty being passed over. *)
Fixpoint extracted (tgs : list (list string)) : list Ident :=
  match tgs with
  | [] => []
  | tag :: rest =>
      match tag with
      | marker :: value :: _ =>
          if String.eqb marker "p" && negb (String.eqb value EmptyString)
          then Some value :: extracted rest
          else extracted rest
      | _ => extracted rest
      end
  end.


(** ** Relays and records of the examples *)

(** A relay holding the records [db]: a query is answered with the records
    of the authors asked for (all records when no author is given), in the
    order of [db], and with no more of them than the limit of the filter. *)
Definition relay (db : list NostrEvent) : nat -> Filter -> list NostrEvent :=
  fun _ f =>
    let matching :=
      match authors f with
      | Some ps => filter (fun e => shas (Some (pubkey e)) ps) db
      | None => db
      end in
    match limit f with
    | Some n => firstn n matching
    | None => matching
    end.

(** A contact list: the record of [author] following [followed]. *)
Definition contacts (author : string) (followed : list string) : NostrEvent :=
  mkEvent author 3 0 (map (fun f => ["p"; f]%string) followed) "".

(** A relay that answers every query with the one record it holds, of the
    author "G" who follows "X" and "Y", whoever the authors asked for are. *)
Definition strangerRelay : nat -> Filter -> list NostrEvent :=
  fun _ _ => [contacts "G" ["X"%string; "Y"%string]].

(** The records of the counterexample: "c" follows the strings "a->b" and
    "a"; "a" follows the string "b->c".  The key of the link from "a" to
    "b->c" is also the reverse key of the link from "c" to "a->b". *)
Definition arrowRecords : list NostrEvent :=
  [contacts "c" ["a->b"%string; "a"%string]; contacts "a" ["b->c"%string]].

(** The character of the decimal digit [n]. *)
Definition digit (n : nat) : ascii := ascii_of_nat (48 + n).

(** The identity ["fNN"] of the [n]-th follower of the examples. *)
Definition follower (n : nat) : string :=
  String "f" (String (digit (n / 10)) (String (digit (n mod 10)) EmptyString)).

(** One record: "r" follows thirty identities. *)
Definition starRecords : list NostrEvent :=
  [contacts "r" (map follower (seq 0 30))].

(** The identity ["sNN"] of the [n]-th seed of the example. *)
Definition seedName (n : nat) : string :=
  String "s" (String (digit (n / 10)) (String (digit (n mod 10)) EmptyString)).

(** The records of fifty-one authors, the first of whom follows "x". *)
Definition crowdSeedRecords : list NostrEvent :=
  contacts (seedName 0) ["x"%string]
  :: map (fun n => contacts (seedName n) []) (seq 1 50).

(** What the relay of the example holds: "x" follows "y", "y" follows "z",
    and the records of the fifty-one authors. *)
Definition crowdRecords : list NostrEvent :=
  [contacts "x" ["y"%string]; contacts "y" ["z"%string]] ++ crowdSeedRecords.

(** The relay of the example: the query without authors is answered with the
    records of the fifty-one authors. *)
Definition crowdRelay : nat -> Filter -> list NostrEvent :=
  fun n f =>
    match authors f with
    | None => crowdSeedRecords
    | Some _ => relay crowdRecords n f
    end.

(** Two records of the author "A", of different dates. *)
Definition twoRecordsOfA : list NostrEvent :=
  [mkEvent "A" 3 1 [] ""; mkEvent "A" 3 2 [] ""].

(** A record of "A" with three "p" tags: one without identity, one with
    the empty identity, one naming "B". *)
Definition raggedRecord : NostrEvent :=
  mkEvent "A" 3 0 [["p"%string]; ["p"%string; EmptyString];
                   ["p"%string; "B"%string]] "".

(** * Further specifications of useWebOfTrust *)

(** ** What a run reads and what it writes *)

(** A node as the collector leaves it: the analytics have not touched it. *)
Definition collected (n : GraphNode) : Prop :=
  inDegree n = 0 /\ outDegree n = 0 /\ isHub n = false /\
  cluster n = None /\ degreesFromRoot n = None.

(** What clustering and the search for distances leave alone. *)
Definition shape (n : GraphNode) : Ident * Q * nat * nat * bool :=
  (id n, val n, inDegree n, outDegree n, isHub n).

(** What the pass over the links leaves alone in an entry of [nodesMap]. *)
Definition core (e : Ident * GraphNode)
    : Ident * Ident * Q * bool * option nat * option nat :=
  (fst e, id (snd e), val (snd e), isHub (snd e), cluster (snd e),
   degreesFromRoot (snd e)).

(** The root heads [nodesMap], with an importance of 10 or more. *)
Definition RootFirst (root : Ident) (st : Collector) : Prop :=
  exists n rest, nodesMap st = (root, n) :: rest /\ (10 <= val n)%Q.

(** The link stands for a "p" tag of a record that a query for authors
    returned. *)
Definition reported (query : nat -> Filter -> list NostrEvent)
    (l : GraphLink) : Prop :=
  exists n ps e,
    In e (query n (mkFilter [3] (Some ps) (Some 1))) /\
    source l = Some (pubkey e) /\ In (target l) (followedPubkeys e).

(** The identity is named by a "p" tag of a record that a query for authors
    returned. *)
Definition named (query : nat -> Filter -> list NostrEvent)
    (x : Ident) : Prop :=
  exists n ps e,
    In e (query n (mkFilter [3] (Some ps) (Some 1))) /\
    In x (followedPubkeys e).

(** The identities the loop starts from: the root, or the authors of the
    records of the first query. *)
Definition seedIdentity (query : nat -> Filter -> list NostrEvent)
    (opts : WebOfTrustOptions) (x : Ident) : Prop :=
  if truthy (startPubkey opts) then x = startPubkey opts
  else exists e,
         In e (query 0 (mkFilter [3] None (Some (default 100 (opt_limit opts))))) /\
         x = Some (pubkey e).

(** What holds of the maps throughout the loop: links stand for tags of
    records received; nodes are seeds or are named by such tags. *)
Definition Origin (query : nat -> Filter -> list NostrEvent)
    (opts : WebOfTrustOptions) (st : Collector) : Prop :=
  (forall k l, In (k, l) (linksMap st) -> reported query l) /\
  (forall k, In k (mkeys (nodesMap st)) ->
             seedIdentity query opts k \/ named query k).

(** The levels of a batch differ by at most one. *)
Definition adjacentLevels (batch : list Pending) : Prop :=
  forall p q, In p batch -> In q batch -> level p <= S (level q).

(** The frontier is a run of level [L] followed by a run of level [L + 1],
    and no entry has a level of [dep] or more unless it is a seed. *)
Definition Layered (dep : nat) (st : Collector) : Prop :=
  (exists L a b, toProcess st = a ++ b /\
                 Forall (fun p => level p = L) a /\
                 Forall (fun p => level p = S L) b) /\
  Forall (fun p => level p = 0 \/ level p < dep) (toProcess st) /\
  (forall batch, In batch (dequeued st) ->
     adjacentLevels batch /\
     Forall (fun p => level p = 0 \/ level p < dep) batch).

(** The frontier holds at most one batch of seeds, or holds identities of
    level 1 only; the batches taken so far are each of one level. *)
Definition Tiered (st : Collector) : Prop :=
  ((List.length (toProcess st) <= 50 /\
    Forall (fun p => level p = 0) (toProcess st)) \/
   Forall (fun p => level p = 1) (toProcess st)) /\
  forall batch, In batch (dequeued st) -> uniformLevels batch.

(** Only the root is pending, and every link starts at the root. *)
Definition Star (root : Ident) (st : Collector) : Prop :=
  (forall p, In p (toProcess st) -> pending_pubkey p = root) /\
  (forall k l, In (k, l) (linksMap st) -> source l = root).

(** A record as relays serve it: the key of the author has no [>] in it and
    every "p" tag has a value. *)
Definition wellFormed (e : NostrEvent) : Prop :=
  plainString (pubkey e) = true /\
  forall t, In t (followedPubkeys e) -> t <> None.

(** A relay that serves such records only. *)
Definition servesWellFormed (query : nat -> Filter -> list NostrEvent) : Prop :=
  forall n f e, In e (query n f) -> wellFormed e.

(** The same, as a test on the records a relay holds. *)
Definition wellFormedb (e : NostrEvent) : bool :=
  plainString (pubkey e) &&
  forallb (fun t => match t with Some _ => true | None => false end)
          (followedPubkeys e).

(** A directed path of follow links from [r]. *)
Inductive follows (ls : list GraphLink) (r : Ident) : Ident -> Prop :=
| follows_here : follows ls r r
| follows_step : forall x l, follows ls r x -> In l ls -> source l = x ->
                             follows ls r (target l).

(** What holds of the maps while the root is followed outwards: every
    node is reached from the root, and the links have strings at both
    ends. *)
Definition Rooted (root : Ident) (st : Collector) : Prop :=
  (forall k, In k (mkeys (nodesMap st)) ->
             follows (mvalues (linksMap st)) root k) /\
  (forall k l, In (k, l) (linksMap st) ->
               (exists s, source l = Some s /\ plainString s = true) /\
               target l <> None).

(** ** Degrees *)

(** Number of ordered pairs that leave [x], and that arrive at [x]. *)
Definition leaving (ps : list (Ident * Ident)) (x : Ident) : nat :=
  List.length (filter (fun p => ident_eqb x (fst p)) ps).

Definition arriving (ps : list (Ident * Ident)) (x : Ident) : nat :=
  List.length (filter (fun p => ident_eqb x (snd p)) ps).

(** Number of links whose source is [x]: the follows of [x]. *)
Definition outgoing (ls : list GraphLink) (x : Ident) : nat :=
  leaving (map endpoints ls) x.

(** Number of links whose target is [x]: the followers of [x]. *)
Definition incoming (ls : list GraphLink) (x : Ident) : nat :=
  arriving (map endpoints ls) x.

(** The node of key [k] after the pairs [ps] have been counted. *)
Definition raise (ps : list (Ident * Ident)) (k : Ident) (n : GraphNode)
    : GraphNode :=
  mkNode (id n) (val n) (inDegree n + arriving ps k) (outDegree n + leaving ps k)
         (isHub n) (cluster n) (degreesFromRoot n).

(** The nodes component of [degreeStep], for a link of the given ends. *)
Definition nodeStep (nm : list (Ident * GraphNode)) (p : Ident * Ident)
    : list (Ident * GraphNode) :=
  mupdate (snd p) incIn (mupdate (fst p) incOut nm).

(** ** Regions of the clustering *)

(** [x] is at most [d] steps along the adjacency sets from [s]. *)
Definition within (adj : list (Ident * list Ident)) (s : Ident) (d : nat)
    (x : Ident) : Prop :=
  exists k, k <= d /\ walk adj s k x.

(** The identity of the node at a position of [nodes]. *)
Definition idAt (ns : list GraphNode) (i : nat) : option Ident :=
  nth_error (map id ns) i.

(** Every labelled node is at most two steps from the seed of its region,
    whatever region it is. *)
Definition Compact (adj : list (Ident * list Ident)) (ns : list GraphNode)
    (log : list Labelling) : Prop :=
  forall e, In e log ->
    exists s x y, In s log /\ isSeed s = true /\ label s = label e /\
                  idAt ns (position s) = Some x /\
                  idAt ns (position e) = Some y /\ within adj x 2 y.

(** The state while the region of the seed labelling [s], of identity
    [sid], is explored: the first [n] entries of the queue are at most [d]
    steps from the seed, the others at most [d + 1]. *)
Definition Spreading (adj : list (Ident * list Ident)) (ns : list GraphNode)
    (s : Labelling) (sid : Ident) (d n : nat) (st : ClusterState) : Prop :=
  map id (c_nodes st) = map id ns /\
  Compact adj ns (labellings st) /\
  In s (labellings st) /\
  n <= List.length (queue st) /\
  Forall (within adj sid d) (firstn n (queue st)) /\
  Forall (within adj sid (S d)) (skipn n (queue st)).

(** * Further models: useSocialGraph *)

(** ** The identities collected *)

(** The filter of the first query of useSocialGraph. *)
Definition contactFilters (opts : SocialGraph.Options) : Filter :=
  if truthy (SocialGraph.rootPubkey opts)
  then mkFilter [3] (Some [SocialGraph.rootPubkey opts]) (Some 1)
  else mkFilter [3] None (Some (default 100 (SocialGraph.limit opts))).

(** The locals [followMap] and [allPubkeys] of useSocialGraph when the
    traversal is over, for a first query that returned records. *)
Definition crawled (query : nat -> Filter -> list NostrEvent)
    (opts : SocialGraph.Options) : SocialGraph.Crawl :=
  let dep := default 2 (SocialGraph.depth opts) in
  let lim := default 100 (SocialGraph.limit opts) in
  let contactEvents := query 0 (contactFilters opts) in
  let c0 := fold_left SocialGraph.recordContacts contactEvents
              (SocialGraph.mkCrawl [] [] [] []) in
  if truthy (SocialGraph.rootPubkey opts) && (1 <? dep)
  then SocialGraph.crawlLevels query lim (dep - 1) 1 [SocialGraph.rootPubkey opts]
         (SocialGraph.mkCrawl (SocialGraph.followMap c0) (SocialGraph.allPubkeys c0)
                              [SocialGraph.rootPubkey opts] [])
  else c0.

(** [pubkeyArray = Array.from(allPubkeys).slice(0, limit)] *)
Definition pubkeyArray (query : nat -> Filter -> list NostrEvent)
    (opts : SocialGraph.Options) : list Ident :=
  firstn (default 100 (SocialGraph.limit opts))
         (SocialGraph.allPubkeys (crawled query opts)).

(** An identity that is a string, and not the empty one. *)
Definition properIdent (i : Ident) : Prop :=
  exists s, i = Some s /\ s <> EmptyString.


(** ** The profiles *)

(** A value of a property of [JSON.parse(event.content)], as far as the
    hook tells values apart: [undefined] for a property that is missing, a
    string, or a value of another kind (a number, a boolean, [null], an
    array, an object), which the hook only tests for truthiness.  The
    interface [NostrProfile] types the three properties as optional strings,
    but nothing checks what the parsed document holds. *)
Inductive JsValue :=
| JsUndefined
| JsString (s : string)
| JsOther (isTruthy : bool).


(** [NostrProfile]; [profile_pubkey] is its field [pubkey]. *)
Record NostrProfile := mkProfile {
  profile_pubkey : Ident;
  name : JsValue;
  picture : JsValue;
  display_name : JsValue
}.

(** What the hook reads of [JSON.parse(event.content)]: the properties
    [name], [picture] and [display_name] of the parsed value. *)
Record Metadata := mkMetadata {
  md_name : JsValue;
  md_picture : JsValue;
  md_display_name : JsValue
}.

(** [{ pubkey }] *)
Definition bareProfile (pubkey : Ident) : NostrProfile :=
  mkProfile pubkey JsUndefined JsUndefined JsUndefined.

(** Body of [for (const event of profileEvents)]: an event replaces the
    one kept for its author when it is strictly later. *)
Definition keepLatest (latest : list (Ident * NostrEvent)) (event : NostrEvent)
    : list (Ident * NostrEvent) :=
  match mget (K := Ident) (Some (pubkey event)) latest with
  | Some existing =>
      if created_at existing <? created_at event
      then mset (K := Ident) (Some (pubkey event)) event latest
      else latest
  | None => mset (K := Ident) (Some (pubkey event)) event latest
  end.

(** The map [latestProfileEvents] after the loop. *)
Definition latestProfileEvents (profileEvents : list NostrEvent)
    : list (Ident * NostrEvent) :=
  fold_left keepLatest profileEvents [].

Section Profiles.
(** [JSON.parse] followed by the reading of the three properties; [None]
    when either throws (a content that is not JSON, or the JSON [null]). *)
Variable parse : string -> option Metadata.

(** The profile written in the [try] block, or in its [catch]. *)
Definition profileOf (pubkey : Ident) (event : NostrEvent) : NostrProfile :=
  match parse (content event) with
  | Some metadata =>
      mkProfile pubkey (md_name metadata) (md_picture metadata)
                (md_display_name metadata)
  | None => bareProfile pubkey
  end.

(** Body of [for (const [pubkey, event] of latestProfileEvents)]. *)
Definition addProfile (profileMap : list (Ident * NostrProfile))
    (entry : Ident * NostrEvent) : list (Ident * NostrProfile) :=
  mset (fst entry) (profileOf (fst entry) (snd entry)) profileMap.

(** Body of [for (const pubkey of pubkeyArray)]: "ensure all pubkeys have
    a profile entry". *)
Definition ensureProfile (profileMap : list (Ident * NostrProfile))
    (pubkey : Ident) : list (Ident * NostrProfile) :=
  if negb (mhas pubkey profileMap)
  then mset pubkey (bareProfile pubkey) profileMap
  else profileMap.

(** The map [profileMap] that the hook returns as [profiles], from the
    kind-0 events received and [pubkeyArray]. *)
Definition buildProfiles (profileEvents : list NostrEvent)
    (pubkeys : list Ident) : list (Ident * NostrProfile) :=
  fold_left ensureProfile pubkeys
    (fold_left addProfile (latestProfileEvents profileEvents) []).
End Profiles.

Section Labels.
(** [s => s.slice(0, 8)]: the first eight UTF-16 code units of the string
    [s].  How the code units of a string of the program are laid out in the
    characters of a [string] is left open, and this function with it. *)
Variable slice8 : string -> string.

End Labels.

(** What is kept for an author among the events seen: the first of the
    events of the author that no event of the author is later than (every
    earlier one of the author is strictly older, no later one is newer);
    nothing when no event is of the author. *)
Definition latestOf (seen : list NostrEvent) (pk : Ident)
    (kept : option NostrEvent) : Prop :=
  match kept with
  | Some e =>
      Some (pubkey e) = pk /\
      exists before after,
        seen = before ++ e :: after /\
        (forall e', In e' before -> pubkey e' = pubkey e ->
                    created_at e' < created_at e) /\
        (forall e', In e' after -> pubkey e' = pubkey e ->
                    created_at e' <= created_at e)
  | None => forall e', In e' seen -> Some (pubkey e') <> pk
  end.

(** * Further models: the relay panel and the colours of the visualizer *)

Definition DEFAULT_RELAYS : list string :=
  ["wss://relay.ditto.pub"; "wss://relay.nostr.band";
   "wss://relay.damus.io"]%string.

Definition POPULAR_RELAYS : list string :=
  ["wss://relay.ditto.pub"; "wss://relay.nostr.band"; "wss://relay.damus.io";
   "wss://nos.lol"; "wss://relay.primal.net"; "wss://relay.snort.social";
   "wss://nostr.wine"]%string.

Definition CLUSTER_COLORS : list string :=
  ["#3b82f6"; "#10b981"; "#f59e0b"; "#8b5cf6"; "#ec4899"; "#06b6d4";
   "#f97316"; "#14b8a6"; "#6366f1"; "#84cc16"]%string.

(** [getClusterColor]; an index outside the palette would read
    [undefined], which is [None]. *)
Definition getClusterColor (cluster : option nat) : option string :=
  match cluster with
  | None => Some "#94a3b8"%string
  | Some c => nth_error CLUSTER_COLORS (c mod List.length CLUSTER_COLORS)
  end.

(** [extNode.id === hoveredNode]; the state [hoveredNode] is a string or
    [null], which is [None] and equals no identity. *)
Definition isHovered (hoveredNode : option string) (n : GraphNode) : bool :=
  match hoveredNode with
  | Some h => ident_eqb (id n) (Some h)
  | None => false
  end.

(** The colour with which [drawNode] fills the circle of a node: that of
    [getClusterColor], overridden with white for the node of the current
    user and with amber for the hovered node.  [user] is [user?.pubkey],
    [undefined] when nobody is logged in. *)
Definition nodeColour (user : Ident) (hoveredNode : option string)
    (n : GraphNode) : option string :=
  let color := getClusterColor (cluster n) in
  if ident_eqb (id n) user then Some "#ffffff"%string
  else if isHovered hoveredNode n then Some "#fbbf24"%string
  else color.

(** The state of the relay panel: [selectedRelays] and [customRelayInput]. *)
Record RelayPanel := mkPanel {
  selectedRelays : list string;
  customRelayInput : string
}.

(** The update that [toggleRelay] passes to [setSelectedRelays]. *)
Definition toggleRelay (relay : string) (prev : list string) : list string :=
  if shas relay prev
  then filter (fun r => negb (String.eqb r relay)) prev
  else prev ++ [relay].

(** [addCustomRelay] *)
Definition addCustomRelay (p : RelayPanel) : RelayPanel :=
  if String.prefix "wss://" (customRelayInput p) &&
     negb (shas (customRelayInput p) (selectedRelays p))
  then mkPanel (selectedRelays p ++ [customRelayInput p]) EmptyString
  else p.

(** What the user can do in the panel: tick the checkbox of the [i]-th
    popular relay, type in the input, press Enter or click "Add". *)
Inductive PanelEvent :=
| CheckRelay (i : nat)
| TypeRelay (text : string)
| SubmitRelay.

(** The handler of each. *)
Definition panelStep (p : RelayPanel) (ev : PanelEvent) : RelayPanel :=
  match ev with
  | CheckRelay i =>
      match nth_error POPULAR_RELAYS i with
      | Some relay =>
          mkPanel (toggleRelay relay (selectedRelays p)) (customRelayInput p)
      | None => p
      end
  | TypeRelay text => mkPanel (selectedRelays p) text
  | SubmitRelay => addCustomRelay p
  end.

(** Every selected relay is a websocket address, and none is selected
    twice. *)
Definition panelOk (p : RelayPanel) : Prop :=
  NoDup (selectedRelays p) /\
  forall r, In r (selectedRelays p) -> String.prefix "wss://" r = true.

(** * Properties *)

(** ** Insertion-ordered maps and sets *)

Lemma ident_eqb_eq : forall a b, ident_eqb a b = true <-> a = b.
Proof. exact (@keqb_eq Ident _). Qed.

Section OrderedMapFacts.
Context {K V : Type} `{EqKey K}.
Implicit Types (k : K) (v : V) (m : list (K * V)).

Lemma keqb_refl k : keqb k k = true.
Proof. now apply keqb_eq. Qed.

Lemma keqb_false k k' : keqb k k' = false <-> k <> k'.
Proof.
  split.
  - intros E Heq. apply keqb_eq in Heq. congruence.
  - intro N. destruct (keqb k k') eqn:E; [|reflexivity].
    apply keqb_eq in E. contradiction.
Qed.

Lemma keqb_dec k k' : {k = k'} + {k <> k'}.
Proof.
  destruct (keqb k k') eqn:E.
  - left. now apply keqb_eq.
  - right. now apply keqb_false.
Defined.

Lemma mget_In k v m : mget k m = Some v -> In (k, v) m.
Proof.
  induction m as [|[k' v'] m IH]; simpl; [discriminate|].
  destruct (keqb k k') eqn:E.
  - intro Hs. inversion Hs. apply keqb_eq in E. subst. now left.
  - intro Hs. right. auto.
Qed.

Lemma mget_None k m : mget k m = None <-> ~ In k (mkeys m).
Proof.
  induction m as [|[k' v'] m IH]; simpl.
  - tauto.
  - destruct (keqb k k') eqn:E.
    + apply keqb_eq in E. subst. split; [discriminate|]. intro N. exfalso. auto.
    + apply keqb_false in E. rewrite IH. split.
      * intros N [Heq|Hin]; [congruence|auto].
      * intros N Hin. auto.
Qed.

Lemma mhas_In k m : mhas k m = true <-> In k (mkeys m).
Proof.
  unfold mhas. destruct (mget k m) eqn:E.
  - split; [|reflexivity]. intros _. apply mget_In in E.
    apply (in_map fst) in E. exact E.
  - apply mget_None in E. split; [discriminate|contradiction].
Qed.

Lemma mhas_false k m : mhas k m = false <-> ~ In k (mkeys m).
Proof.
  rewrite <- mhas_In. destruct (mhas k m); split; congruence.
Qed.

Lemma In_mget k v m : NoDup (mkeys m) -> In (k, v) m -> mget k m = Some v.
Proof.
  induction m as [|[k' v'] m IH]; simpl; [tauto|].
  intros ND [Heq|Hin].
  - inversion Heq; subst. now rewrite keqb_refl.
  - inversion ND; subst. destruct (keqb k k') eqn:E.
    + apply keqb_eq in E. subst. exfalso. apply H2.
      apply (in_map fst) in Hin. exact Hin.
    + auto.
Qed.

Lemma mget_mset k k' v m :
  mget k' (mset k v m) = if keqb k' k then Some v else mget k' m.
Proof.
  induction m as [|[k0 v0] m IH]; simpl.
  - reflexivity.
  - destruct (keqb k k0) eqn:E; simpl.
    + apply keqb_eq in E. subst. destruct (keqb k' k0); reflexivity.
    + rewrite IH. destruct (keqb k' k) eqn:E'; [|reflexivity].
      apply keqb_eq in E'. subst. now rewrite E.
Qed.

Lemma mkeys_mset k v m :
  mkeys (mset k v m) = if mhas k m then mkeys m else mkeys m ++ [k].
Proof.
  unfold mhas. induction m as [|[k0 v0] m IH]; simpl.
  - reflexivity.
  - destruct (keqb k k0) eqn:E; simpl.
    + apply keqb_eq in E. now subst.
    + rewrite IH. destruct (mget k m); reflexivity.
Qed.

Lemma mkeys_mset_incl k v m : incl (mkeys m) (mkeys (mset k v m)).
Proof.
  rewrite mkeys_mset. destruct (mhas k m).
  - apply incl_refl.
  - apply incl_appl, incl_refl.
Qed.

Lemma mkeys_mset_In k v m : In k (mkeys (mset k v m)).
Proof.
  rewrite mkeys_mset. destruct (mhas k m) eqn:E.
  - now apply mhas_In.
  - apply in_or_app. right. now left.
Qed.

Lemma In_mkeys_mset k k' v m :
  In k' (mkeys (mset k v m)) <-> k' = k \/ In k' (mkeys m).
Proof.
  rewrite mkeys_mset. destruct (mhas k m) eqn:E.
  - apply mhas_In in E. split; [tauto|]. intros [->|Hin]; assumption.
  - rewrite in_app_iff. simpl. split; intros [A|B]; auto.
    + destruct B as [B|[]]. auto.
Qed.

Lemma NoDup_mset k v m : NoDup (mkeys m) -> NoDup (mkeys (mset k v m)).
Proof.
  intro ND. rewrite mkeys_mset. destruct (mhas k m) eqn:E; [assumption|].
  apply mhas_false in E. apply NoDup_app; try assumption.
  - repeat constructor. intros [].
  - intros x Hx [Heq|[]]. subst. contradiction.
Qed.

Lemma In_mset k v k' v' m :
  In (k', v') (mset k v m) -> (k' = k /\ v' = v) \/ In (k', v') m.
Proof.
  induction m as [|[k0 v0] m IH]; simpl.
  - intros [Heq|[]]. inversion Heq. auto.
  - destruct (keqb k k0) eqn:E.
    + intros [Heq|Hin]; [inversion Heq|]; auto.
    + intros [Heq|Hin]; [auto|]. destruct (IH Hin) as [A|A]; auto.
Qed.

Lemma In_mset_other k v k' v' m :
  k' <> k -> In (k', v') m -> In (k', v') (mset k v m).
Proof.
  intro N. induction m as [|[k0 v0] m IH]; simpl; [tauto|].
  intros [Heq|Hin].
  - inversion Heq; subst. destruct (keqb k k') eqn:E.
    + apply keqb_eq in E. congruence.
    + now left.
  - destruct (keqb k k0); right; auto.
Qed.

Lemma length_mset k v m :
  List.length (mset k v m) = if mhas k m then List.length m else S (List.length m).
Proof.
  unfold mhas. induction m as [|[k0 v0] m IH]; simpl; [reflexivity|].
  destruct (keqb k k0); simpl; [reflexivity|].
  rewrite IH. destruct (mget k m); reflexivity.
Qed.

Lemma mkeys_mupdate k (f : V -> V) m : mkeys (mupdate k f m) = mkeys m.
Proof.
  unfold mupdate. destruct (mget k m) eqn:E; [|reflexivity].
  rewrite mkeys_mset. unfold mhas. now rewrite E.
Qed.

Lemma mget_mupdate k k' (f : V -> V) m :
  mget k' (mupdate k f m) =
  if keqb k' k then option_map f (mget k m) else mget k' m.
Proof.
  unfold mupdate. destruct (mget k m) eqn:E.
  - rewrite mget_mset. reflexivity.
  - destruct (keqb k' k) eqn:E'; [|reflexivity].
    apply keqb_eq in E'. subst. now rewrite E.
Qed.

Lemma In_mupdate k (f : V -> V) k' v' m :
  In (k', v') (mupdate k f m) ->
  In (k', v') m \/ exists v0, In (k', v0) m /\ v' = f v0.
Proof.
  unfold mupdate. destruct (mget k m) eqn:E; [|auto].
  intro Hin. apply In_mset in Hin. destruct Hin as [[-> ->]|Hin]; [|auto].
  right. exists v. split; [now apply mget_In|reflexivity].
Qed.

Lemma length_mupdate k (f : V -> V) m :
  List.length (mupdate k f m) = List.length m.
Proof.
  rewrite <- (length_map fst (mupdate k f m)), <- (length_map fst m).
  change (List.length (mkeys (mupdate k f m)) = List.length (mkeys m)).
  now rewrite mkeys_mupdate.
Qed.
End OrderedMapFacts.

Section OrderedSetFacts.
Context {K : Type} `{EqKey K}.
Implicit Types (k : K) (s : list K).

Lemma shas_In k s : shas k s = true <-> In k s.
Proof.
  unfold shas. rewrite existsb_exists. split.
  - intros (x & Hin & E). apply keqb_eq in E. now subst.
  - intro Hin. exists k. split; [assumption|apply keqb_refl].
Qed.

Lemma shas_false k s : shas k s = false <-> ~ In k s.
Proof.
  rewrite <- shas_In. destruct (shas k s); split; congruence.
Qed.

Lemma In_sadd k x s : In x (sadd k s) <-> x = k \/ In x s.
Proof.
  unfold sadd. destruct (shas k s) eqn:E.
  - apply shas_In in E. split; [tauto|]. intros [->|Hin]; assumption.
  - rewrite in_app_iff. simpl. split; intros [A|B]; auto.
    destruct B as [B|[]]. auto.
Qed.

Lemma NoDup_sadd k s : NoDup s -> NoDup (sadd k s).
Proof.
  intro ND. unfold sadd. destruct (shas k s) eqn:E; [assumption|].
  apply shas_false in E. apply NoDup_app; try assumption.
  - repeat constructor. intros [].
  - intros x Hx [Heq|[]]. subst. contradiction.
Qed.
End OrderedSetFacts.

Section UpdateAtFacts.
Context {A : Type}.
Implicit Types (f : A -> A) (l : list A).

Lemma length_updateAt i f l : List.length (updateAt i f l) = List.length l.
Proof.
  revert i. induction l as [|x l IH]; intros [|i]; simpl; auto.
Qed.

Lemma nth_error_updateAt i j f l :
  nth_error (updateAt i f l) j =
  if Nat.eqb j i then option_map f (nth_error l j) else nth_error l j.
Proof.
  revert i j. induction l as [|x l IH]; intros [|i] [|j]; simpl; auto.
  - destruct (Nat.eqb _ _); reflexivity.
Qed.

Lemma map_updateAt {B : Type} (g : A -> B) i f l :
  (forall x, g (f x) = g x) -> map g (updateAt i f l) = map g l.
Proof.
  intro Hg. revert i. induction l as [|x l IH]; intros [|i]; simpl;
    rewrite ?Hg, ?IH; reflexivity.
Qed.

Lemma In_updateAt i f l y :
  In y (updateAt i f l) -> In y l \/ exists x, In x l /\ y = f x.
Proof.
  revert i. induction l as [|x l IH]; intros [|i]; simpl; try tauto.
  - intros [<-|Hin]; [right; exists x|]; auto.
  - intros [<-|Hin]; auto. destruct (IH _ Hin) as [B|(x0 & B & C)]; auto.
    right. exists x0. auto.
Qed.
End UpdateAtFacts.

(** ** The collector: what every state of the loop satisfies *)

Lemma filter_all {A : Type} (f : A -> bool) l :
  (forall x, In x l -> f x = true) -> filter f l = l.
Proof.
  induction l as [|x l IH]; intro H; [reflexivity|].
  simpl. rewrite (H x (or_introl eq_refl)), IH; [reflexivity|].
  intros y Hy. apply H. now right.
Qed.

Lemma fold_left_invariant {S X : Type} (P : S -> Prop) (f : S -> X -> S) :
  forall (l : list X) (s : S),
    P s -> (forall s x, In x l -> P s -> P (f s x)) -> P (fold_left f l s).
Proof.
  induction l as [|x l IH]; simpl; intros s Hs Hstep; [assumption|].
  apply IH.
  - apply Hstep; auto.
  - intros s' x' Hin. apply Hstep. auto.
Qed.

Lemma bump_collected n : valCollected n -> valCollected (bump n).
Proof.
  intros [Hlo Hhi]. unfold valCollected, bump. simpl. split.
  - apply Q.min_glb; lra.
  - apply Q.le_min_r.
Qed.

Lemma addFollowed_nodes_incl author lv dep st x :
  incl (mkeys (nodesMap st)) (mkeys (nodesMap (addFollowed author lv dep st x))).
Proof.
  unfold addFollowed. destruct (mget x (nodesMap st)); simpl;
    apply mkeys_mset_incl.
Qed.

Lemma addFollowed_target_node author lv dep st x :
  In x (mkeys (nodesMap (addFollowed author lv dep st x))).
Proof.
  unfold addFollowed. destruct (mget x (nodesMap st)); simpl;
    apply mkeys_mset_In.
Qed.

Lemma addFollowed_links author lv dep st x k l :
  In (k, l) (linksMap (addFollowed author lv dep st x)) ->
  In (k, l) (linksMap st) \/
  (k = linkId (Some author) x /\ l = mkLink (Some author) x false).
Proof.
  unfold addFollowed.
  assert (Hl : In (k, l)
                 (if mhas (linkId (Some author) x) (linksMap st) then linksMap st
                  else mset (linkId (Some author) x)
                         (mkLink (Some author) x false) (linksMap st)) ->
               In (k, l) (linksMap st) \/
               (k = linkId (Some author) x /\ l = mkLink (Some author) x false)).
  { destruct (mhas _ _); [auto|]. intro Hin. apply In_mset in Hin. tauto. }
  destruct (mget x (nodesMap st)); simpl; exact Hl.
Qed.

Lemma addFollowed_links_nodup author lv dep st x :
  NoDup (mkeys (linksMap st)) ->
  NoDup (mkeys (linksMap (addFollowed author lv dep st x))).
Proof.
  intro ND. unfold addFollowed.
  assert (Hl : NoDup (mkeys
                 (if mhas (linkId (Some author) x) (linksMap st) then linksMap st
                  else mset (linkId (Some author) x)
                         (mkLink (Some author) x false) (linksMap st)))).
  { destruct (mhas _ _); [assumption|]. now apply NoDup_mset. }
  destruct (mget x (nodesMap st)); simpl; exact Hl.
Qed.

Lemma addFollowed_queue author lv dep st x :
  toProcess (addFollowed author lv dep st x) = toProcess st \/
  toProcess (addFollowed author lv dep st x) =
    toProcess st ++ [mkPending x (lv + 1)].
Proof.
  unfold addFollowed. destruct (mget x (nodesMap st)); simpl; [auto|].
  destruct (_ && _); auto.
Qed.

Lemma addFollowed_sound author lv dep st x :
  Sound st -> Sound (addFollowed author lv dep st x).
Proof.
  intros [Hn Hl Hno Hlo Hq].
  pose proof (addFollowed_nodes_incl author lv dep st x) as Hincl.
  pose proof (addFollowed_target_node author lv dep st x) as Htgt.
  constructor.
  - unfold addFollowed. destruct (mget x (nodesMap st)); simpl;
      now apply NoDup_mset.
  - now apply addFollowed_links_nodup.
  - intros k n Hin. unfold addFollowed in Hin.
    destruct (mget x (nodesMap st)) as [node|] eqn:E; simpl in Hin;
      apply In_mset in Hin; destruct Hin as [[-> ->]|Hin]; eauto.
    + apply mget_In in E. destruct (Hno _ _ E) as [Hid Hv]. split.
      * exact Hid.
      * now apply bump_collected.
    + split; [reflexivity|]. unfold valCollected. simpl. lra.
  - intros k l Hin. apply addFollowed_links in Hin.
    destruct Hin as [Hin|[-> ->]].
    + destruct (Hlo _ _ Hin) as (A & B & C). auto.
    + simpl. auto.
  - intros p Hin. destruct (addFollowed_queue author lv dep st x) as [E|E];
      rewrite E in Hin.
    + auto.
    + apply in_app_or in Hin. destruct Hin as [Hin|[<-|[]]]; auto.
Qed.

Lemma addFollowed_sourced author lv dep st x :
  Sourced st -> In (Some author) (mkeys (nodesMap st)) ->
  Sourced (addFollowed author lv dep st x).
Proof.
  intros Hs Ha k l Hin.
  apply (addFollowed_nodes_incl author lv dep st x).
  apply addFollowed_links in Hin. destruct Hin as [Hin|[-> ->]]; eauto.
Qed.

Lemma processEvent_sound lv dep st e :
  Sound st -> Sound (processEvent lv dep st e).
Proof.
  intro Hs. unfold processEvent.
  apply fold_left_invariant.
  - destruct Hs. constructor; assumption.
  - intros s x _. apply addFollowed_sound.
Qed.

Lemma processEvent_nodes_incl lv dep st e :
  incl (mkeys (nodesMap st)) (mkeys (nodesMap (processEvent lv dep st e))).
Proof.
  unfold processEvent.
  apply (fold_left_invariant
           (fun s => incl (mkeys (nodesMap st)) (mkeys (nodesMap s)))).
  - apply incl_refl.
  - intros s x _ Hi. eapply incl_tran; [exact Hi|].
    apply addFollowed_nodes_incl.
Qed.

Lemma processEvent_sourced lv dep st e :
  Sourced st -> In (Some (pubkey e)) (mkeys (nodesMap st)) ->
  Sourced (processEvent lv dep st e).
Proof.
  intros Hs Ha. unfold processEvent.
  apply (fold_left_invariant
           (fun s => Sourced s /\ In (Some (pubkey e)) (mkeys (nodesMap s)))).
  - split; assumption.
  - intros s x _ [A B]. split.
    + now apply addFollowed_sourced.
    + now apply addFollowed_nodes_incl.
Qed.

Section CollectFacts.
Variable query : nat -> Filter -> list NostrEvent.

Lemma processBatch_sound dep st : Sound st -> Sound (processBatch query dep st).
Proof.
  intros Hs. unfold processBatch.
  assert (Hrest : forall p, In p (skipn 50 (toProcess st)) ->
                            In (pending_pubkey p) (mkeys (nodesMap st))).
  { intros p Hin. apply (queue_ok _ Hs).
    rewrite <- (firstn_skipn 50 (toProcess st)). apply in_or_app. auto. }
  destruct (dep <=? _).
  - destruct Hs. constructor; assumption.
  - apply fold_left_invariant.
    + destruct Hs. constructor; assumption.
    + intros s e _. apply processEvent_sound.
Qed.

Lemma processBatch_sourced dep st :
  answersAuthors query -> Sound st -> Sourced st ->
  Sourced (processBatch query dep st).
Proof.
  intros Hq Hs Hsrc. unfold processBatch.
  destruct (dep <=? _); [exact Hsrc|].
  set (batch := firstn 50 (toProcess st)).
  set (f := mkFilter [3] (Some (map pending_pubkey batch)) (Some 1)).
  apply (fold_left_invariant
           (fun s => Sourced s /\
                     incl (mkeys (nodesMap st)) (mkeys (nodesMap s)))).
  - split; [exact Hsrc|apply incl_refl].
  - intros s e Hin [A B]. split.
    + apply processEvent_sourced; [exact A|].
      apply B. apply (Hq _ f _ e eq_refl) in Hin.
      apply in_map_iff in Hin. destruct Hin as (p & Hp & Hin).
      rewrite <- Hp. apply (queue_ok _ Hs).
      rewrite <- (firstn_skipn 50 (toProcess st)). apply in_or_app. auto.
    + eapply incl_tran; [exact B|]. apply processEvent_nodes_incl.
Qed.

Lemma addSeed_sound st e :
  Sound st -> linksMap st = [] -> 
  Sound (addSeed st e) /\ linksMap (addSeed st e) = [].
Proof.
  intros Hs Hl. unfold addSeed. destruct (negb _); [|auto].
  split; [|exact Hl]. destruct Hs as [Hn Hln Hno Hlo Hq]. constructor; simpl.
  - now apply NoDup_mset.
  - assumption.
  - intros k n Hin. apply In_mset in Hin. destruct Hin as [[-> ->]|Hin]; eauto.
    split; [reflexivity|]. unfold valCollected. simpl. lra.
  - rewrite Hl. intros k l [].
  - intros p Hin. apply in_app_or in Hin. destruct Hin as [Hin|[<-|[]]].
    + apply mkeys_mset_incl. auto.
    + apply mkeys_mset_In.
Qed.

Lemma seed_sound opts :
  Sound (seed query opts) /\ linksMap (seed query opts) = [].
Proof.
  unfold seed. destruct (truthy (startPubkey opts)).
  - split; [|reflexivity]. constructor; simpl.
    + repeat constructor. intros [].
    + constructor.
    + intros k n [Heq|[]]. inversion Heq; subst. split; [reflexivity|].
      unfold valCollected. simpl. lra.
    + intros k l [].
    + intros p [<-|[]]. now left.
  - apply (fold_left_invariant (fun s => Sound s /\ linksMap s = [])).
    + split; [|reflexivity]. constructor; simpl; try constructor;
        intros; contradiction.
    + intros s e _ [A B]. now apply addSeed_sound.
Qed.

Lemma drain_invariant (P : Collector -> Prop) dep :
  (forall st, P st -> P (processBatch query dep st)) ->
  forall fuel st st', P st -> drain query fuel dep st = Some st' -> P st'.
Proof.
  intros Hstep. induction fuel as [|fuel IH]; intros st st' Hp; simpl.
  - destruct (toProcess st); [|discriminate]. intro E. inversion E. now subst.
  - destruct (toProcess st) eqn:Eq.
    + intro E. inversion E. now subst.
    + apply IH. now apply Hstep.
Qed.

Lemma drain_empty fuel dep st st' :
  drain query fuel dep st = Some st' -> toProcess st' = [].
Proof.
  revert st. induction fuel as [|fuel IH]; intros st; simpl.
  - destruct (toProcess st) eqn:E; [|discriminate]. intro H. inversion H.
    now subst.
  - destruct (toProcess st) eqn:E.
    + intro H. inversion H. now subst.
    + apply IH.
Qed.

Lemma drain_more fuel dep st st' :
  drain query fuel dep st = Some st' ->
  forall fuel', fuel <= fuel' -> drain query fuel' dep st = Some st'.
Proof.
  revert st. induction fuel as [|fuel IH]; intros st; simpl.
  - destruct (toProcess st) eqn:E; [|discriminate]. intros H [|f'] _; simpl;
      now rewrite E.
  - destruct (toProcess st) eqn:E.
    + intros H [|f'] _; simpl; now rewrite E.
    + intros H [|f'] Hle; [lia|]. simpl. rewrite E. apply IH; [assumption|lia].
Qed.

Theorem collect_sound opts fuel st :
  collect query opts fuel = Some st -> Sound st.
Proof.
  unfold collect. apply drain_invariant.
  - intros s. apply processBatch_sound.
  - apply seed_sound.
Qed.

Theorem collect_sourced opts fuel st :
  answersAuthors query ->
  collect query opts fuel = Some st -> Sourced st.
Proof.
  intros Hq Hc. unfold collect in Hc.
  apply (drain_invariant (fun s => Sound s /\ Sourced s)) in Hc.
  - apply Hc.
  - intros s [A B]. split; [now apply processBatch_sound|].
    now apply processBatch_sourced.
  - split; [apply seed_sound|]. intros k l Hin.
    destruct (seed_sound opts) as [_ E]. rewrite E in Hin. destruct Hin.
Qed.
End CollectFacts.

(** ** The collector: the frontier loop ends *)

Section Termination.
Variable query : nat -> Filter -> list NostrEvent.

Lemma processEvent_queue lv dep st e :
  exists l, toProcess (processEvent lv dep st e) = toProcess st ++ l /\
            Forall (fun p => level p = lv + 1) l.
Proof.
  unfold processEvent.
  apply (fold_left_invariant
           (fun s => exists l, toProcess s = toProcess st ++ l /\
                               Forall (fun p => level p = lv + 1) l)).
  - exists []. simpl. rewrite app_nil_r. auto.
  - intros s x _ (l & E & F).
    destruct (addFollowed_queue (pubkey e) lv dep s x) as [E'|E']; rewrite E', E.
    + exists l. auto.
    + exists (l ++ [mkPending x (lv + 1)]). rewrite app_assoc. split; [reflexivity|].
      apply Forall_app. split; [assumption|]. repeat constructor.
Qed.

Lemma processBatch_queue dep st p q :
  toProcess st = p :: q ->
  (dep <= level p /\
   toProcess (processBatch query dep st) = skipn 50 (toProcess st)) \/
  (level p < dep /\
   exists l, toProcess (processBatch query dep st) = skipn 50 (toProcess st) ++ l /\
             Forall (fun x => level x = S (level p)) l).
Proof.
  intro E. unfold processBatch. rewrite E. cbn [firstn].
  destruct (dep <=? level p) eqn:Hd.
  - left. apply Nat.leb_le in Hd. auto.
  - right. apply Nat.leb_gt in Hd. split; [assumption|].
    apply (fold_left_invariant
             (fun s => exists l, toProcess s = skipn 50 (p :: q) ++ l /\
                                 Forall (fun x => level x = S (level p)) l)).
    + exists []. simpl. rewrite app_nil_r. auto.
    + intros s e _ (l & El & F).
      destruct (processEvent_queue (level p) dep s e) as (l' & El' & F').
      exists (l ++ l'). rewrite El', El, app_assoc. split; [reflexivity|].
      apply Forall_app. split; [assumption|].
      eapply Forall_impl; [|exact F']. simpl. intros. lia.
Qed.

Lemma length_skipn_cons {A : Type} (x : A) (l : list A) :
  List.length (skipn 50 (x :: l)) <= List.length l.
Proof. rewrite length_skipn. simpl. lia. Qed.

(** Only identities beyond the depth are left: every batch is skipped. *)
Lemma drain_skips dep : forall n st,
  List.length (toProcess st) <= n ->
  Forall (fun p => dep <= level p) (toProcess st) ->
  exists fuel st', drain query fuel dep st = Some st'.
Proof.
  induction n as [|n IH]; intros st Hlen Hall.
  - exists 0, st. simpl. destruct (toProcess st); [reflexivity|simpl in Hlen; lia].
  - destruct (toProcess st) as [|p q] eqn:E.
    + exists 0, st. simpl. now rewrite E.
    + destruct (processBatch_queue dep st p q E) as [[_ Eq]|[Hlt _]].
      * destruct (IH (processBatch query dep st)) as (fuel & st' & Hd).
        -- rewrite Eq, E. pose proof (length_skipn_cons p q). simpl in Hlen. lia.
        -- rewrite Eq, E.
           apply Forall_forall. intros x Hx.
           rewrite Forall_forall in Hall. apply Hall.
           rewrite <- (firstn_skipn 50 (p :: q)). apply in_or_app. now right.
        -- exists (S fuel), st'. simpl. now rewrite E.
      * inversion Hall; subst. lia.
Qed.

(** The frontier is a run of one level followed by a run of the next. *)
Lemma drain_levels dep : forall k n st a b L,
  toProcess st = a ++ b ->
  List.length a <= n ->
  Forall (fun p => level p = L) a ->
  Forall (fun p => level p = S L) b ->
  dep - L <= k ->
  exists fuel st', drain query fuel dep st = Some st'.
Proof.
  induction k as [|k IHk].
  - intros n st a b L E _ Fa Fb Hk.
    apply (drain_skips dep (List.length (toProcess st))); [lia|].
    rewrite E. apply Forall_app. split.
    + eapply Forall_impl; [|exact Fa]. simpl. intros. lia.
    + eapply Forall_impl; [|exact Fb]. simpl. intros. lia.
  - assert (Hnil : forall st b L,
               toProcess st = b -> Forall (fun p => level p = S L) b ->
               dep - L <= S k ->
               exists fuel st', drain query fuel dep st = Some st').
    { intros st b L E Fb Hk.
      apply (IHk (List.length b) st b [] (S L)); auto.
      - now rewrite app_nil_r.
      - lia. }
    induction n as [|n IHn]; intros st a b L E Hlen Fa Fb Hk.
    + destruct a; [|simpl in Hlen; lia]. simpl in E. eauto.
    + destruct a as [|p a]; [simpl in E; eauto|].
      simpl in E.
      destruct (processBatch_queue dep st p (a ++ b) E) as [[Hge _]|[Hlt (l & Eq & Fl)]].
      * apply (drain_skips dep (List.length (toProcess st))); [lia|].
        rewrite E. inversion Fa; subst.
        constructor; [assumption|]. apply Forall_app. split.
        -- eapply Forall_impl; [|eassumption]. simpl. intros. lia.
        -- eapply Forall_impl; [|exact Fb]. simpl. intros. lia.
      * inversion Fa; subst.
        destruct (IHn (processBatch query dep st)
                      (skipn 50 (p :: a))
                      (skipn (50 - List.length (p :: a)) b ++ l)
                      (level p)) as (fuel & st' & Hd).
        -- rewrite Eq, E. change (p :: a ++ b) with ((p :: a) ++ b).
           rewrite skipn_app, app_assoc. reflexivity.
        -- pose proof (length_skipn_cons p a). simpl in Hlen. lia.
        -- apply Forall_forall. intros x Hx.
           rewrite Forall_forall in Fa. apply Fa.
           rewrite <- (firstn_skipn 50 (p :: a)). apply in_or_app. auto.
        -- apply Forall_app. split; [|assumption].
           apply Forall_forall. intros x Hx.
           rewrite Forall_forall in Fb. apply Fb.
           rewrite <- (firstn_skipn (50 - List.length (p :: a)) b).
           apply in_or_app. auto.
        -- assumption.
        -- exists (S fuel), st'. simpl. now rewrite E.
Qed.

Lemma seed_levels opts :
  Forall (fun p => level p = 0) (toProcess (seed query opts)).
Proof.
  unfold seed. destruct (truthy (startPubkey opts)).
  - simpl. repeat constructor.
  - apply (fold_left_invariant
             (fun s => Forall (fun p => level p = 0) (toProcess s))).
    + constructor.
    + intros s e _ F. unfold addSeed. destruct (negb _); [|assumption].
      simpl. apply Forall_app. split; [assumption|]. repeat constructor.
Qed.

(** Whatever the relays answer, the loop of the collector is left after
    finitely many iterations. *)
Theorem collect_terminates opts :
  exists fuel st, collect query opts fuel = Some st.
Proof.
  unfold collect.
  apply (drain_levels (default 2 (depth opts)) (default 2 (depth opts))
           (List.length (toProcess (seed query opts)))
           (seed query opts) (toProcess (seed query opts)) [] 0).
  - now rewrite app_nil_r.
  - lia.
  - apply seed_levels.
  - constructor.
  - lia.
Qed.

Theorem useWebOfTrust_terminates opts :
  exists fuel g, useWebOfTrust query opts fuel = Some g.
Proof.
  destruct (collect_terminates opts) as (fuel & st & E).
  exists fuel. unfold useWebOfTrust. rewrite E. eauto.
Qed.
End Termination.

(** ** Analytics: degrees and bidirectionality *)

Section MupdateAt.
Context {K V : Type} `{EqKey K}.

Lemma nth_error_mupdate (k : K) (f : V -> V) (m : list (K * V)) :
  forall j k' v, nth_error m j = Some (k', v) ->
    nth_error (mupdate k f m) j = Some (k', v) \/
    (k' = k /\ nth_error (mupdate k f m) j = Some (k', f v)).
Proof.
  unfold mupdate. destruct (mget k m) as [v0|] eqn:E; [|auto].
  revert v0 E. induction m as [|[k1 v1] m IH]; intros v0 E [|j] k' v Hn;
    simpl in *; try discriminate.
  - inversion Hn; subst. destruct (keqb k k') eqn:Ek.
    + inversion E; subst. apply keqb_eq in Ek. subst. simpl. auto.
    + simpl. auto.
  - destruct (keqb k k1) eqn:Ek; simpl; [auto|]. eapply IH; eauto.
Qed.

Lemma map_mupdate {B : Type} (g : K * V -> B) (k : K) (f : V -> V) m :
  (forall v, g (k, f v) = g (k, v)) -> map g (mupdate k f m) = map g m.
Proof.
  intro Hg. unfold mupdate. destruct (mget k m) as [v0|] eqn:E; [|reflexivity].
  revert v0 E. induction m as [|[k1 v1] m IH]; intros v0 E; simpl in *;
    [discriminate|].
  destruct (keqb k k1) eqn:Ek; simpl.
  - inversion E; subst. apply keqb_eq in Ek. subst. now rewrite Hg.
  - f_equal. eapply IH; eauto.
Qed.
End MupdateAt.

Lemma degreeStep_snd st i : snd (degreeStep st i) = linkStep (snd st) i.
Proof.
  unfold linkStep, degreeStep. simpl.
  destruct (nth_error (snd st) i) as [[k l]|]; reflexivity.
Qed.

Lemma degreePass_links_fold nm lm ixs :
  snd (fold_left degreeStep ixs (nm, lm)) = fold_left linkStep ixs lm.
Proof.
  revert nm lm. induction ixs as [|i ixs IH]; intros nm lm; simpl; [reflexivity|].
  destruct (degreeStep (nm, lm) i) as [nm' lm'] eqn:E.
  rewrite IH. f_equal.
  change lm' with (snd (nm', lm')). rewrite <- E. apply degreeStep_snd.
Qed.

Lemma mhas_same_keys {V W : Type} (k : string) (m : list (string * V))
    (m' : list (string * W)) :
  mkeys m = mkeys m' -> mhas k m = mhas k m'.
Proof.
  intro E. destruct (mhas k m') eqn:E'.
  - apply mhas_In. rewrite E. now apply mhas_In.
  - apply mhas_false. rewrite E. now apply mhas_false.
Qed.

Lemma linkStep_ends lm i : map ends (linkStep lm i) = map ends lm.
Proof.
  unfold linkStep, degreeStep. simpl.
  destruct (nth_error lm i) as [[k l]|]; [|reflexivity]. simpl.
  destruct (mhas _ lm); [|reflexivity].
  rewrite map_mupdate by reflexivity.
  apply map_updateAt. intros [k0 l0]. reflexivity.
Qed.

Lemma ends_keys lm lm' : map ends lm = map ends lm' -> mkeys lm = mkeys lm'.
Proof.
  intro E. unfold mkeys.
  transitivity (map fst (map ends lm)); [now rewrite map_map|].
  rewrite E. now rewrite map_map.
Qed.

Lemma ends_nth lm lm' j k l :
  map ends lm = map ends lm' -> nth_error lm j = Some (k, l) ->
  exists l', nth_error lm' j = Some (k, l') /\
             source l' = source l /\ target l' = target l.
Proof.
  intros E Hn. apply (map_nth_error ends) in Hn. rewrite E in Hn.
  rewrite nth_error_map in Hn.
  destruct (nth_error lm' j) as [[k' l']|]; simpl in Hn; [|discriminate].
  unfold ends in Hn. simpl in Hn. inversion Hn. subst. eauto.
Qed.

Lemma linkStep_nth lm i j k l :
  nth_error (linkStep lm i) j = Some (k, l) ->
  exists l0, nth_error lm j = Some (k, l0) /\
             source l0 = source l /\ target l0 = target l /\
             (isBidirectional l = true ->
              isBidirectional l0 = true \/
              (exists ki li, nth_error lm i = Some (ki, li) /\
                 mhas (linkId (target li) (source li)) lm = true /\
                 (j = i \/ k = linkId (target li) (source li)))).
Proof.
  intro Hn.
  destruct (ends_nth _ lm j k l (linkStep_ends lm i) Hn) as (l0 & Hn0 & Hs & Ht).
  exists l0. repeat split; try assumption. intro Hb.
  unfold linkStep, degreeStep in Hn. simpl in Hn.
  destruct (nth_error lm i) as [[ki li]|] eqn:Ei; simpl in Hn;
    [|rewrite Hn0 in Hn; inversion Hn; subst; auto].
  destruct (mhas (linkId (target li) (source li)) lm) eqn:Eh; simpl in Hn;
    [|rewrite Hn0 in Hn; inversion Hn; subst; auto].
  destruct (isBidirectional l0) eqn:Eb0; [auto|]. right.
  exists ki, li. split; [reflexivity|]. split; [exact Eh|].
  destruct (Nat.eq_dec j i) as [->|Nji]; [auto|]. right.
  assert (Hu : nth_error (updateAt i markEntry lm) j = Some (k, l0)).
  { rewrite nth_error_updateAt. apply Nat.eqb_neq in Nji. now rewrite Nji. }
  destruct (nth_error_mupdate (linkId (target li) (source li)) markLink _ _ _ _ Hu)
    as [A|[A B]].
  - rewrite A in Hn. inversion Hn; subst. congruence.
  - exact A.
Qed.

Lemma linkStep_keeps lm i j k l :
  nth_error lm j = Some (k, l) -> isBidirectional l = true ->
  exists l', nth_error (linkStep lm i) j = Some (k, l') /\
             isBidirectional l' = true.
Proof.
  intros Hn Hb. unfold linkStep, degreeStep. simpl.
  destruct (nth_error lm i) as [[ki li]|] eqn:Ei; simpl; [|eauto].
  destruct (mhas _ lm); [|eauto].
  assert (Hu : exists l1, nth_error (updateAt i markEntry lm) j = Some (k, l1) /\
                          isBidirectional l1 = true).
  { rewrite nth_error_updateAt, Hn. destruct (Nat.eqb j i); simpl; [|eauto].
    exists (markLink l). auto. }
  destruct Hu as (l1 & Hu & Hb1).
  destruct (nth_error_mupdate (linkId (target li) (source li)) markLink _ _ _ _ Hu)
    as [A|[A B]]; eauto.
Qed.

Lemma linkStep_marks lm i k l :
  nth_error lm i = Some (k, l) ->
  mhas (linkId (target l) (source l)) lm = true ->
  exists l', nth_error (linkStep lm i) i = Some (k, l') /\
             isBidirectional l' = true.
Proof.
  intros Hn Hh.
  unfold linkStep, degreeStep. simpl. rewrite Hn. simpl. rewrite Hh.
  assert (Hu : nth_error (updateAt i markEntry lm) i = Some (k, markLink l)).
  { rewrite nth_error_updateAt, Nat.eqb_refl, Hn. reflexivity. }
  destruct (nth_error_mupdate (linkId (target l) (source l)) markLink _ _ _ _ Hu)
    as [A|[A B]]; eauto.
Qed.

Section MarkFold.
Variable lm : list (string * GraphLink).

Lemma markFold_ends ixs : forall cur,
  map ends cur = map ends lm ->
  map ends (fold_left linkStep ixs cur) = map ends lm.
Proof.
  induction ixs as [|i ixs IH]; intros cur E; simpl; [assumption|].
  apply IH. now rewrite linkStep_ends.
Qed.

Lemma markFold_keeps ixs : forall cur j k l,
  nth_error cur j = Some (k, l) -> isBidirectional l = true ->
  exists l', nth_error (fold_left linkStep ixs cur) j = Some (k, l') /\
             isBidirectional l' = true.
Proof.
  induction ixs as [|i ixs IH]; intros cur j k l Hn Hb; simpl; [eauto|].
  destruct (linkStep_keeps cur i j k l Hn Hb) as (l' & Hn' & Hb'). eauto.
Qed.

Lemma markFold_complete ixs : forall cur i k l,
  map ends cur = map ends lm ->
  In i ixs ->
  nth_error lm i = Some (k, l) ->
  mhas (linkId (target l) (source l)) lm = true ->
  exists l', nth_error (fold_left linkStep ixs cur) i = Some (k, l') /\
             isBidirectional l' = true.
Proof.
  induction ixs as [|i0 ixs IH]; intros cur i k l E Hin Hn Hh; [destruct Hin|].
  simpl. destruct Hin as [->|Hin].
  - destruct (ends_nth lm cur i k l (eq_sym E) Hn) as (lc & Hc & Hs & Ht).
    destruct (linkStep_marks cur i k lc Hc) as (l' & Hn' & Hb').
    + rewrite Hs, Ht. rewrite (mhas_same_keys _ cur lm); [assumption|].
      now apply ends_keys.
    + eapply markFold_keeps; eauto.
  - eapply IH; eauto. now rewrite linkStep_ends.
Qed.

Lemma markFold_sound ixs : forall cur,
  map ends cur = map ends lm ->
  (forall j k l, nth_error cur j = Some (k, l) -> isBidirectional l = true ->
                 markJustified lm j k l) ->
  forall j k l, nth_error (fold_left linkStep ixs cur) j = Some (k, l) ->
                isBidirectional l = true -> markJustified lm j k l.
Proof.
  induction ixs as [|i ixs IH]; intros cur E Hcur; simpl; [exact Hcur|].
  apply IH; [now rewrite linkStep_ends|].
  intros j k l Hn Hb.
  destruct (linkStep_nth cur i j k l Hn) as (l0 & Hn0 & Hs & Ht & Hwhy).
  destruct (Hwhy Hb) as [Hb0|(ki & li & Hi & Hh & Hor)].
  - destruct (Hcur j k l0 Hn0 Hb0) as [A|[A|A]].
    + left. exact A.
    + right. left. now rewrite <- Hs, <- Ht.
    + right. right. exact A.
  - rewrite (mhas_same_keys _ cur lm) in Hh by now apply ends_keys.
    destruct Hor as [-> | ->].
    + right. left. rewrite Hn0 in Hi. inversion Hi; subst.
      now rewrite <- Hs, <- Ht.
    + right. right.
      destruct (ends_nth cur lm i ki li E Hi) as (li' & Hi' & Hs' & Ht').
      exists i, ki, li'. split; [assumption|]. now rewrite Hs', Ht'.
Qed.
End MarkFold.

(** The links after the pass: same keys and endpoints; an entry whose
    reverse key is in the map is marked; a mark is justified. *)
Lemma degreePass_links nm lm :
  let lm1 := snd (degreePass nm lm) in
  map ends lm1 = map ends lm /\
  (forall i k l, nth_error lm i = Some (k, l) ->
     mhas (linkId (target l) (source l)) lm = true ->
     exists l', nth_error lm1 i = Some (k, l') /\ isBidirectional l' = true) /\
  (forall j k l, nth_error lm1 j = Some (k, l) -> isBidirectional l = true ->
     markJustified lm j k l).
Proof.
  unfold degreePass. rewrite degreePass_links_fold. simpl. repeat split.
  - now apply markFold_ends.
  - intros i k l Hn Hh. apply (markFold_complete lm _ lm i k l); auto.
    apply in_seq. split; [lia|]. simpl. apply nth_error_Some. congruence.
  - apply markFold_sound; [reflexivity|].
    intros j k l Hn Hb. left. eauto.
Qed.

(** The nodes after the pass: same keys; whatever [incOut] and [incIn]
    preserve still holds of every node. *)
Lemma degreePass_nodes (R : Ident -> GraphNode -> Prop) nm lm :
  (forall k n, R k n -> R k (incOut n)) ->
  (forall k n, R k n -> R k (incIn n)) ->
  (forall k n, In (k, n) nm -> R k n) ->
  mkeys (fst (degreePass nm lm)) = mkeys nm /\
  (forall k n, In (k, n) (fst (degreePass nm lm)) -> R k n).
Proof.
  intros Hout Hin Hall. unfold degreePass.
  apply (fold_left_invariant
           (fun st => mkeys (fst st) = mkeys nm /\
                      forall k n, In (k, n) (fst st) -> R k n)).
  - simpl. auto.
  - intros [nm' lm'] i _ [Ek HR]. unfold degreeStep. simpl in *.
    destruct (nth_error lm' i) as [[k l]|]; simpl; [|auto]. split.
    + now rewrite !mkeys_mupdate.
    + intros k0 n0 H0.
      apply In_mupdate in H0. destruct H0 as [H0|(n1 & H0 & ->)].
      * apply In_mupdate in H0. destruct H0 as [H0|(n2 & H0 & ->)]; auto.
      * apply Hin.
        apply In_mupdate in H0. destruct H0 as [H0|(n2 & H0 & ->)]; auto.
Qed.

(** ** Analytics: hubs *)

Lemma classify_id t n : id (classify t n) = id n.
Proof. reflexivity. Qed.

(** The recomputation never lowers the importance and never takes it
    beyond 30. *)
Lemma classify_val t n :
  (val n <= val (classify t n))%Q /\
  (val (classify t n) <= Qmax (val n) 30)%Q.
Proof.
  unfold classify. cbn [val].
  destruct (Qle_bool t (ofNat (totalDegree n)) && (10 <=? totalDegree n)).
  - split; [apply Q.le_max_l|].
    apply Q.max_le_compat_l.
    pose proof (Q.le_min_r (ofNat (totalDegree n) / 5) 15). lra.
  - split; [apply Q.le_max_l|].
    apply Q.max_le_compat_l.
    pose proof (Q.le_min_r (ofNat (totalDegree n) / 2) 7). lra.
Qed.

Lemma hubPass_ids ns : map id (hubPass ns) = map id ns.
Proof. unfold hubPass. rewrite map_map. reflexivity. Qed.

(** ** Analytics: clustering *)

Lemma findIndex_Some x ns k :
  findIndex x ns = Some k -> nth_error (map id ns) k = Some x.
Proof.
  revert k. induction ns as [|n ns IH]; intros k; simpl; [discriminate|].
  destruct (ident_eqb (id n) x) eqn:E.
  - intro H. inversion H; subst. apply ident_eqb_eq in E. now subst.
  - destruct (findIndex x ns) eqn:F; [|discriminate].
    intro H. inversion H; subst. simpl. now apply IH.
Qed.

Lemma findIndex_None x ns : findIndex x ns = None -> ~ In x (map id ns).
Proof.
  induction ns as [|n ns IH]; simpl; [tauto|].
  destruct (ident_eqb (id n) x) eqn:E; [discriminate|].
  destruct (findIndex x ns) eqn:F; [discriminate|].
  intros _ [Heq|Hin]; [|now apply IH].
  apply ident_eqb_eq in Heq. congruence.
Qed.

Lemma findIndex_In x ns : In x (map id ns) -> exists k, findIndex x ns = Some k.
Proof.
  intro Hin. destruct (findIndex x ns) eqn:F; [eauto|].
  apply findIndex_None in F. contradiction.
Qed.

Lemma labelLaw_snoc log e :
  labelLaw log ->
  S (label e) = seeds log + (if isSeed e then 1 else 0) ->
  labelLaw (log ++ [e]).
Proof.
  intros Hl He j e' Hn.
  destruct (Nat.lt_ge_cases j (List.length log)) as [Hlt|Hge].
  - rewrite nth_error_app1 in Hn by assumption.
    rewrite firstn_app. replace (S j - List.length log) with 0 by lia.
    simpl. rewrite app_nil_r. now apply Hl.
  - rewrite nth_error_app2 in Hn by assumption.
    destruct (j - List.length log) as [|d] eqn:Ed; simpl in Hn;
      [|destruct d; discriminate].
    inversion Hn; subst e'.
    rewrite firstn_all2 by (rewrite length_app; simpl; lia).
    unfold seeds in *. rewrite filter_app, length_app. simpl.
    destruct (isSeed e); simpl; lia.
Qed.

Section Clustering.
Variable ns : list GraphNode.
Hypothesis ids_nodup : NoDup (map id ns).

(** One execution of [x.cluster = c] on the unvisited node at position [k]. *)
Lemma assign_inv st st' b k c x :
  ClusterInv ns st ->
  nth_error (map id ns) k = Some x ->
  ~ In x (visited st) ->
  c_nodes st' = updateAt k (setCluster c) (c_nodes st) ->
  visited st' = sadd x (visited st) ->
  labellings st' = labellings st ++ [mkLabelling b k c] ->
  ClusterInv ns st'.
Proof.
  intros [Hids Hvis Hnd Hrg Hcl] Hk Hx En Ev El.
  assert (Hfresh : ~ In k (map position (labellings st))).
  { intro Hin. apply in_map_iff in Hin. destruct Hin as (e & He & Hin).
    apply Hx. apply Hvis. exists e. split; [assumption|]. now rewrite He. }
  constructor.
  - rewrite En. rewrite map_updateAt by reflexivity. exact Hids.
  - intro y. rewrite Ev, El, In_sadd. split.
    + intros [->|Hy].
      * exists (mkLabelling b k c). split; [|exact Hk].
        apply in_or_app. right. now left.
      * apply Hvis in Hy. destruct Hy as (e & He & Hn). exists e.
        split; [|assumption]. apply in_or_app. now left.
    + intros (e & He & Hn). apply in_app_or in He.
      destruct He as [He|[<-|[]]].
      * right. apply Hvis. eauto.
      * left. simpl in Hn. congruence.
  - rewrite El, map_app. simpl. apply NoDup_app; try assumption.
    + repeat constructor. intros [].
    + intros p Hp [<-|[]]. contradiction.
  - intros e He. rewrite El in He. apply in_app_or in He.
    destruct He as [He|[<-|[]]]; [auto|].
    simpl. rewrite <- (length_map id). apply nth_error_Some. congruence.
  - intros i n Hn. rewrite En, nth_error_updateAt in Hn. rewrite El.
    destruct (Nat.eqb i k) eqn:Eik.
    + apply Nat.eqb_eq in Eik. subst i. left.
      destruct (nth_error (c_nodes st) k); simpl in Hn; [|discriminate].
      inversion Hn; subst. exists (mkLabelling b k c). simpl.
      split; [|auto]. apply in_or_app. right. now left.
    + apply Nat.eqb_neq in Eik.
      destruct (Hcl i n Hn) as [(e & He & Hp & Hc)|[Hni Hsame]].
      * left. exists e. split; [|auto]. apply in_or_app. now left.
      * right. split; [|assumption]. rewrite map_app. simpl.
        intro Hin. apply in_app_or in Hin. destruct Hin as [Hin|[Hin|[]]]; auto.
Qed.

Lemma visitNeighbor_exploring cid base st x :
  Exploring ns cid base st -> Exploring ns cid base (visitNeighbor cid st x).
Proof.
  intros (Hinv & Hlaw & Hseeds & Hbase). unfold visitNeighbor.
  destruct (findIndex x (c_nodes st)) as [k|] eqn:F;
    [|unfold Exploring; tauto].
  destruct (shas x (visited st)) eqn:Ev; simpl;
    [unfold Exploring; tauto|].
  apply findIndex_Some in F. rewrite (ci_ids _ _ Hinv) in F.
  apply shas_false in Ev. split; [|split; [|split]]; simpl.
  - apply (assign_inv st _ false k cid x); auto.
  - apply labelLaw_snoc; [assumption|]. simpl. lia.
  - unfold seeds in *. rewrite filter_app, length_app. simpl. lia.
  - apply incl_appl. assumption.
Qed.

Lemma forBatch_exploring adj cid base : forall n st,
  Exploring ns cid base st -> Exploring ns cid base (forBatch adj cid n st).
Proof.
  induction n as [|n IH]; intros st Hst; simpl; [assumption|].
  destruct (queue st) as [|cur rest] eqn:Eq; [assumption|].
  apply IH. apply fold_left_invariant.
  - destruct Hst as ([A B C D E] & F & G & I).
    split; [|split; [|split]]; try assumption. constructor; assumption.
  - intros s x _. apply visitNeighbor_exploring.
Qed.

Lemma bfsRounds_exploring adj cid base : forall r st,
  Exploring ns cid base st -> Exploring ns cid base (bfsRounds adj cid r st).
Proof.
  induction r as [|r IH]; intros st Hst; simpl; [assumption|].
  destruct (queue st) eqn:Eq; [assumption|].
  apply IH. now apply forBatch_exploring.
Qed.

Lemma clusterStep_clustered adj acc i :
  Clustered ns acc ->
  Clustered ns (clusterStep adj acc i) /\
  incl (labellings (fst acc)) (labellings (fst (clusterStep adj acc i))) /\
  (i < List.length ns ->
   In i (map position (labellings (fst (clusterStep adj acc i))))).
Proof.
  destruct acc as [st cid]. intros (Hinv & Hlaw & Hseeds). simpl in *.
  destruct (nth_error (c_nodes st) i) as [node|] eqn:En.
  2:{ split; [unfold Clustered; simpl; tauto|]. split; [apply incl_refl|].
      intro Hlt. exfalso. apply nth_error_None in En.
      rewrite <- (length_map id), (ci_ids _ _ Hinv), length_map in En. lia. }
  assert (Hidi : nth_error (map id ns) i = Some (id node)).
  { rewrite <- (ci_ids _ _ Hinv). now apply map_nth_error. }
  destruct (shas (id node) (visited st)) eqn:Ev; simpl.
  - split; [unfold Clustered; simpl; tauto|]. split; [apply incl_refl|].
    intros _. apply shas_In in Ev. apply (ci_visited _ _ Hinv) in Ev.
    destruct Ev as (e & He & Hp).
    assert (position e = i).
    { apply (proj1 (NoDup_nth_error (map id ns)) ids_nodup).
      - apply nth_error_Some. congruence.
      - congruence. }
    subst i. now apply in_map.
  - apply shas_false in Ev.
    set (st1 := mkClusterState (updateAt i (setCluster cid) (c_nodes st))
                  (sadd (id node) (visited st)) [id node]
                  (labellings st ++ [mkLabelling true i cid])).
    assert (H1 : Exploring ns cid (labellings st1) st1).
    { split; [|split; [|split]].
      - apply (assign_inv st st1 true i cid (id node)); auto.
      - apply labelLaw_snoc; [assumption|]. simpl. lia.
      - unfold seeds in *. simpl. rewrite filter_app, length_app. simpl. lia.
      - apply incl_refl. }
    destruct (bfsRounds_exploring adj cid _ 2 st1 H1) as (A & B & C & D).
    split; [unfold Clustered; simpl; tauto|]. split.
    + eapply incl_tran; [|exact D]. simpl. apply incl_appl, incl_refl.
    + intros _. apply in_map_iff. exists (mkLabelling true i cid).
      split; [reflexivity|]. apply D. simpl. apply in_or_app. right. now left.
Qed.

Lemma clusterFold adj ixs : forall acc,
  Clustered ns acc ->
  (forall i, In i ixs -> i < List.length ns) ->
  let acc' := fold_left (clusterStep adj) ixs acc in
  Clustered ns acc' /\
  incl (labellings (fst acc)) (labellings (fst acc')) /\
  (forall i, In i ixs -> In i (map position (labellings (fst acc')))).
Proof.
  induction ixs as [|i ixs IH]; intros acc Hacc Hrange; simpl.
  - split; [assumption|]. split; [apply incl_refl|intros i []].
  - destruct (clusterStep_clustered adj acc i Hacc) as (A & B & C).
    destruct (IH (clusterStep adj acc i) A) as (A' & B' & C').
    { intros j Hj. apply Hrange. now right. }
    split; [assumption|]. split.
    + eapply incl_tran; eassumption.
    + intros j [<-|Hj]; [|auto].
      apply (incl_map position) in B'. apply B', C, Hrange. now left.
Qed.
End Clustering.

(** ** Analytics: the search for distances *)

Lemma ascending_snoc l d :
  ascending l -> (forall b, In b l -> b <= d) -> ascending (l ++ [d]).
Proof.
  induction l as [|a l IH]; simpl; intros Ha Hb.
  - split; [intros b []|exact I].
  - destruct Ha as [Ha1 Ha2]. split.
    + intros b Hin. apply in_app_or in Hin. destruct Hin as [Hin|[<-|[]]]; auto.
    + apply IH; auto.
Qed.

Section Search.
Variable adj : list (Ident * list Ident).
Variable reference : Ident.

Lemma settled_mono D y v x d :
  mhas y D = false -> settled adj D x d -> settled adj (mset y v D) x d.
Proof.
  intros Hy Hs z Hz. destruct (Hs z Hz) as (d' & Hd & Hle).
  exists d'. split; [|assumption]. rewrite mget_mset.
  destruct (keqb z y) eqn:E; [|assumption].
  apply keqb_eq in E. subst z. unfold mhas in Hy. now rewrite Hd in Hy.
Qed.

Lemma relax_relaxing cur d st y :
  In y (neighbours adj cur) ->
  Relaxing adj reference cur d st ->
  Relaxing adj reference cur d (relax (d + 1) st y) /\
  (exists d', mget y (distances (relax (d + 1) st y)) = Some d') /\
  (forall x dx, mget x (distances st) = Some dx ->
                mget x (distances (relax (d + 1) st y)) = Some dx).
Proof.
  intros Hy [Href Hcur Hwalk Hfr Hasc Hbd Hset]. unfold relax.
  destruct (mhas y (distances st)) eqn:Eh; simpl.
  - split; [constructor; assumption|]. split; [|auto].
    unfold mhas in Eh. destruct (mget y (distances st)); [eauto|discriminate].
  - assert (Hold : forall x dx, mget x (distances st) = Some dx ->
                     mget x (mset y (d + 1) (distances st)) = Some dx).
    { intros x dx Hx. rewrite mget_mset. destruct (keqb x y) eqn:E; [|assumption].
      apply keqb_eq in E. subst x. unfold mhas in Eh. now rewrite Hx in Eh. }
    split; [|split; [|exact Hold]].
    2:{ exists (d + 1). rewrite mget_mset. now rewrite keqb_refl. }
    constructor; simpl.
    + auto.
    + auto.
    + intros x dx. rewrite mget_mset. destruct (keqb x y) eqn:E.
      * intro H. inversion H; subst dx. apply keqb_eq in E. subst x.
        replace (d + 1) with (S d) by lia.
        apply (walk_step adj reference d cur); auto.
      * auto.
    + intros x dx Hin. apply in_app_or in Hin. destruct Hin as [Hin|[Heq|[]]].
      * auto.
      * inversion Heq; subst. rewrite mget_mset. now rewrite keqb_refl.
    + destruct Hasc as [Ha1 Ha2]. split.
      * intros b Hb. rewrite map_app in Hb. apply in_app_or in Hb.
        destruct Hb as [Hb|[<-|[]]]; [auto|simpl; lia].
      * rewrite map_app. apply ascending_snoc; [assumption|].
        intros b Hb. apply in_map_iff in Hb. destruct Hb as ([x dx] & <- & Hin).
        simpl. apply Hfr in Hin. apply Hbd in Hin. lia.
    + intros x dx. rewrite mget_mset. destruct (keqb x y) eqn:E.
      * intro H. inversion H; subst. lia.
      * apply Hbd.
    + intros x dx. rewrite mget_mset. destruct (keqb x y) eqn:E.
      * intro H. inversion H; subst dx. apply keqb_eq in E. subst x.
        right. left. apply in_or_app. right. now left.
      * intro Hx. destruct (Hset x dx Hx) as [A|[A|A]]; auto.
        -- right. left. apply in_or_app. now left.
        -- right. right. now apply settled_mono.
Qed.

Lemma relax_fold cur d : forall ys st,
  incl ys (neighbours adj cur) ->
  Relaxing adj reference cur d st ->
  let st' := fold_left (relax (d + 1)) ys st in
  Relaxing adj reference cur d st' /\
  (forall y, In y ys -> exists d', mget y (distances st') = Some d') /\
  (forall x dx, mget x (distances st) = Some dx ->
                mget x (distances st') = Some dx).
Proof.
  induction ys as [|y ys IH]; intros st Hincl Hst; simpl.
  - split; [assumption|]. split; [intros y []|auto].
  - destruct (relax_relaxing cur d st y) as (A & (dy & B) & C);
      [apply Hincl; now left|assumption|].
    destruct (IH (relax (d + 1) st y)) as (A' & B' & C');
      [intros z Hz; apply Hincl; now right|assumption|].
    split; [assumption|]. split; [|auto].
    intros z [<-|Hz]; [|auto]. exists dy. auto.
Qed.

Lemma searchLoop_searching : forall fuel st,
  Searching adj reference st -> Searching adj reference (searchLoop adj fuel st).
Proof.
  induction fuel as [|fuel IH]; intros st Hst; simpl; [assumption|].
  destruct (frontier st) as [|[cur d] rest] eqn:Ef; [assumption|].
  apply IH.
  destruct Hst as [Href Hwalk Hfr Hasc Hbd Hset].
  rewrite Ef in *. simpl in Hasc. destruct Hasc as [Hmin Hasc].
  assert (Hcur : mget cur (distances st) = Some d) by (apply Hfr; now left).
  assert (Hrx : Relaxing adj reference cur d (mkSearch (distances st) rest)).
  { constructor; simpl; auto.
    - intros x dx Hin. apply Hfr. now right.
    - intros x dx Hx. eapply Hbd; eauto.
    - intros x dx Hx. destruct (Hset x dx Hx) as [[Heq|Hin]|A]; auto.
      inversion Heq. auto. }
  destruct (relax_fold cur d (neighbours adj cur) _ (incl_refl _) Hrx)
    as ([Href' Hcur' Hwalk' Hfr' Hasc' Hbd' Hset'] & Hall & Hmono).
  fold (neighbours adj cur).
  set (st' := fold_left (relax (d + 1)) (neighbours adj cur)
                (mkSearch (distances st) rest)) in *.
  constructor; auto.
  - apply Hasc'.
  - intros x0 d0 rest0 Ef0 x dx Hx.
    destruct Hasc' as [Hmin' _].
    assert (d <= d0).
    { apply Hmin'. rewrite Ef0. simpl. now left. }
    apply Hbd' in Hx. lia.
  - intros x dx Hx. destruct (Hset' x dx Hx) as [->|[A|A]]; auto.
    right. intros y Hy. destruct (Hall y Hy) as (d' & Hd').
    exists d'. split; [assumption|].
    assert (dx = d) by congruence. subst dx. now apply Hbd' in Hd'.
Qed.

Lemma search_start : Searching adj reference (mkSearch [(reference, 0)] [(reference, 0)]).
Proof.
  assert (Hget : forall x dx, mget x [(reference, 0)] = Some dx ->
                              x = reference /\ dx = 0).
  { intros x dx. simpl. destruct (ident_eqb x reference) eqn:E; [|discriminate].
    intro H. inversion H. apply ident_eqb_eq in E. auto. }
  constructor; simpl.
  - now rewrite (proj2 (ident_eqb_eq reference reference) eq_refl).
  - intros x dx Hx. apply Hget in Hx. destruct Hx as [-> ->]. constructor.
  - intros x dx [Heq|[]]. inversion Heq; subst x dx.
    now rewrite (proj2 (ident_eqb_eq reference reference) eq_refl).
  - split; [intros b []|exact I].
  - intros x0 d0 rest Heq x dx Hx. apply Hget in Hx. lia.
  - intros x dx Hx. apply Hget in Hx. destruct Hx as [-> ->]. left. now left.
Qed.

(** Once the queue is empty the map holds, for every identity a walk
    reaches, the length of a shortest walk, and nothing else. *)
Lemma searching_done st :
  Searching adj reference st -> frontier st = [] ->
  forall x,
    (forall d, mget x (distances st) = Some d <->
               walk adj reference d x /\ forall k, walk adj reference k x -> d <= k) /\
    (mget x (distances st) = None <-> forall k, ~ walk adj reference k x).
Proof.
  intros [Href Hwalk Hfr Hasc Hbd Hset] Ef.
  assert (Hlow : forall k x, walk adj reference k x ->
                   exists d, mget x (distances st) = Some d /\ d <= k).
  { intros k x W. induction W as [|k x y W (dx & Hx & Hle) Hy].
    - exists 0. auto.
    - destruct (Hset x dx Hx) as [Hin|Hs]; [rewrite Ef in Hin; destruct Hin|].
      destruct (Hs y Hy) as (dy & Hdy & Hle'). exists dy. split; [assumption|lia]. }
  intro x. split.
  - intro d. split.
    + intro Hx. split; [auto|]. intros k W.
      destruct (Hlow k x W) as (d' & Hd' & Hle). congruence.
    + intros [W Hmin]. destruct (Hlow d x W) as (d' & Hd' & Hle).
      apply Hwalk in Hd' as W'. apply Hmin in W'.
      replace d with d' by lia. assumption.
  - split.
    + intros Hn k W. destruct (Hlow k x W) as (d' & Hd' & _). congruence.
    + intro Hno. destruct (mget x (distances st)) as [d|] eqn:E; [|reflexivity].
      exfalso. apply (Hno d). auto.
Qed.
End Search.

(** *** The fuel of the search suffices *)

Lemma mhas_mset {V : Type} (D : list (Ident * V)) y v u :
  mhas u (mset y v D) = keqb u y || mhas u D.
Proof.
  unfold mhas. rewrite mget_mset. destruct (keqb u y); reflexivity.
Qed.

Lemma unreached_mset_le U D y v : unreached U (mset y v D) <= unreached U D.
Proof.
  unfold unreached. induction U as [|w W IH]; simpl; [lia|].
  rewrite mhas_mset. destruct (keqb w y), (mhas w D); simpl; lia.
Qed.

Lemma unreached_mset_lt U D y v :
  In y U -> mhas y D = false -> unreached U (mset y v D) < unreached U D.
Proof.
  intros Hin Hy. induction U as [|w W IH]; [destruct Hin|].
  pose proof (unreached_mset_le W D y v) as Hle.
  unfold unreached in *. simpl. rewrite mhas_mset.
  destruct (keqb w y) eqn:E.
  - apply keqb_eq in E. subst w. rewrite Hy. simpl. lia.
  - destruct Hin as [->|Hin]; [rewrite keqb_refl in E; discriminate|].
    specialize (IH Hin). simpl. destruct (mhas w D); simpl; lia.
Qed.

Section SearchFuel.
Variable adj : list (Ident * list Ident).
(** Identities that can appear in an adjacency set. *)
Variable U : list Ident.
Hypothesis adj_in_U : forall x y, In y (neighbours adj x) -> In y U.

Lemma relax_measure d st y :
  In y U -> searchMeasure U (relax d st y) <= searchMeasure U st.
Proof.
  intro Hy. unfold relax, searchMeasure.
  destruct (mhas y (distances st)) eqn:E; simpl; [lia|].
  rewrite length_app. simpl.
  pose proof (unreached_mset_lt U (distances st) y d Hy E). lia.
Qed.

Lemma relax_fold_measure d : forall ys st,
  (forall y, In y ys -> In y U) ->
  searchMeasure U (fold_left (relax d) ys st) <= searchMeasure U st.
Proof.
  induction ys as [|y ys IH]; intros st Hys; simpl; [lia|].
  etransitivity; [apply IH; intros; apply Hys; now right|].
  apply relax_measure. apply Hys. now left.
Qed.

Lemma searchLoop_exhausts : forall fuel st,
  searchMeasure U st <= fuel -> frontier (searchLoop adj fuel st) = [].
Proof.
  induction fuel as [|fuel IH]; intros st Hm; simpl.
  - unfold searchMeasure in Hm. destruct (frontier st); [reflexivity|].
    simpl in Hm. lia.
  - destruct (frontier st) as [|[cur d] rest] eqn:Ef; [assumption|].
    apply IH.
    pose proof (relax_fold_measure (d + 1) (default [] (mget cur adj))
                  (mkSearch (distances st) rest)) as Hle.
    etransitivity; [apply Hle|].
    + intros y Hy. apply (adj_in_U cur). exact Hy.
    + unfold searchMeasure in *. rewrite Ef in Hm. simpl in *. lia.
Qed.
End SearchFuel.

(** *** The adjacency map *)

Lemma neighbours_addNeighbor a b adj x y :
  In y (neighbours (addNeighbor a b adj) x) <->
  In y (neighbours adj x) \/ (x = a /\ y = b /\ mhas a adj = true).
Proof.
  unfold neighbours, addNeighbor. rewrite mget_mupdate. unfold mhas.
  destruct (keqb x a) eqn:E.
  - apply keqb_eq in E. subst x.
    destruct (mget a adj) as [s|]; simpl.
    + rewrite In_sadd. split; intros [A|B]; auto. tauto.
    + split; [tauto|]. intros [[]|(_ & _ & H)]. discriminate.
  - apply keqb_false in E. split; [auto|].
    intros [A|(B & _)]; [assumption|contradiction].
Qed.

Lemma mhas_addNeighbor a b adj x :
  mhas x (addNeighbor a b adj) = mhas x adj.
Proof.
  unfold addNeighbor.
  destruct (mhas x adj) eqn:E.
  - apply mhas_In. rewrite mkeys_mupdate. now apply mhas_In.
  - apply mhas_false. rewrite mkeys_mupdate. now apply mhas_false.
Qed.

Lemma adjacency_links ls : forall adj x y,
  In y (neighbours
          (fold_left (fun m link =>
                        addNeighbor (target link) (source link)
                          (addNeighbor (source link) (target link) m)) ls adj) x) <->
  In y (neighbours adj x) \/
  (mhas x adj = true /\ exists l, In l ls /\ joins l x y).
Proof.
  induction ls as [|l ls IH]; intros adj x y; simpl.
  - split; [auto|]. intros [A|(_ & l & [] & _)]. assumption.
  - rewrite IH. rewrite !mhas_addNeighbor. rewrite !neighbours_addNeighbor.
    rewrite mhas_addNeighbor. unfold joins. split.
    + intros [[[A|(B1 & B2 & B3)]|(C1 & C2 & C3)]|(D & l' & Hl & J)].
      * auto.
      * subst. right. split; [assumption|]. exists l. auto.
      * subst. right. split; [assumption|]. exists l. auto.
      * right. split; [assumption|]. exists l'. auto.
    + intros [A|(D & l' & [<-|Hl] & J)].
      * auto.
      * destruct J as [[J1 J2]|[J1 J2]]; subst.
        -- left. left. right. auto.
        -- left. right. auto.
      * right. split; [assumption|]. exists l'. auto.
Qed.

Lemma adjacency_nodes ns : forall (m : list (Ident * list Ident)),
  (forall x s, mget x m = Some s -> s = []) ->
  let m' := fold_left (fun m n => mset (id n) [] m) ns m in
  (forall x s, mget x m' = Some s -> s = []) /\
  (forall x, mhas x m' = true <-> mhas x m = true \/ In x (map id ns)).
Proof.
  induction ns as [|n ns IH]; intros m Hm; simpl.
  - split; [assumption|]. intro x. tauto.
  - destruct (IH (mset (id n) [] m)) as [A B].
    + intros x s. rewrite mget_mset. destruct (keqb x (id n)); [|apply Hm].
      intro H. now inversion H.
    + split; [assumption|]. intro x. rewrite B, mhas_mset.
      rewrite orb_true_iff. split.
      * intros [[E|E]|E]; auto. apply keqb_eq in E. auto.
      * intros [E|[E|E]]; auto. left. left. subst. apply keqb_refl.
Qed.

(** [y] is in the adjacency set of [x] exactly when [x] is a node and a
    link joins them, in either direction. *)
Lemma buildAdjacency_spec ns ls x y :
  In y (neighbours (buildAdjacency ns ls) x) <->
  In x (map id ns) /\ exists l, In l ls /\ joins l x y.
Proof.
  unfold buildAdjacency. rewrite adjacency_links.
  destruct (adjacency_nodes ns []) as [A B]; [intros ? ? H; discriminate|].
  simpl in A, B. split.
  - intros [H|(H & J)].
    + unfold neighbours in H.
      destruct (mget x _) as [s|] eqn:E; simpl in H; [|destruct H].
      apply A in E. subst. destruct H.
    + apply B in H. destruct H as [H|H]; [discriminate|]. auto.
  - intros (H & J). right. split; [|assumption]. apply B. auto.
Qed.

Lemma search_exhausts ns ls reference :
  frontier (searchDistances ns ls reference) = [].
Proof.
  unfold searchDistances.
  apply (searchLoop_exhausts _ (map source ls ++ map target ls)).
  - intros x y Hy. apply buildAdjacency_spec in Hy.
    destruct Hy as (_ & l & Hl & [[_ <-]|[_ <-]]); apply in_or_app.
    + right. now apply in_map.
    + left. now apply in_map.
  - unfold searchMeasure, unreached. simpl.
    etransitivity; [apply -> Nat.succ_le_mono; apply filter_length_le|].
    rewrite length_app, !length_map. lia.
Qed.

(** *** Distances are undirected hop counts *)

Lemma joins_endpoint ids ls l x y :
  noDangling ids ls -> In l ls -> joins l x y -> In x ids.
Proof.
  intros Hnd Hl J. destruct (Hnd l Hl) as [A B].
  destruct J as [[<- _]|[<- _]]; assumption.
Qed.

Lemma walk_hops ns ls r k x :
  noDangling (map id ns) ls ->
  walk (buildAdjacency ns ls) r k x <-> hops ls r k x.
Proof.
  intro Hnd. split; intro W.
  - induction W as [|k x y W IH Hy]; [constructor|].
    apply buildAdjacency_spec in Hy. destruct Hy as (_ & J).
    econstructor; eauto.
  - induction W as [|k x y W IH (l & Hl & J)]; [constructor|].
    apply (walk_step _ _ k x); [assumption|].
    apply buildAdjacency_spec. split.
    + eapply joins_endpoint; eauto.
    + exists l. auto.
Qed.

(** What [calculateDegreesOfSeparation] writes, on a graph without
    dangling edges. *)
Lemma calculateDegreesOfSeparation_spec ns ls r :
  noDangling (map id ns) ls ->
  forall n, In n (calculateDegreesOfSeparation ns ls r) ->
    (forall k, degreesFromRoot n = Some k <-> hopDistance ls r (id n) k) /\
    (degreesFromRoot n = None <-> forall k, ~ hops ls r k (id n)).
Proof.
  intros Hnd n Hin. unfold calculateDegreesOfSeparation in Hin.
  apply in_map_iff in Hin. destruct Hin as (n0 & <- & _). simpl.
  pose proof (searchLoop_searching (buildAdjacency ns ls) r
                (1 + 2 * List.length ls) _ (search_start _ r)) as Hs.
  pose proof (search_exhausts ns ls r) as He.
  destruct (searching_done _ r _ Hs He (id n0)) as [A B].
  fold (searchDistances ns ls r) in A, B. split.
  - intro k. rewrite A. unfold hopDistance. rewrite walk_hops by assumption.
    split; intros [W M]; (split; [assumption|]); intros j Hj; apply M;
      now apply (walk_hops ns ls r j (id n0) Hnd).
  - rewrite B. split; intros H k W; apply (H k);
      now apply (walk_hops ns ls r k (id n0) Hnd).
Qed.

(** ** Analytics: what each pass leaves alone *)

Section Untouched.
Context {B : Type} (g : GraphNode -> B).

Lemma visitNeighbor_untouched cid st x :
  (forall c n, g (setCluster c n) = g n) ->
  map g (c_nodes (visitNeighbor cid st x)) = map g (c_nodes st).
Proof.
  intro Hg. unfold visitNeighbor.
  destruct (findIndex x (c_nodes st)); [|reflexivity].
  destruct (negb _); [|reflexivity]. simpl. now apply map_updateAt.
Qed.

Lemma forBatch_untouched adj cid :
  (forall c n, g (setCluster c n) = g n) ->
  forall k st, map g (c_nodes (forBatch adj cid k st)) = map g (c_nodes st).
Proof.
  intro Hg. induction k as [|k IH]; intro st; simpl; [reflexivity|].
  destruct (queue st) as [|cur rest]; [reflexivity|]. rewrite IH.
  apply (fold_left_invariant
           (fun s => map g (c_nodes s) = map g (c_nodes st))).
  - reflexivity.
  - intros s x _ E. now rewrite visitNeighbor_untouched.
Qed.

Lemma bfsRounds_untouched adj cid :
  (forall c n, g (setCluster c n) = g n) ->
  forall r st, map g (c_nodes (bfsRounds adj cid r st)) = map g (c_nodes st).
Proof.
  intro Hg. induction r as [|r IH]; intro st; simpl; [reflexivity|].
  destruct (queue st); [reflexivity|].
  rewrite IH. now apply forBatch_untouched.
Qed.

Lemma assignClusters_untouched ns ls :
  (forall c n, g (setCluster c n) = g n) ->
  map g (assignClusters ns ls) = map g ns.
Proof.
  intro Hg. unfold assignClusters, assignClustersRun.
  apply (fold_left_invariant
           (fun acc => map g (c_nodes (fst acc)) = map g ns)).
  - reflexivity.
  - intros [st cid] i _ E. unfold clusterStep. simpl in E.
    destruct (nth_error (c_nodes st) i); [|assumption].
    destruct (negb _); [|assumption]. cbn [fst].
    rewrite bfsRounds_untouched by assumption. cbn [c_nodes].
    now rewrite map_updateAt.
Qed.

Lemma calculateDegreesOfSeparation_untouched ns ls r :
  (forall d n, g (setDistance d n) = g n) ->
  map g (calculateDegreesOfSeparation ns ls r) = map g ns.
Proof.
  intro Hg. unfold calculateDegreesOfSeparation. rewrite map_map.
  apply map_ext. intro n. apply Hg.
Qed.
End Untouched.

Lemma map_eq_In {A B : Type} (g : A -> B) (l l' : list A) (x : A) :
  map g l = map g l' -> In x l -> exists y, In y l' /\ g y = g x.
Proof.
  intros E Hin. apply (in_map g) in Hin. rewrite E in Hin.
  apply in_map_iff in Hin. destruct Hin as (y & Hy & Hin). eauto.
Qed.

Lemma mvalues_ids (m : list (Ident * GraphNode)) :
  (forall k n, In (k, n) m -> id n = k) -> map id (mvalues m) = mkeys m.
Proof.
  intro H. unfold mvalues, mkeys. rewrite map_map. apply map_ext_in.
  intros [k n] Hin. simpl. now apply H.
Qed.

(** ** The snapshot *)

Lemma analyse_links r nm lm :
  links (analyse r nm lm) = mvalues (snd (degreePass nm lm)).
Proof.
  unfold analyse. destruct (degreePass nm lm). reflexivity.
Qed.

Lemma analyse_nodes r nm lm :
  nodes (analyse r nm lm) =
  let clustered := assignClusters (classified nm lm)
                     (mvalues (snd (degreePass nm lm))) in
  if truthy r
  then calculateDegreesOfSeparation clustered
         (mvalues (snd (degreePass nm lm))) r
  else clustered.
Proof.
  unfold analyse, classified. destruct (degreePass nm lm). reflexivity.
Qed.

Lemma analyse_untouched {B : Type} (g : GraphNode -> B) r nm lm :
  (forall c n, g (setCluster c n) = g n) ->
  (forall d n, g (setDistance d n) = g n) ->
  map g (nodes (analyse r nm lm)) = map g (classified nm lm).
Proof.
  intros Hc Hd. rewrite analyse_nodes. simpl. destruct (truthy r).
  - rewrite calculateDegreesOfSeparation_untouched by assumption.
    now apply assignClusters_untouched.
  - now apply assignClusters_untouched.
Qed.

Lemma classified_ids nm lm :
  (forall k n, In (k, n) nm -> id n = k) ->
  map id (classified nm lm) = mkeys nm.
Proof.
  intro H. unfold classified. rewrite hubPass_ids.
  destruct (degreePass_nodes (fun k n => id n = k) nm lm) as [A B]; auto.
  rewrite mvalues_ids by exact B. exact A.
Qed.

Lemma analyse_ids r nm lm :
  (forall k n, In (k, n) nm -> id n = k) ->
  map id (nodes (analyse r nm lm)) = mkeys nm.
Proof.
  intro H. rewrite (analyse_untouched id) by reflexivity.
  now apply classified_ids.
Qed.

Lemma snapshot_link_origin r nm lm l :
  In l (links (analyse r nm lm)) ->
  exists i k l0,
    nth_error (snd (degreePass nm lm)) i = Some (k, l) /\
    nth_error lm i = Some (k, l0) /\
    source l0 = source l /\ target l0 = target l.
Proof.
  rewrite analyse_links. intro Hin. unfold mvalues in Hin.
  apply in_map_iff in Hin. destruct Hin as ([k l'] & Heq & Hin).
  simpl in Heq. subst l'.
  apply In_nth_error in Hin. destruct Hin as (i & Hi).
  destruct (degreePass_links nm lm) as (He & _ & _).
  destruct (ends_nth _ lm i k l He Hi) as (l0 & H0 & Hs & Ht).
  exists i, k, l0. auto.
Qed.

Lemma snapshot_link_present r nm lm i k l0 :
  nth_error lm i = Some (k, l0) ->
  exists l, nth_error (snd (degreePass nm lm)) i = Some (k, l) /\
            In l (links (analyse r nm lm)) /\
            source l = source l0 /\ target l = target l0.
Proof.
  intro H0. destruct (degreePass_links nm lm) as (He & _ & _).
  destruct (ends_nth lm _ i k l0 (eq_sym He) H0) as (l & Hi & Hs & Ht).
  exists l. repeat split; try assumption.
  rewrite analyse_links. apply nth_error_In in Hi.
  apply (in_map snd) in Hi. exact Hi.
Qed.

Lemma snapshot_endpoints r nm lm :
  map endpoints (links (analyse r nm lm)) = map endpoints (mvalues lm).
Proof.
  rewrite analyse_links. destruct (degreePass_links nm lm) as (He & _ & _).
  unfold mvalues. rewrite !map_map.
  transitivity (map snd (map ends (snd (degreePass nm lm))));
    [now rewrite map_map|].
  rewrite He. now rewrite map_map.
Qed.

Lemma sound_endpoints_nodup st :
  Sound st -> NoDup (map endpoints (mvalues (linksMap st))).
Proof.
  intro Hs.
  apply (NoDup_map_inv (fun p => linkId (fst p) (snd p))).
  unfold mvalues. rewrite !map_map.
  replace (map (fun x => linkId (fst (endpoints (snd x))) (snd (endpoints (snd x))))
               (linksMap st))
    with (mkeys (linksMap st)); [apply (links_nodup _ Hs)|].
  unfold mkeys. apply map_ext_in. intros [k l] Hin. simpl.
  now destruct (links_ok _ Hs k l Hin).
Qed.

Lemma analyse_no_dangling r st :
  Sound st -> Sourced st ->
  noDangling (mkeys (nodesMap st))
             (links (analyse r (nodesMap st) (linksMap st))).
Proof.
  intros Hs Hsrc l Hl.
  apply snapshot_link_origin in Hl.
  destruct Hl as (i & k & l0 & _ & H0 & Es & Et).
  apply nth_error_In in H0. rewrite <- Es, <- Et. split.
  - eapply Hsrc; eauto.
  - now destruct (links_ok _ Hs k l0 H0) as (_ & A & _).
Qed.

(** ** C8: no dangling edges, no duplicate edges *)

(** C8.  When the relay answers a query for a set of authors only with
    records of those authors, every link of a snapshot starts and ends at a
    node of the snapshot, and no ordered pair (source, target) occurs
    twice among the links. *)
Theorem snapshot_edges_anchored query opts fuel g :
  answersAuthors query ->
  useWebOfTrust query opts fuel = Some g ->
  noDangling (map id (nodes g)) (links g) /\
  NoDup (map endpoints (links g)).
Proof.
  intros Hq Hrun. unfold useWebOfTrust in Hrun.
  destruct (collect query opts fuel) as [st|] eqn:Ec; [|discriminate].
  inversion Hrun; subst g. clear Hrun.
  pose proof (collect_sound _ _ _ _ Ec) as Hs.
  pose proof (collect_sourced _ _ _ _ Hq Ec) as Hsrc.
  split.
  - rewrite analyse_ids by (intros k n H; apply (nodes_ok _ Hs k n H)).
    now apply analyse_no_dangling.
  - rewrite snapshot_endpoints. now apply sound_endpoints_nodup.
Qed.

(** ** Relays used in the examples *)

Lemma relay_answersAuthors db : answersAuthors (relay db).
Proof.
  intros n f ps e Ha Hin. unfold relay in Hin. rewrite Ha in Hin.
  assert (Hm : In e (filter (fun e => shas (Some (pubkey e)) ps) db)).
  { destruct (limit f) as [k|]; [|exact Hin].
    rewrite <- (firstn_skipn k (filter _ db)). apply in_or_app. now left. }
  apply filter_In in Hm. destruct Hm as [_ Hm]. now apply shas_In in Hm.
Defined.

(** The run of Scenario A: the one record of "A", following "B" and "C". *)
Lemma snapshot_edges_anchored_witness :
  exists g,
    useWebOfTrust (relay [contacts "A" ["B"%string; "C"%string]])
      (mkOptions (Some "A"%string) (Some 1) (Some 100) None) 2 = Some g /\
    noDangling (map id (nodes g)) (links g) /\
    NoDup (map endpoints (links g)).
Proof.
  eexists. split; [vm_compute; reflexivity|].
  exact (snapshot_edges_anchored
           (relay [contacts "A" ["B"%string; "C"%string]])
           (mkOptions (Some "A"%string) (Some 1) (Some 100) None) 2 _
           (relay_answersAuthors _) ltac:(vm_compute; reflexivity)).
Defined.

(** ** C10: self-loops *)

Lemma sameEnds_iff l l' : sameEnds l l' = true <-> endpoints l = endpoints l'.
Proof.
  unfold sameEnds, endpoints. rewrite andb_true_iff, !ident_eqb_eq. split.
  - intros [-> ->]. reflexivity.
  - intro H. inversion H. auto.
Qed.

Lemma counted_never (Q : GraphLink -> bool) ls l :
  ~ In (endpoints l) (map endpoints ls) ->
  filter (sameEnds l) (filter Q ls) = [].
Proof.
  induction ls as [|b ls IH]; intro Hn; [reflexivity|]. simpl in *.
  assert (Hb : sameEnds l b = false).
  { destruct (sameEnds l b) eqn:Eb; [|reflexivity].
    apply sameEnds_iff in Eb. exfalso. apply Hn. left. congruence. }
  destruct (Q b); simpl; rewrite ?Hb; apply IH; intro H; apply Hn; now right.
Qed.

Lemma counted_once (P : GraphLink -> bool) ls l :
  NoDup (map endpoints ls) -> In l ls -> P l = true ->
  List.length (filter (sameEnds l) (filter P ls)) = 1.
Proof.
  induction ls as [|a ls IH]; intros ND Hin HP; [destruct Hin|].
  simpl in ND. inversion ND as [|? ? Hna ND']; subst.
  destruct Hin as [->|Hin].
  - simpl. rewrite HP. simpl.
    rewrite (proj2 (sameEnds_iff l l) eq_refl). simpl.
    now rewrite counted_never.
  - assert (Ha : sameEnds l a = false).
    { destruct (sameEnds l a) eqn:Ea; [|reflexivity].
      apply sameEnds_iff in Ea. exfalso. apply Hna. rewrite <- Ea.
      now apply in_map. }
    simpl. destruct (P a); simpl; rewrite ?Ha; now apply IH.
Qed.

Lemma analyse_bidirectionalLinks r nm lm :
  bidirectionalLinks (stats (analyse r nm lm)) =
  List.length (filter isBidirectional (links (analyse r nm lm))).
Proof.
  unfold analyse. destruct (degreePass nm lm). reflexivity.
Qed.

(** C10.  In every snapshot a link from an identity to itself is marked
    bidirectional, and it is counted once in [stats.bidirectionalLinks]:
    the count is the number of marked links, and exactly one marked link has
    the endpoints of the self-loop. *)
Theorem self_loop_bidirectional query opts fuel g l :
  useWebOfTrust query opts fuel = Some g ->
  In l (links g) ->
  source l = target l ->
  isBidirectional l = true /\
  List.length (filter (sameEnds l) (filter isBidirectional (links g))) = 1 /\
  bidirectionalLinks (stats g) = List.length (filter isBidirectional (links g)).
Proof.
  intros Hrun Hl Hself. unfold useWebOfTrust in Hrun.
  destruct (collect query opts fuel) as [st|] eqn:Ec; [|discriminate].
  inversion Hrun; subst g. clear Hrun.
  pose proof (collect_sound _ _ _ _ Ec) as Hs.
  assert (Hb : isBidirectional l = true).
  { destruct (snapshot_link_origin _ _ _ _ Hl) as (i & k & l0 & Hi & H0 & Es & Et).
    destruct (degreePass_links (nodesMap st) (linksMap st)) as (_ & Hmark & _).
    destruct (Hmark i k l0 H0) as (l' & Hi' & Hb').
    - apply mhas_In. apply nth_error_In in H0.
      destruct (links_ok _ Hs k l0 H0) as (Hk & _ & _).
      replace (linkId (target l0) (source l0)) with k
        by (rewrite Hk; congruence).
      apply (in_map fst) in H0. exact H0.
    - congruence. }
  split; [assumption|]. split.
  - apply counted_once; try assumption.
    rewrite snapshot_endpoints. now apply sound_endpoints_nodup.
  - apply analyse_bidirectionalLinks.
Qed.

(** The run of Scenario C: the one record of "A", following itself, depth 1. *)
Lemma self_loop_bidirectional_witness :
  exists g l,
    useWebOfTrust (relay [contacts "A" ["A"%string]])
      (mkOptions (Some "A"%string) (Some 1) None None) 2 = Some g /\
    links g = [l] /\ source l = target l /\
    isBidirectional l = true /\
    bidirectionalLinks (stats g) = 1.
Proof.
  eexists. eexists. split; [vm_compute; reflexivity|].
  split; [reflexivity|]. split; [reflexivity|].
  assert (H := self_loop_bidirectional (relay [contacts "A" ["A"%string]])
                 (mkOptions (Some "A"%string) (Some 1) None None) 2 _
                 (mkLink (Some "A"%string) (Some "A"%string) true)
                 ltac:(vm_compute; reflexivity) ltac:(now left) eq_refl).
  destruct H as (A & _ & B). split; [exact A|exact B].
Defined.

(** ** C6: bidirectional marks *)

Lemma arrow_inj (s s' t t' : string) :
  plainString s = true -> plainString s' = true ->
  (s ++ "->" ++ t)%string = (s' ++ "->" ++ t')%string ->
  s = s' /\ t = t'.
Proof.
  revert s'. induction s as [|c r IH]; intros [|c' r'] Hs Hs' E; simpl in *.
  - inversion E. auto.
  - inversion E as [[Hc Hr]]. subst c'.
    destruct r' as [|c2 r2]; simpl in *; [discriminate|].
    inversion Hr; subst c2. simpl in Hs'. discriminate.
  - inversion E as [[Hc Hr]]. subst c.
    destruct r as [|c2 r2]; simpl in *; [discriminate|].
    inversion Hr; subst c2. simpl in Hs. discriminate.
  - inversion E as [[Hc Hr]]. subst c'.
    apply andb_true_iff in Hs, Hs'.
    destruct (IH r' (proj2 Hs) (proj2 Hs') Hr) as [-> ->]. auto.
Qed.

Lemma plainString_arrow (x y : string) :
  plainString (x ++ "->" ++ y) = false.
Proof.
  induction x as [|c x IH]; simpl in *; [reflexivity|].
  rewrite IH. apply andb_false_r.
Qed.

(** A key made of two strings without [>] is the key of no other pair of
    strings. *)
Lemma arrow_split (s t a b : string) :
  plainString s = true -> plainString t = true ->
  (a ++ "->" ++ b)%string = (s ++ "->" ++ t)%string ->
  a = s /\ b = t.
Proof.
  intros Hs Ht. revert a. induction s as [|c r IH]; intros [|c' r'] E; simpl in *.
  - inversion E. auto.
  - inversion E as [[Hc Hr]]. subst c'.
    destruct r' as [|c2 r2]; simpl in Hr; [discriminate|].
    inversion Hr as [[Hc2 Hr2]].
    pose proof (plainString_arrow r2 b) as X. simpl in X. congruence.
  - inversion E as [[Hc Hr]]. subst c.
    destruct r as [|c2 r2]; simpl in Hr; [discriminate|].
    inversion Hr; subst c2. simpl in Hs. discriminate.
  - inversion E as [[Hc Hr]]. subst c'.
    apply andb_true_iff in Hs.
    destruct (IH (proj2 Hs) r' Hr) as [-> ->]. auto.
Qed.

Lemma keyed_spec i :
  keyed i = true ->
  exists s, i = Some s /\ plainString s = true /\ s <> "undefined"%string.
Proof.
  destruct i as [s|]; simpl; [|discriminate].
  intro H. apply andb_true_iff in H. destruct H as [A B].
  exists s. split; [reflexivity|]. split; [assumption|].
  apply negb_true_iff in B. now apply String.eqb_neq.
Qed.

Lemma toStr_keyed i s :
  toStr i = s -> s <> "undefined"%string -> i = Some s.
Proof.
  destruct i as [s'|]; simpl; [congruence|]. intros <- H. now destruct H.
Qed.

(** The key of two identities of that kind is the key of no other pair of
    identities, whatever these are. *)
Lemma linkId_keyed a b a' b' :
  keyed a = true -> keyed b = true ->
  linkId a' b' = linkId a b -> a' = a /\ b' = b.
Proof.
  intros Ha Hb E.
  apply keyed_spec in Ha. destruct Ha as (s & -> & Ps & Us).
  apply keyed_spec in Hb. destruct Hb as (t & -> & Pt & Ut).
  unfold linkId in E. simpl in E.
  destruct (arrow_split s t _ _ Ps Pt E) as [A B].
  split; now apply toStr_keyed.
Qed.

Lemma hasReverse_iff ls l : hasReverse ls l = true <-> reverseIn ls l.
Proof.
  unfold hasReverse, reverseIn. rewrite existsb_exists.
  split; intros (l' & Hin & H); exists l'; (split; [assumption|]).
  - apply andb_true_iff in H. now rewrite !ident_eqb_eq in H.
  - apply andb_true_iff. now rewrite !ident_eqb_eq.
Qed.

(** A link whose reverse is in the snapshot is marked, whatever the
    identities are. *)
Lemma reverse_marked query opts fuel g l :
  useWebOfTrust query opts fuel = Some g ->
  In l (links g) -> reverseIn (links g) l -> isBidirectional l = true.
Proof.
  intros Hrun Hl (l' & Hl' & Es' & Et'). unfold useWebOfTrust in Hrun.
  destruct (collect query opts fuel) as [st|] eqn:Ec; [|discriminate].
  inversion Hrun; subst g. clear Hrun.
  pose proof (collect_sound _ _ _ _ Ec) as Hs.
  destruct (snapshot_link_origin _ _ _ _ Hl) as (i & k & l0 & Hi & H0 & Es & Et).
  destruct (snapshot_link_origin _ _ _ _ Hl') as (i' & k' & l0' & _ & H0' & Es0 & Et0).
  destruct (degreePass_links (nodesMap st) (linksMap st)) as (_ & Hmark & _).
  destruct (Hmark i k l0 H0) as (l1 & Hi1 & Hb1); [|congruence].
  apply mhas_In. apply nth_error_In in H0'.
  destruct (links_ok _ Hs k' l0' H0') as (Hk' & _ & _).
  replace (linkId (target l0) (source l0)) with k'
    by (rewrite Hk'; congruence).
  apply (in_map fst) in H0'. exact H0'.
Qed.

(** A mark on a link whose two endpoints are strings without [>], other
    than "undefined", has the reverse of the link in the snapshot. *)
Lemma marked_reverse query opts fuel g l :
  useWebOfTrust query opts fuel = Some g ->
  In l (links g) ->
  keyed (source l) = true -> keyed (target l) = true ->
  isBidirectional l = true -> reverseIn (links g) l.
Proof.
  intros Hrun Hl Ks Kt Hb. unfold useWebOfTrust in Hrun.
  destruct (collect query opts fuel) as [st|] eqn:Ec; [|discriminate].
  inversion Hrun; subst g. clear Hrun.
  pose proof (collect_sound _ _ _ _ Ec) as Hs.
  destruct (snapshot_link_origin _ _ _ _ Hl) as (i & k & l0 & Hi & H0 & Es & Et).
  destruct (degreePass_links (nodesMap st) (linksMap st)) as (_ & _ & Hjust).
  assert (Hk : k = linkId (source l) (target l)).
  { apply nth_error_In in H0. destruct (links_ok _ Hs k l0 H0) as (A & _ & _).
    now rewrite <- Es, <- Et. }
  assert (Hrev : forall j kj lj,
             nth_error (linksMap st) j = Some (kj, lj) ->
             kj = linkId (target l) (source l) ->
             reverseIn (links (analyse (referenceUser opts) (nodesMap st)
                                       (linksMap st))) l).
  { intros j kj lj Hj Hkj.
    destruct (snapshot_link_present (referenceUser opts) (nodesMap st) _ _ _ _ Hj)
      as (l' & _ & Hl' & Es' & Et').
    apply nth_error_In in Hj. destruct (links_ok _ Hs kj lj Hj) as (A & _ & _).
    rewrite A, <- Es', <- Et' in Hkj.
    apply linkId_keyed in Hkj; try assumption.
    exists l'. tauto. }
  destruct (Hjust i k l Hi Hb) as [(l1 & H1 & Hb1)|[Hh|(j & kj & lj & Hj & Hkj)]].
  - rewrite H0 in H1. inversion H1; subst l1.
    apply nth_error_In in H0. destruct (links_ok _ Hs k l0 H0) as (_ & _ & A).
    congruence.
  - apply mhas_In in Hh. unfold mkeys in Hh. apply in_map_iff in Hh.
    destruct Hh as ([kj lj] & Hkj & Hin). simpl in Hkj.
    apply In_nth_error in Hin. destruct Hin as (j & Hj). eauto.
  - destruct (snapshot_link_present (referenceUser opts) (nodesMap st) _ _ _ _ Hj)
      as (l' & _ & Hl' & Es' & Et').
    rewrite Hk, <- Es', <- Et' in Hkj. symmetry in Hkj.
    apply linkId_keyed in Hkj; try assumption.
    exists l'. split; [assumption|]. destruct Hkj. auto.
Qed.

(** X28: the marks of the links, link by link.  A link whose reverse is in
    the snapshot is marked bidirectional, whatever the identities are, and
    so is that reverse.  A link whose own two endpoints are strings without
    [>], other than "undefined", is marked exactly when its reverse is a
    link of the snapshot, whatever the other links are.
    [stats.bidirectionalLinks] is the number of marked links: at least the
    number of links whose reverse is present, and that number when every
    marked link has endpoints of this kind, so that a mutual pair counts
    twice. *)
Theorem bidirectional_iff_reverse query opts fuel g :
  useWebOfTrust query opts fuel = Some g ->
  (forall l, In l (links g) -> reverseIn (links g) l ->
             isBidirectional l = true) /\
  (forall l l', In l (links g) -> In l' (links g) ->
                source l' = target l -> target l' = source l ->
                isBidirectional l = true /\ isBidirectional l' = true) /\
  (forall l, In l (links g) ->
             keyed (source l) = true -> keyed (target l) = true ->
             (isBidirectional l = true <-> reverseIn (links g) l)) /\
  List.length (filter (hasReverse (links g)) (links g))
    <= bidirectionalLinks (stats g) /\
  ((forall l, In l (links g) -> isBidirectional l = true ->
              keyed (source l) = true /\ keyed (target l) = true) ->
   bidirectionalLinks (stats g) =
     List.length (filter (hasReverse (links g)) (links g))).
Proof.
  intro Hrun.
  pose proof (fun l => reverse_marked query opts fuel g l Hrun) as Hmark.
  pose proof (fun l => marked_reverse query opts fuel g l Hrun) as Hrev.
  assert (Hcount : bidirectionalLinks (stats g) =
                   List.length (filter isBidirectional (links g))).
  { unfold useWebOfTrust in Hrun.
    destruct (collect query opts fuel) as [st|]; [|discriminate].
    inversion Hrun. apply analyse_bidirectionalLinks. }
  split; [exact Hmark|]. split; [|split; [|split]].
  - intros l l' Hl Hl' Es Et. split.
    + apply Hmark; [assumption|]. exists l'. auto.
    + apply Hmark; [assumption|]. exists l. auto.
  - intros l Hl Ks Kt. split; [now apply Hrev|now apply Hmark].
  - rewrite Hcount. clear Hcount Hrev.
    assert (Hsub : forall ls, (forall l, In l ls -> In l (links g)) ->
              List.length (filter (hasReverse (links g)) ls)
              <= List.length (filter isBidirectional ls)).
    { induction ls as [|l ls IH]; intro Hin; [simpl; lia|].
      assert (IH' := IH (fun x Hx => Hin x (or_intror Hx))).
      simpl. destruct (hasReverse (links g) l) eqn:Eh.
      - apply hasReverse_iff in Eh.
        rewrite (Hmark l (Hin l (or_introl eq_refl)) Eh). simpl. lia.
      - destruct (isBidirectional l); simpl; lia. }
    apply Hsub. auto.
  - intro Hk. rewrite Hcount. f_equal. apply filter_ext_in. intros l Hl.
    destruct (isBidirectional l) eqn:Eb.
    + symmetry. apply hasReverse_iff.
      destruct (Hk l Hl Eb) as [Ks Kt]. now apply Hrev.
    + destruct (hasReverse (links g) l) eqn:Eh; [|reflexivity].
      apply hasReverse_iff in Eh. apply (Hmark l Hl) in Eh. congruence.
Qed.

(** The run of Scenario B: "A" and "B" follow each other, depth 2. *)
Lemma bidirectional_iff_reverse_witness :
  exists g,
    useWebOfTrust (relay [contacts "A" ["B"%string]; contacts "B" ["A"%string]])
      (mkOptions (Some "A"%string) (Some 2) None None) 3 = Some g /\
    map (fun l => (endpoints l, isBidirectional l)) (links g) =
      [((Some "A"%string, Some "B"%string), true);
       ((Some "B"%string, Some "A"%string), true)] /\
    bidirectionalSymmetry g /\
    bidirectionalLinks (stats g) = 2.
Proof.
  eexists. split; [vm_compute; reflexivity|]. split; [reflexivity|].
  assert (H := bidirectional_iff_reverse
                 (relay [contacts "A" ["B"%string]; contacts "B" ["A"%string]])
                 (mkOptions (Some "A"%string) (Some 2) None None) 3 _
                 ltac:(vm_compute; reflexivity)).
  destruct H as (_ & _ & A & _ & B). split.
  - intros l Hin. apply A; [exact Hin| |]; simpl in Hin;
      destruct Hin as [<-|[<-|[]]]; reflexivity.
  - apply B. intros l Hin _. simpl in Hin.
    destruct Hin as [<-|[<-|[]]]; split; reflexivity.
Defined.

(** C6 at the failing input: "c" follows the strings "a->b" and "a", and
    "a" follows the string "b->c"; root "c", depth 2.  The key "a->b->c"
    of the link from "a" to "b->c" is also the reverse key of the link from
    "c" to "a->b".  Both links are therefore marked bidirectional although
    no link leads from "a->b" to "c", nor from "b->c" to "a": the mark does
    not say that the two follow each other. *)
Theorem bidirectional_mark_without_reverse :
  exists g,
    useWebOfTrust (relay arrowRecords)
      (mkOptions (Some "c"%string) (Some 2) None None) 3 = Some g /\
    map (fun l => (endpoints l, isBidirectional l)) (links g) =
      [((Some "c"%string, Some "a->b"%string), true);
       ((Some "c"%string, Some "a"%string), false);
       ((Some "a"%string, Some "b->c"%string), true)] /\
    ~ bidirectionalSymmetry g.
Proof.
  eexists. split; [vm_compute; reflexivity|]. split; [reflexivity|].
  intro H.
  specialize (H (mkLink (Some "c"%string) (Some "a->b"%string) true)
                (or_introl eq_refl)).
  destruct H as [H _]. destruct (H eq_refl) as (l' & Hin & Hs & Ht).
  simpl in Hin. destruct Hin as [<-|[<-|[<-|[]]]]; discriminate.
Qed.

(** ** C2: bounds of the importance *)

Lemma classify_bounds t n :
  valCollected n ->
  (3 <= val (classify t n))%Q /\ (val (classify t n) <= 30)%Q /\
  (isHub (classify t n) = false -> (val (classify t n) <= 20)%Q).
Proof.
  intros [Hlo Hhi]. destruct (classify_val t n) as [A B].
  split; [lra|]. split.
  - eapply Qle_trans; [exact B|]. apply Q.max_lub; lra.
  - unfold classify. cbn [isHub val].
    destruct (Qle_bool t (ofNat (totalDegree n)) && (10 <=? totalDegree n));
      [discriminate|].
    intros _. apply Q.max_lub; [assumption|].
    pose proof (Q.le_min_r (ofNat (totalDegree n) / 2) 7). lra.
Qed.

Lemma incOut_collected n : valCollected n -> valCollected (incOut n).
Proof. exact (fun H => H). Qed.

Lemma incIn_collected n : valCollected n -> valCollected (incIn n).
Proof. exact (fun H => H). Qed.

(** C2, amended.  When the collector hands over, every importance lies
    between 3 (the least seed value) and 20; in the snapshot every
    importance lies between 3 and 30, and between 3 and 20 for a node that
    is not a hub. *)
Theorem importance_bounds query opts fuel g :
  useWebOfTrust query opts fuel = Some g ->
  (exists st, collect query opts fuel = Some st /\
              forall k n, In (k, n) (nodesMap st) ->
                          (3 <= val n)%Q /\ (val n <= 20)%Q) /\
  (forall n, In n (nodes g) ->
             (3 <= val n)%Q /\ (val n <= 30)%Q /\
             (isHub n = false -> (val n <= 20)%Q)).
Proof.
  intro Hrun. unfold useWebOfTrust in Hrun.
  destruct (collect query opts fuel) as [st|] eqn:Ec; [|discriminate].
  inversion Hrun; subst g. clear Hrun.
  pose proof (collect_sound _ _ _ _ Ec) as Hs.
  split.
  - exists st. split; [reflexivity|]. intros k n Hin.
    now destruct (nodes_ok _ Hs k n Hin) as [_ Hv].
  - intros n Hin.
    pose proof (analyse_untouched (fun n => (val n, isHub n))
                  (referenceUser opts) (nodesMap st) (linksMap st)
                  (fun _ _ => eq_refl) (fun _ _ => eq_refl)) as E.
    destruct (map_eq_In _ _ _ n E Hin) as (n1 & Hn1 & E1).
    simpl in E1. injection E1 as Ev Eh. rewrite <- Ev, <- Eh.
    unfold classified, hubPass in Hn1. apply in_map_iff in Hn1.
    destruct Hn1 as (n0 & <- & Hn0).
    apply classify_bounds.
    unfold mvalues in Hn0. apply in_map_iff in Hn0.
    destruct Hn0 as ([k n0'] & Heq & Hn0). simpl in Heq. subst n0'.
    destruct (degreePass_nodes (fun _ n => valCollected n)
                (nodesMap st) (linksMap st)) as [_ B]; auto.
    + intros k0 m Hm. now destruct (nodes_ok _ Hs k0 m Hm).
    + eapply B; eauto.
Qed.

(** C2, as stated, fails: with thirty links the root is a hub and its
    importance becomes 15 + 30/5 = 21. *)
Lemma importance_above_20 :
  exists g,
    useWebOfTrust (relay starRecords)
      (mkOptions (Some "r"%string) (Some 1) None None) 2 = Some g /\
    ~ importanceWithin20 g.
Proof.
  eexists. split; [vm_compute; reflexivity|].
  intro H.
  destruct (H (mkNode (Some "r"%string) (105 # 5) 0 30 true (Some 0) None)
              (or_introl eq_refl)) as [_ Hhi].
  revert Hhi. cbn [val]. unfold Qle. simpl. lia.
Qed.

Lemma importance_bounds_witness :
  exists g,
    useWebOfTrust (relay starRecords)
      (mkOptions (Some "r"%string) (Some 1) None None) 2 = Some g /\
    forall n, In n (nodes g) ->
              (3 <= val n)%Q /\ (val n <= 30)%Q /\
              (isHub n = false -> (val n <= 20)%Q).
Proof.
  eexists. split; [vm_compute; reflexivity|].
  exact (proj2 (importance_bounds (relay starRecords)
                  (mkOptions (Some "r"%string) (Some 1) None None) 2 _
                  ltac:(vm_compute; reflexivity))).
Defined.

(** ** C5: distances from the reference *)

(** A walk along the adjacency sets that ends on a node is a path over the
    links that join two nodes: a step leaves a node, and it arrives on the
    node the next step leaves, or on the last one. *)
Lemma walk_inner ns ls r k x :
  In x (map id ns) ->
  walk (buildAdjacency ns ls) r k x <->
  hops (filter (anchored (map id ns)) ls) r k x.
Proof.
  intro Hx. split; intro W.
  - revert Hx. induction W as [|k x y W IH Hy]; intro Hin; [constructor|].
    apply buildAdjacency_spec in Hy. destruct Hy as (Hx & l & Hl & J).
    apply (hops_S _ _ k x); [now apply IH|].
    exists l. split; [|assumption]. apply filter_In. split; [assumption|].
    unfold anchored. apply andb_true_iff.
    destruct J as [[-> ->]|[-> ->]]; split; now apply shas_In.
  - clear Hx. induction W as [|k x y W IH (l & Hl & J)]; [constructor|].
    apply filter_In in Hl. destruct Hl as [Hl Ha].
    apply (walk_step _ _ k x); [assumption|].
    apply buildAdjacency_spec. split; [|exists l; auto].
    unfold anchored in Ha. apply andb_true_iff in Ha. destruct Ha as [A B].
    apply shas_In in A. apply shas_In in B.
    destruct J as [[<- _]|[<- _]]; assumption.
Qed.

(** What [calculateDegreesOfSeparation] writes. *)
Lemma calculateDegreesOfSeparation_inner ns ls r :
  let inner := filter (anchored (map id ns)) ls in
  forall n, In n (calculateDegreesOfSeparation ns ls r) ->
    (forall k, degreesFromRoot n = Some k <-> hopDistance inner r (id n) k) /\
    (degreesFromRoot n = None <-> forall k, ~ hops inner r k (id n)).
Proof.
  intros inner n Hin. unfold calculateDegreesOfSeparation in Hin.
  apply in_map_iff in Hin. destruct Hin as (n0 & <- & Hn0). simpl.
  assert (Hid : In (id n0) (map id ns)) by now apply in_map.
  pose proof (searchLoop_searching (buildAdjacency ns ls) r
                (1 + 2 * List.length ls) _ (search_start _ r)) as Hs.
  pose proof (search_exhausts ns ls r) as He.
  destruct (searching_done _ r _ Hs He (id n0)) as [A B].
  fold (searchDistances ns ls r) in A, B. split.
  - intro k. rewrite A. unfold hopDistance, inner.
    rewrite (walk_inner ns ls r k (id n0) Hid).
    split; intros [W M]; (split; [assumption|]); intros j Hj; apply M;
      now apply (walk_inner ns ls r j (id n0) Hid).
  - rewrite B. split; intros H k W; apply (H k);
      now apply (walk_inner ns ls r k (id n0) Hid).
Qed.

(** C5, amended.  With a reference identity [r] supplied, a node of the
    snapshot has [degreesFromRoot] equal to [k] exactly when [k] is its
    undirected hop-distance from [r] over the links of the snapshot that
    join two nodes of the snapshot; it has none exactly when no such path
    leads to it from [r]; and the node of [r] itself has distance 0.  With
    a relay that answers a query for a set of authors only with records of
    those authors, every link of the snapshot joins two of its nodes, so
    that the distances are the hop-distances over all the links. *)
Theorem distances_are_hop_counts query opts fuel g r :
  referenceUser opts = Some r -> r <> EmptyString ->
  useWebOfTrust query opts fuel = Some g ->
  let inner := filter (anchored (map id (nodes g))) (links g) in
  (forall n, In n (nodes g) ->
     (forall k, degreesFromRoot n = Some k <->
                hopDistance inner (Some r) (id n) k) /\
     (degreesFromRoot n = None <->
      forall k, ~ hops inner (Some r) k (id n)) /\
     (id n = Some r -> degreesFromRoot n = Some 0)) /\
  (answersAuthors query -> inner = links g).
Proof.
  intros Hr Hne Hrun. unfold useWebOfTrust in Hrun.
  destruct (collect query opts fuel) as [st|] eqn:Ec; [|discriminate].
  inversion Hrun; subst g. clear Hrun.
  pose proof (collect_sound _ _ _ _ Ec) as Hs.
  assert (Hids : forall k n, In (k, n) (nodesMap st) -> id n = k)
    by (intros k m H; apply (nodes_ok _ Hs k m H)).
  assert (Ht : truthy (referenceUser opts) = true).
  { rewrite Hr. simpl. apply negb_true_iff. now apply String.eqb_neq. }
  cbv zeta. split.
  - intros n Hn.
    rewrite (analyse_ids _ _ _ Hids). rewrite analyse_links.
    rewrite analyse_nodes in Hn. simpl in Hn. rewrite Ht, Hr in Hn.
    apply calculateDegreesOfSeparation_inner in Hn.
    rewrite (assignClusters_untouched id) in Hn by reflexivity.
    rewrite classified_ids in Hn by assumption.
    destruct Hn as [A B]. split; [exact A|]. split; [exact B|].
    intro Hid. apply A. rewrite Hid. split; [constructor|lia].
  - intro Hq.
    pose proof (collect_sourced _ _ _ _ Hq Ec) as Hsrc.
    pose proof (analyse_no_dangling (referenceUser opts) st Hs Hsrc) as Hnd.
    apply filter_all. intros l Hl. destruct (Hnd l Hl) as [A B].
    rewrite (analyse_ids _ _ _ Hids). unfold anchored.
    apply andb_true_iff. split; now apply shas_In.
Qed.

(** The run of Scenario A with "A" as the reference. *)
Lemma distances_are_hop_counts_witness :
  exists g,
    useWebOfTrust (relay [contacts "A" ["B"%string; "C"%string]])
      (mkOptions (Some "A"%string) (Some 1) (Some 100) (Some "A"%string)) 2
      = Some g /\
    map degreesFromRoot (nodes g) = [Some 0; Some 1; Some 1] /\
    let inner := filter (anchored (map id (nodes g))) (links g) in
    (forall n, In n (nodes g) ->
       (forall k, degreesFromRoot n = Some k <->
                  hopDistance inner (Some "A"%string) (id n) k) /\
       (degreesFromRoot n = None <->
        forall k, ~ hops inner (Some "A"%string) k (id n)) /\
       (id n = Some "A"%string -> degreesFromRoot n = Some 0)) /\
    (answersAuthors (relay [contacts "A" ["B"%string; "C"%string]]) ->
     inner = links g).
Proof.
  eexists. split; [vm_compute; reflexivity|]. split; [reflexivity|].
  apply (distances_are_hop_counts
           (relay [contacts "A" ["B"%string; "C"%string]])
           (mkOptions (Some "A"%string) (Some 1) (Some 100) (Some "A"%string)) 2
           _ "A"%string eq_refl).
  - discriminate.
  - vm_compute. reflexivity.
Defined.

(** C5, as stated, fails.  The relay answers the query for the record of
    "X" with the record of "G", who follows "X" and "Y".  The links from
    "G" to "X" and from "G" to "Y" are collected, so that "Y" is two
    undirected hops away from "X"; but "G" is no node and has no adjacency
    set, the search from "X" stops at "G", and "Y" is left without
    [degreesFromRoot]. *)
Lemma distance_missed_through_stranger :
  exists g,
    useWebOfTrust strangerRelay
      (mkOptions (Some "X"%string) (Some 1) None (Some "X"%string)) 2
      = Some g /\
    map id (nodes g) = [Some "X"%string; Some "Y"%string] /\
    map endpoints (links g) =
      [(Some "G"%string, Some "X"%string); (Some "G"%string, Some "Y"%string)] /\
    map degreesFromRoot (nodes g) = [Some 0; None] /\
    ~ hopCountsWritten (Some "X"%string) g.
Proof.
  eexists. split; [vm_compute; reflexivity|].
  split; [reflexivity|]. split; [reflexivity|]. split; [reflexivity|].
  intro H.
  destruct (H _ (or_intror (or_introl eq_refl))) as (A & _).
  cbn [id degreesFromRoot links] in A.
  assert (D : Some 2 = @None nat); [|discriminate D].
  symmetry. apply A. split.
  - apply (hops_S _ _ 1 (Some "G"%string)).
    + apply (hops_S _ _ 0 (Some "X"%string)); [constructor|].
      eexists. split; [left; reflexivity|]. right. split; reflexivity.
    + eexists. split; [right; left; reflexivity|]. left. split; reflexivity.
  - intros j Hj. destruct j as [|[|j]]; [| |lia].
    + inversion Hj.
    + inversion Hj as [|k x y Hx (l & Hl & J)]; subst.
      inversion Hx; subst.
      destruct Hl as [<-|[<-|[]]];
        destruct J as [[J1 J2]|[J1 J2]]; discriminate.
Qed.

(** ** C7: cluster labels *)

Lemma clustered_start ns :
  Clustered ns (mkClusterState ns [] [] [], 0).
Proof.
  split; [|split].
  - constructor; simpl.
    + reflexivity.
    + intro x. split; [intros []|intros (e & [] & _)].
    + constructor.
    + intros e [].
    + intros i n Hn. right. auto.
  - intros j e Hn. destruct j; discriminate.
  - reflexivity.
Qed.

Lemma assignClustersRun_clustered ns ls :
  NoDup (map id ns) ->
  Clustered ns (assignClustersRun ns ls) /\
  forall i, i < List.length ns ->
            In i (map position (labellings (fst (assignClustersRun ns ls)))).
Proof.
  intro ND.
  destruct (clusterFold ns ND (buildAdjacency ns ls) (seq 0 (List.length ns))
              (mkClusterState ns [] [] [], 0) (clustered_start ns))
    as (Hc & _ & Hall).
  { intros i Hi. apply in_seq in Hi. lia. }
  split; [exact Hc|]. intros i Hi. apply Hall. apply in_seq. lia.
Qed.

(** One pass of [assignClusters] on nodes of pairwise distinct identities:
    the positions labelled are a permutation of the positions of the array,
    the label a node carries afterwards is the one written then, and the
    labels obey [labelLaw]. *)
Lemma assignClusters_labelled ns ls :
  NoDup (map id ns) ->
  let run := assignClustersRun ns ls in
  let log := labellings (fst run) in
  Permutation (map position log) (seq 0 (List.length ns)) /\
  (forall i n, nth_error (assignClusters ns ls) i = Some n ->
     exists e, In e log /\ position e = i /\ cluster n = Some (label e)) /\
  labelLaw log /\
  snd run = seeds log.
Proof.
  intros ND run log.
  destruct (assignClustersRun_clustered ns ls ND) as ((Hinv & Hlaw & Hseeds) & Hall).
  fold run in Hinv, Hlaw, Hseeds, Hall. fold log in Hlaw, Hseeds, Hall.
  split; [|split; [|split]].
  - apply NoDup_Permutation.
    + apply (ci_nodup _ _ Hinv).
    + apply seq_NoDup.
    + intro i. split.
      * intro Hi. apply in_map_iff in Hi. destruct Hi as (e & <- & He).
        apply in_seq. pose proof (ci_range _ _ Hinv e He). lia.
      * intro Hi. apply Hall. apply in_seq in Hi. lia.
  - intros i n Hn. unfold assignClusters in Hn. fold run in Hn.
    destruct (ci_cluster _ _ Hinv i n Hn) as [A|[A _]]; [exact A|].
    exfalso. apply A. apply Hall.
    assert (i < List.length (c_nodes (fst run))) by (apply nth_error_Some; congruence).
    rewrite <- (length_map id), (ci_ids _ _ Hinv), length_map in H. lia.
  - exact Hlaw.
  - symmetry. exact Hseeds.
Qed.

(** The node at a position of the snapshot carries the label of the node
    at that position when [assignClusters] returns. *)
Lemma snapshot_cluster_at r nm lm i n :
  nth_error (nodes (analyse r nm lm)) i = Some n ->
  exists n1,
    nth_error (assignClusters (classified nm lm)
                 (mvalues (snd (degreePass nm lm)))) i = Some n1 /\
    cluster n1 = cluster n.
Proof.
  rewrite analyse_nodes. simpl. destruct (truthy r).
  - unfold calculateDegreesOfSeparation. rewrite nth_error_map.
    destruct (nth_error _ i) as [n1|]; [|discriminate].
    simpl. intro E. inversion E. exists n1. split; reflexivity.
  - intro E. exists n. auto.
Qed.

(** C7.  In every snapshot, the clustering pass of the run has executed
    [x.cluster = clusterId] exactly once for each node of the snapshot: the
    positions labelled are a permutation of the positions of [nodes].  The
    label a node of the snapshot carries is the one written then, so that
    no node is without label.  Each label written is the number of regions
    started before the region of the node: the labels are 0, 1, 2, ... in
    the order in which the regions start, and the label of a region is not
    used for a later one.  The counter ends at the number of regions. *)
Theorem clusters_assigned_once query opts fuel g :
  useWebOfTrust query opts fuel = Some g ->
  exists st,
    collect query opts fuel = Some st /\
    let run := clusteringPass (nodesMap st) (linksMap st) in
    let log := labellings (fst run) in
    Permutation (map position log) (seq 0 (List.length (nodes g))) /\
    (forall i n, nth_error (nodes g) i = Some n ->
       exists e, In e log /\ position e = i /\ cluster n = Some (label e)) /\
    labelLaw log /\
    snd run = seeds log.
Proof.
  intro Hrun. unfold useWebOfTrust in Hrun.
  destruct (collect query opts fuel) as [st|] eqn:Ec; [|discriminate].
  inversion Hrun; subst g. clear Hrun. exists st. split; [reflexivity|].
  pose proof (collect_sound _ _ _ _ Ec) as Hs.
  assert (Hids : forall k n, In (k, n) (nodesMap st) -> id n = k)
    by (intros k n H; apply (nodes_ok _ Hs k n H)).
  pose proof (classified_ids (nodesMap st) (linksMap st) Hids) as Hc.
  assert (ND : NoDup (map id (classified (nodesMap st) (linksMap st))))
    by (rewrite Hc; apply (nodes_nodup _ Hs)).
  destruct (assignClusters_labelled _
              (mvalues (snd (degreePass (nodesMap st) (linksMap st)))) ND)
    as (A & B & C & D).
  assert (Hlen : List.length (nodes (analyse (referenceUser opts)
                                       (nodesMap st) (linksMap st)))
                 = List.length (classified (nodesMap st) (linksMap st))).
  { rewrite <- (length_map id), analyse_ids by assumption.
    rewrite <- Hc. apply length_map. }
  unfold clusteringPass. cbv zeta. split; [|split; [|split]].
  - rewrite Hlen. exact A.
  - intros i n Hn. apply snapshot_cluster_at in Hn.
    destruct Hn as (n1 & Hn1 & <-). now apply B.
  - exact C.
  - exact D.
Qed.

(** A chain a - b - c - d collected from "a": the region of "a" takes "b"
    and "c", two hops away; "d" starts the region of label 1. *)
Lemma clusters_assigned_once_witness :
  exists g,
    useWebOfTrust
      (relay [contacts "a" ["b"%string]; contacts "b" ["c"%string];
              contacts "c" ["d"%string]])
      (mkOptions (Some "a"%string) (Some 3) None None) 5 = Some g /\
    map cluster (nodes g) = [Some 0; Some 0; Some 0; Some 1] /\
    exists st,
      collect
        (relay [contacts "a" ["b"%string]; contacts "b" ["c"%string];
                contacts "c" ["d"%string]])
        (mkOptions (Some "a"%string) (Some 3) None None) 5 = Some st /\
      let run := clusteringPass (nodesMap st) (linksMap st) in
      let log := labellings (fst run) in
      Permutation (map position log) (seq 0 (List.length (nodes g))) /\
      (forall i n, nth_error (nodes g) i = Some n ->
         exists e, In e log /\ position e = i /\ cluster n = Some (label e)) /\
      labelLaw log /\
      snd run = seeds log.
Proof.
  eexists. split; [vm_compute; reflexivity|]. split; [reflexivity|].
  exact (clusters_assigned_once
           (relay [contacts "a" ["b"%string]; contacts "b" ["c"%string];
                   contacts "c" ["d"%string]])
           (mkOptions (Some "a"%string) (Some 3) None None) 5 _
           ltac:(vm_compute; reflexivity)).
Defined.

(** The nodes handed to [assignClusters] by [analyse] have pairwise
    distinct identities, and every node of a snapshot carries a label. *)
Lemma snapshot_clustered query opts fuel g :
  useWebOfTrust query opts fuel = Some g ->
  NoDup (map id (nodes g)) /\
  forall n, In n (nodes g) -> exists c, cluster n = Some c.
Proof.
  intro Hrun. unfold useWebOfTrust in Hrun.
  destruct (collect query opts fuel) as [st|] eqn:Ec; [|discriminate].
  inversion Hrun; subst g. clear Hrun.
  pose proof (collect_sound _ _ _ _ Ec) as Hs.
  assert (Hids : forall k n, In (k, n) (nodesMap st) -> id n = k)
    by (intros k n H; apply (nodes_ok _ Hs k n H)).
  split.
  - rewrite analyse_ids by assumption. apply (nodes_nodup _ Hs).
  - intros n Hn.
    pose proof (classified_ids (nodesMap st) (linksMap st) Hids) as Hc.
    assert (ND : NoDup (map id (classified (nodesMap st) (linksMap st))))
      by (rewrite Hc; apply (nodes_nodup _ Hs)).
    destruct (assignClustersRun_clustered _
                (mvalues (snd (degreePass (nodesMap st) (linksMap st)))) ND)
      as ((Hinv & _ & _) & Hall).
    rewrite analyse_nodes in Hn. simpl in Hn.
    assert (Hex : exists n1,
               In n1 (assignClusters (classified (nodesMap st) (linksMap st))
                        (mvalues (snd (degreePass (nodesMap st) (linksMap st))))) /\
               cluster n1 = cluster n).
    { destruct (truthy (referenceUser opts)).
      - unfold calculateDegreesOfSeparation in Hn. apply in_map_iff in Hn.
        destruct Hn as (n1 & <- & Hn1). exists n1. auto.
      - exists n. auto. }
    destruct Hex as (n1 & Hn1 & <-).
    apply In_nth_error in Hn1. destruct Hn1 as (i & Hi).
    unfold assignClusters in Hi.
    destruct (ci_cluster _ _ Hinv i n1 Hi) as [(e & _ & _ & He)|[A _]]; [eauto|].
    exfalso. apply A. apply Hall.
    assert (i < List.length (c_nodes (fst (assignClustersRun
               (classified (nodesMap st) (linksMap st))
               (mvalues (snd (degreePass (nodesMap st) (linksMap st))))))))
      by (apply nth_error_Some; congruence).
    rewrite <- (length_map id), (ci_ids _ _ Hinv), length_map in H. lia.
Qed.

(** ** C3: levels of a batch *)

(** C3 at the failing input: global mode, depth 2, fifty-one seed records.
    The second batch spliced off the frontier holds the last seed, of level
    0, and "x", of level 1; "x" is then handled as a seed, so that "y" is
    queried and "z", three links away from the seeds, becomes a node. *)
Theorem batch_mixes_levels :
  exists st,
    collect crowdRelay (mkOptions None (Some 2) None None) 4 = Some st /\
    nth_error (dequeued st) 1 =
      Some [mkPending (Some (seedName 50)) 0; mkPending (Some "x"%string) 1] /\
    (exists batch, In batch (dequeued st) /\ ~ uniformLevels batch) /\
    mhas (Some "z"%string) (nodesMap st) = true.
Proof.
  eexists. split; [vm_compute; reflexivity|].
  split; [reflexivity|]. split; [|reflexivity].
  exists [mkPending (Some (seedName 50)) 0; mkPending (Some "x"%string) 1].
  split.
  - right. now left.
  - intro H.
    specialize (H (mkPending (Some (seedName 50)) 0) (mkPending (Some "x"%string) 1)
                  (or_introl eq_refl) (or_intror (or_introl eq_refl))).
    discriminate.
Qed.

(** ** C4: the frontier loop ends; self-loops; enqueueing *)

(** C4 at the failing input: global mode, the seed query answered with two
    records of one author.  [processed] is still empty when the seeds are
    pushed, so the guard [!processed.has(event.pubkey)] lets both through:
    "A" enters the frontier twice. *)
Theorem duplicate_seed_enqueued_twice :
  exists st,
    collect (relay twoRecordsOfA) (mkOptions None (Some 1) None None) 2 = Some st /\
    enqueued st = [Some "A"%string; Some "A"%string] /\
    ~ enqueuedOnce st.
Proof.
  eexists. split; [vm_compute; reflexivity|]. split; [reflexivity|].
  unfold enqueuedOnce. cbn. intro H. inversion H as [|? ? Hn _]; subst.
  apply Hn. now left.
Qed.

(** What holds of the rest of C4. *)

Lemma addFollowed_enqueued author lv dep st x :
  enqueued (addFollowed author lv dep st x) = enqueued st \/
  (enqueued (addFollowed author lv dep st x) = enqueued st ++ [x] /\
   ~ In x (mkeys (nodesMap st))).
Proof.
  unfold enqueued, addFollowed.
  destruct (mget x (nodesMap st)) eqn:E; simpl; [auto|].
  destruct (_ && _); [|auto]. right. split.
  - rewrite app_assoc, map_app. reflexivity.
  - now apply mget_None.
Qed.

Lemma addFollowed_queued author lv dep st x :
  Queued st -> Queued (addFollowed author lv dep st x).
Proof.
  intros [ND Hin].
  pose proof (addFollowed_nodes_incl author lv dep st x) as Hi.
  destruct (addFollowed_enqueued author lv dep st x) as [E|[E Hx]];
    unfold Queued; rewrite E.
  - split; [assumption|]. eapply incl_tran; eassumption.
  - split.
    + apply NoDup_app; try assumption.
      * repeat constructor. intros [].
      * intros y Hy [<-|[]]. apply Hx, Hin, Hy.
    + apply incl_app; [eapply incl_tran; eassumption|].
      intros y [<-|[]]. apply addFollowed_target_node.
Qed.

Lemma processBatch_queued query dep st :
  Queued st -> Queued (processBatch query dep st).
Proof.
  intro Hq. unfold processBatch.
  assert (Hsplice : forall lm pr qs,
             Queued (mkCollector (nodesMap st) lm pr
                       (skipn 50 (toProcess st)) qs
                       (dequeued st ++ [firstn 50 (toProcess st)]))).
  { intros. unfold Queued, enqueued in *.
    cbn [dequeued toProcess nodesMap].
    rewrite concat_app, concat_cons, concat_nil, app_nil_r, <- app_assoc,
      firstn_skipn.
    exact Hq. }
  destruct (dep <=? _).
  - apply Hsplice.
  - apply fold_left_invariant.
    + apply Hsplice.
    + intros s e _ Hs. unfold processEvent.
      apply fold_left_invariant; [exact Hs|].
      intros s' x _. apply addFollowed_queued.
Qed.

(** X1: every identity is enqueued at most once when the frontier starts
    without repetition: with a root identity, or in global mode when the
    seed records have pairwise distinct authors. *)
Lemma enqueued_once query opts fuel st :
  truthy (startPubkey opts) = true \/
  NoDup (map pubkey
           (query 0 (mkFilter [3] None (Some (default 100 (opt_limit opts)))))) ->
  collect query opts fuel = Some st -> enqueuedOnce st.
Proof.
  intros Hstart Hc. unfold collect in Hc.
  apply (drain_invariant query Queued) in Hc; [apply Hc| |].
  - intro s. apply processBatch_queued.
  - unfold seed. destruct (truthy (startPubkey opts)) eqn:Et.
    + split; simpl.
      * repeat constructor. intros [].
      * intros y [<-|[]]. now left.
    + destruct Hstart as [?|ND]; [discriminate|].
      set (evs := query 0 _) in *.
      assert (Hgen : forall evs s,
                 processed s = [] -> Queued s ->
                 NoDup (enqueued s ++ map (fun e => Some (pubkey e)) evs) ->
                 Queued (fold_left addSeed evs s)).
      { clear. induction evs as [|e evs IH]; intros s Hp Hq Hnd; [exact Hq|].
        simpl. apply IH.
        - unfold addSeed. rewrite Hp. reflexivity.
        - unfold addSeed. rewrite Hp. simpl. destruct Hq as [A B].
          unfold Queued, enqueued in *. simpl in *.
          rewrite app_assoc, map_app. simpl. split.
          + apply NoDup_app; try assumption.
            * repeat constructor. intros [].
            * intros y Hy [<-|[]].
              apply NoDup_remove_2 in Hnd. apply Hnd.
              apply in_or_app. now left.
          + apply incl_app.
            * eapply incl_tran; [exact B|]. apply mkeys_mset_incl.
            * intros y [<-|[]]. apply mkeys_mset_In.
        - unfold addSeed. rewrite Hp. unfold enqueued in *. simpl in *.
          rewrite app_assoc, map_app, <- app_assoc. exact Hnd. }
      apply Hgen.
      * reflexivity.
      * split; [constructor|intros y []].
      * unfold enqueued. simpl.
        apply (Finite.Injective_map_NoDup (f := @Some string)) in ND;
          [now rewrite map_map in ND|].
        intros a b H. now inversion H.
Qed.

(** Scenario C.  The one record of "A", following itself, at depth 1: the
    run ends, the node set is {A} and the one link is A -> A; the same in
    global mode. *)
Example self_loop_scenario :
  exists g g',
    useWebOfTrust (relay [contacts "A" ["A"%string]])
      (mkOptions (Some "A"%string) (Some 1) None None) 2 = Some g /\
    map id (nodes g) = [Some "A"%string] /\
    map endpoints (links g) = [(Some "A"%string, Some "A"%string)] /\
    useWebOfTrust (relay [contacts "A" ["A"%string]])
      (mkOptions None (Some 1) None None) 2 = Some g' /\
    map id (nodes g') = [Some "A"%string] /\
    map endpoints (links g') = [(Some "A"%string, Some "A"%string)].
Proof.
  eexists. eexists. split; [vm_compute; reflexivity|].
  split; [reflexivity|]. split; [reflexivity|].
  split; [vm_compute; reflexivity|]. split; reflexivity.
Qed.

(** ** C9: parsing a contact list *)

(** [parseContactList] of useSocialGraph.ts returns that sequence. *)
Lemma parseContactList_extracted event :
  parseContactList event = extracted (tags event).
Proof.
  unfold parseContactList. induction (tags event) as [|tag rest IH];
    [reflexivity|].
  cbn [filter extracted]. unfold isPTag at 1.
  destruct tag as [|marker [|value more]]; cbn [nth_error].
  - exact IH.
  - destruct (String.eqb marker "p"); cbn [map filter nth_error jsBoolean truthy];
      exact IH.
  - destruct (String.eqb marker "p"); cbn [map filter nth_error andb]; [|exact IH].
    unfold jsBoolean at 1, truthy.
    destruct (String.eqb value EmptyString); cbn [negb]; [exact IH|].
    f_equal. exact IH.
Qed.

(** C9 at the failing input.  The extraction written inline in
    useWebOfTrust keeps the missing and the empty identity, which
    [parseContactList] passes over, and the collector makes a node and a
    link of each. *)
Theorem inline_extraction_keeps_malformed :
  followedPubkeys raggedRecord = [None; Some EmptyString; Some "B"%string] /\
  parseContactList raggedRecord = [Some "B"%string] /\
  followedPubkeys raggedRecord <> extracted (tags raggedRecord) /\
  exists g,
    useWebOfTrust (relay [raggedRecord])
      (mkOptions (Some "A"%string) (Some 1) None None) 2 = Some g /\
    map id (nodes g) =
      [Some "A"%string; None; Some EmptyString; Some "B"%string] /\
    map endpoints (links g) =
      [(Some "A"%string, None); (Some "A"%string, Some EmptyString);
       (Some "A"%string, Some "B"%string)].
Proof.
  split; [reflexivity|]. split; [reflexivity|]. split; [discriminate|].
  eexists. split; [vm_compute; reflexivity|]. split; reflexivity.
Qed.

(** ** C1: the node budget *)


Section SocialGraphFacts.
Import SocialGraph.





End SocialGraphFacts.


(** * Further properties of useWebOfTrust *)

(** ** The run always yields a snapshot *)

(** X2: whatever the relays answer and whatever the options, the frontier
    loop of useWebOfTrust ends: some number of iterations suffices, and
    with that many or more the hook returns one and the same snapshot. *)
Theorem snapshot_always_produced query opts :
  exists fuel g,
    forall fuel', fuel <= fuel' -> useWebOfTrust query opts fuel' = Some g.
Proof.
  destruct (collect_terminates query opts) as (fuel & st & Hc).
  exists fuel, (analyse (referenceUser opts) (nodesMap st) (linksMap st)).
  intros fuel' Hle. unfold useWebOfTrust, collect in *.
  now rewrite (drain_more query _ _ _ _ Hc _ Hle).
Qed.

(** ** Nothing is invented *)

Section Origin.
Variable query : nat -> Filter -> list NostrEvent.
Variable opts : WebOfTrustOptions.

Lemma addFollowed_nodes author lv dep st x k :
  In k (mkeys (nodesMap (addFollowed author lv dep st x))) ->
  k = x \/ In k (mkeys (nodesMap st)).
Proof.
  unfold addFollowed. destruct (mget x (nodesMap st)); simpl;
    intro H; apply In_mkeys_mset in H; exact H.
Qed.

Lemma addFollowed_origin n ps e lv dep st x :
  In e (query n (mkFilter [3] (Some ps) (Some 1))) ->
  In x (followedPubkeys e) ->
  Origin query opts st -> Origin query opts (addFollowed (pubkey e) lv dep st x).
Proof.
  intros He Hx [Hl Hn]. split.
  - intros k l H. apply addFollowed_links in H. destruct H as [H | [_ ->]].
    + eauto.
    + exists n, ps, e. auto.
  - intros k H. apply addFollowed_nodes in H. destruct H as [-> | H].
    + right. exists n, ps, e. auto.
    + auto.
Qed.

Lemma processEvent_origin n ps e lv dep st :
  In e (query n (mkFilter [3] (Some ps) (Some 1))) ->
  Origin query opts st -> Origin query opts (processEvent lv dep st e).
Proof.
  intros He H. unfold processEvent. apply fold_left_invariant.
  - exact H.
  - intros s x Hx Hs. now apply (addFollowed_origin n ps).
Qed.

Lemma processBatch_origin dep st :
  Origin query opts st -> Origin query opts (processBatch query dep st).
Proof.
  intro H. unfold processBatch.
  destruct (dep <=? _); [exact H|].
  apply fold_left_invariant.
  - exact H.
  - intros s e He Hs. eapply processEvent_origin; eauto.
Qed.

Lemma seed_origin : Origin query opts (seed query opts).
Proof.
  unfold seed, Origin, seedIdentity.
  destruct (truthy (startPubkey opts)) eqn:Ht.
  - simpl. split; [intros k l []|]. intros k [<- | []]. now left.
  - apply (fold_left_invariant
             (fun st => (forall k l, In (k, l) (linksMap st) -> reported query l) /\
                        (forall k, In k (mkeys (nodesMap st)) ->
                           (exists e, In e (query 0 (mkFilter [3] None
                                        (Some (default 100 (opt_limit opts))))) /\
                                      k = Some (pubkey e)) \/ named query k))).
    + simpl. split; [intros k l []|intros k []].
    + intros s e He [Hl Hn]. unfold addSeed.
      destruct (negb _); [|now split]. simpl. split; [exact Hl|].
      intros k H. apply In_mkeys_mset in H. destruct H as [-> | H]; eauto.
Qed.
End Origin.

Lemma collect_origin query opts fuel st :
  collect query opts fuel = Some st -> Origin query opts st.
Proof.
  unfold collect. intro Hc.
  apply (drain_invariant query (Origin query opts) _
           (processBatch_origin query opts _) _ _ _ (seed_origin query opts) Hc).
Qed.

(** X3: the collector invents nothing.  Every link of a snapshot stands
    for a "p" tag of a contact list that a query returned, its source being
    the author of the record; every node is the root, or the author of a
    record of the first query, or is named by such a tag. *)
Theorem snapshot_from_records query opts fuel g :
  useWebOfTrust query opts fuel = Some g ->
  (forall l, In l (links g) -> reported query l) /\
  (forall n, In n (nodes g) ->
             seedIdentity query opts (id n) \/ named query (id n)).
Proof.
  unfold useWebOfTrust. destruct (collect query opts fuel) as [st|] eqn:Hc;
    [|discriminate].
  intro Hg. injection Hg as <-.
  destruct (collect_origin query opts fuel st Hc) as [Hl Hn].
  pose proof (collect_sound query opts fuel st Hc) as Hs.
  split.
  - intros l H. apply snapshot_link_origin in H.
    destruct H as (i & k & l0 & _ & H0 & Hsrc & Htgt).
    apply nth_error_In in H0. apply Hl in H0.
    destruct H0 as (n & ps & e & He & H1 & H2).
    exists n, ps, e. rewrite <- Hsrc, <- Htgt. auto.
  - intros n H. apply Hn.
    rewrite <- (analyse_ids (referenceUser opts) (nodesMap st) (linksMap st)).
    + now apply in_map.
    + intros k n0 H0. now apply (nodes_ok st Hs).
Qed.

Lemma snapshot_from_records_witness :
  exists g,
    useWebOfTrust (relay [contacts "A" ["B"%string; "C"%string]])
      (mkOptions (Some "A"%string) (Some 1) None None) 2 = Some g /\
    (forall l, In l (links g) ->
       reported (relay [contacts "A" ["B"%string; "C"%string]]) l) /\
    (forall n, In n (nodes g) ->
       seedIdentity (relay [contacts "A" ["B"%string; "C"%string]])
         (mkOptions (Some "A"%string) (Some 1) None None) (id n) \/
       named (relay [contacts "A" ["B"%string; "C"%string]]) (id n)).
Proof.
  eexists. split; [vm_compute; reflexivity|].
  exact (snapshot_from_records
           (relay [contacts "A" ["B"%string; "C"%string]])
           (mkOptions (Some "A"%string) (Some 1) None None) 2 _
           ltac:(vm_compute; reflexivity)).
Defined.

(** ** Levels of the batches *)

Lemma Forall_firstn {A : Type} (P : A -> Prop) n (l : list A) :
  Forall P l -> Forall P (firstn n l).
Proof.
  intro H. rewrite <- (firstn_skipn n l) in H. now apply Forall_app in H.
Qed.

Lemma Forall_skipn {A : Type} (P : A -> Prop) n (l : list A) :
  Forall P l -> Forall P (skipn n l).
Proof.
  intro H. rewrite <- (firstn_skipn n l) in H. now apply Forall_app in H.
Qed.

Lemma addFollowed_pending author lv dep st x :
  dequeued (addFollowed author lv dep st x) = dequeued st /\
  exists l, toProcess (addFollowed author lv dep st x) = toProcess st ++ l /\
            Forall (fun p => level p = S lv /\ level p < dep) l.
Proof.
  unfold addFollowed. destruct (mget x (nodesMap st)); simpl.
  - split; [reflexivity|]. exists []. now rewrite app_nil_r.
  - split; [reflexivity|].
    destruct (lv + 1 <? dep) eqn:Hlt; simpl.
    + destruct (negb _).
      * eexists. split; [reflexivity|]. constructor; [|constructor].
        simpl. apply Nat.ltb_lt in Hlt. lia.
      * exists []. now rewrite app_nil_r.
    + exists []. now rewrite app_nil_r.
Qed.

Lemma processEvent_pending lv dep st e :
  dequeued (processEvent lv dep st e) = dequeued st /\
  exists l, toProcess (processEvent lv dep st e) = toProcess st ++ l /\
            Forall (fun p => level p = S lv /\ level p < dep) l.
Proof.
  unfold processEvent.
  apply (fold_left_invariant
           (fun s => dequeued s = dequeued st /\
                     exists l, toProcess s = toProcess st ++ l /\
                               Forall (fun p => level p = S lv /\ level p < dep) l)).
  - simpl. split; [reflexivity|]. exists []. now rewrite app_nil_r.
  - intros s x _ (Hd & l & Hq & Hl).
    destruct (addFollowed_pending (pubkey e) lv dep s x) as (Hd' & l' & Hq' & Hl').
    split; [congruence|]. exists (l ++ l'). split.
    + rewrite Hq', Hq. now rewrite app_assoc.
    + now apply Forall_app.
Qed.

Lemma processBatch_shape query dep st :
  dequeued (processBatch query dep st) =
    dequeued st ++ [firstn 50 (toProcess st)] /\
  exists l,
    toProcess (processBatch query dep st) = skipn 50 (toProcess st) ++ l /\
    Forall (fun p =>
              level p = S (match firstn 50 (toProcess st) with
                           | b :: _ => level b
                           | [] => 0
                           end) /\ level p < dep) l.
Proof.
  unfold processBatch.
  set (lv := match firstn 50 (toProcess st) with b :: _ => level b | [] => 0 end).
  destruct (dep <=? lv).
  - simpl. split; [reflexivity|]. exists []. now rewrite app_nil_r.
  - apply (fold_left_invariant
             (fun s => dequeued s = dequeued st ++ [firstn 50 (toProcess st)] /\
                       exists l, toProcess s = skipn 50 (toProcess st) ++ l /\
                                 Forall (fun p => level p = S lv /\ level p < dep) l)).
    + simpl. split; [reflexivity|]. exists []. now rewrite app_nil_r.
    + intros s e _ (Hd & l & Hq & Hl).
      destruct (processEvent_pending lv dep s e) as (Hd' & l' & Hq' & Hl').
      split; [congruence|]. exists (l ++ l'). split.
      * rewrite Hq', Hq. now rewrite app_assoc.
      * now apply Forall_app.
Qed.

Lemma processBatch_layered query dep st :
  Layered dep st -> Layered dep (processBatch query dep st).
Proof.
  intros ((L & a & b & Hq & Ha & Hb) & Hbound & Hold).
  destruct (processBatch_shape query dep st) as (Hd & l & Hq' & Hl).
  assert (Hlv : Forall (fun p => level p = L \/ level p = S L) (toProcess st)).
  { rewrite Hq. apply Forall_app. split.
    - eapply Forall_impl; [|exact Ha]. auto.
    - eapply Forall_impl; [|exact Hb]. auto. }
  split; [|split].
  - rewrite Hq'. destruct a as [|p a'].
    + destruct b as [|p b'].
      * rewrite Hq. exists 0, [], l. simpl. repeat split; auto.
        eapply Forall_impl; [|exact Hl]. rewrite Hq. simpl.
        intros x [Hx _]. exact Hx.
      * exists (S L), (skipn 50 (toProcess st)), l.
        repeat split.
        -- apply Forall_skipn. rewrite Hq. exact Hb.
        -- eapply Forall_impl; [|exact Hl]. rewrite Hq. simpl.
           intros x [Hx _]. rewrite Hx. inversion Hb; subst. congruence.
    + exists L, (skipn 50 (p :: a')), (skipn (50 - List.length (p :: a')) b ++ l).
      rewrite Hq, skipn_app, app_assoc. repeat split.
      * now apply Forall_skipn.
      * apply Forall_app. split; [now apply Forall_skipn|].
        eapply Forall_impl; [|exact Hl]. rewrite Hq. simpl.
        intros x [Hx _]. rewrite Hx. inversion Ha; subst. congruence.
  - rewrite Hq'. apply Forall_app. split; [now apply Forall_skipn|].
    eapply Forall_impl; [|exact Hl]. simpl. intros x [_ Hx]. now right.
  - intros batch Hin. rewrite Hd in Hin. apply in_app_or in Hin.
    destruct Hin as [Hin | [<- | []]]; [now apply Hold|]. split.
    + intros p q Hp Hq0.
      pose proof (Forall_firstn _ 50 _ Hlv) as HF. rewrite Forall_forall in HF.
      destruct (HF p Hp), (HF q Hq0); lia.
    + now apply Forall_firstn.
Qed.

Lemma seed_layered query opts dep : Layered dep (seed query opts).
Proof.
  pose proof (seed_levels query opts) as H. split; [|split].
  - exists 0, (toProcess (seed query opts)), []. rewrite app_nil_r. auto.
  - eapply Forall_impl; [|exact H]. simpl. auto.
  - assert (Hd : dequeued (seed query opts) = []).
    { unfold seed. destruct (truthy _); [reflexivity|].
      apply fold_left_invariant; [reflexivity|].
      intros s e _ Hs. unfold addSeed. now destruct (negb _). }
    rewrite Hd. intros batch [].
Qed.

(** X4: in every run of the collector, the levels of the identities of one
    batch differ by at most one, and no identity is ever pending at a level
    that reaches the depth, the seeds (level 0) apart. *)
Theorem batches_span_adjacent_levels query opts fuel st batch :
  collect query opts fuel = Some st ->
  In batch (dequeued st) ->
  adjacentLevels batch /\
  forall p, In p batch -> level p = 0 \/ level p < default 2 (depth opts).
Proof.
  intros Hc Hin. unfold collect in Hc.
  assert (H : Layered (default 2 (depth opts)) st).
  { apply (drain_invariant query (Layered (default 2 (depth opts))) _
             (processBatch_layered query _) _ _ _ (seed_layered query opts _) Hc). }
  destruct H as (_ & _ & H). destruct (H batch Hin) as [Ha Hb].
  split; [exact Ha|]. now apply Forall_forall.
Qed.

Lemma batches_span_adjacent_levels_witness :
  exists st batch,
    collect crowdRelay (mkOptions None (Some 2) None None) 4 = Some st /\
    nth_error (dequeued st) 1 = Some batch /\
    map level batch = [0; 1] /\
    adjacentLevels batch /\
    forall p, In p batch -> level p = 0 \/ level p < 2.
Proof.
  eexists. eexists. split; [vm_compute; reflexivity|].
  split; [vm_compute; reflexivity|]. split; [reflexivity|].
  refine (batches_span_adjacent_levels crowdRelay
            (mkOptions None (Some 2) None None) 4 _ _
            ltac:(vm_compute; reflexivity) _).
  right. left. reflexivity.
Defined.

(** ** From the maps of the collector to the nodes of the snapshot *)

Lemma shape_eq n m :
  shape n = shape m ->
  id n = id m /\ val n = val m /\ inDegree n = inDegree m /\
  outDegree n = outDegree m /\ isHub n = isHub m.
Proof. unfold shape. intro H. inversion H. auto. Qed.

Lemma core_eq k n k' n' :
  core (k, n) = core (k', n') ->
  k = k' /\ id n = id n' /\ val n = val n' /\ isHub n = isHub n' /\
  cluster n = cluster n' /\ degreesFromRoot n = degreesFromRoot n'.
Proof. unfold core. simpl. intro H. inversion H. repeat split; auto. Qed.

Lemma degreePass_nodes_map {B : Type} (g : Ident * GraphNode -> B) nm lm :
  (forall k n, g (k, incOut n) = g (k, n)) ->
  (forall k n, g (k, incIn n) = g (k, n)) ->
  map g (fst (degreePass nm lm)) = map g nm.
Proof.
  intros Hout Hin. unfold degreePass.
  apply (fold_left_invariant (fun st => map g (fst st) = map g nm)).
  - reflexivity.
  - intros st i _ Hst. unfold degreeStep.
    destruct (nth_error (snd st) i) as [[k link]|]; [|exact Hst].
    simpl. rewrite map_mupdate by auto. rewrite map_mupdate by auto.
    exact Hst.
Qed.

Lemma nth_error_map_eq {A B : Type} (g : A -> B) (l l' : list A) i x :
  map g l = map g l' -> nth_error l i = Some x ->
  exists y, nth_error l' i = Some y /\ g y = g x.
Proof.
  intros Hm Hx.
  assert (H : nth_error (map g l') i = Some (g x)).
  { rewrite <- Hm. rewrite nth_error_map, Hx. reflexivity. }
  rewrite nth_error_map in H.
  destruct (nth_error l' i) as [y|]; [|discriminate].
  exists y. split; [reflexivity|]. simpl in H. congruence.
Qed.

(** The node at position [i] of the snapshot is the [i]-th entry of
    [nodesMap], with the degrees counted by the pass over the links, then
    classified. *)
Lemma snapshot_node_at r nm lm i n :
  nth_error (nodes (analyse r nm lm)) i = Some n ->
  exists k n0 n1,
    nth_error nm i = Some (k, n0) /\
    nth_error (fst (degreePass nm lm)) i = Some (k, n1) /\
    core (k, n1) = core (k, n0) /\
    shape n = shape (classify (avgDegree (mvalues (fst (degreePass nm lm))) * 2) n1).
Proof.
  intro Hn.
  assert (Hs : map shape (nodes (analyse r nm lm)) = map shape (classified nm lm)).
  { apply analyse_untouched; reflexivity. }
  destruct (nth_error_map_eq shape _ _ i n Hs Hn) as (c & Hc & Hcs).
  unfold classified, hubPass in Hc. rewrite nth_error_map in Hc.
  unfold mvalues in Hc. rewrite nth_error_map in Hc.
  destruct (nth_error (fst (degreePass nm lm)) i) as [[k n1]|] eqn:H1;
    [|discriminate].
  simpl in Hc. injection Hc as <-.
  assert (Hcore : map core (fst (degreePass nm lm)) = map core nm).
  { apply degreePass_nodes_map; reflexivity. }
  destruct (nth_error_map_eq core _ _ i (k, n1) Hcore H1) as ([k0 n0] & H0 & Hc0).
  assert (k0 = k) by (unfold core in Hc0; simpl in Hc0; congruence). subst k0.
  exists k, n0, n1. repeat split; auto.
Qed.

Lemma snapshot_node_of r nm lm i k n0 :
  nth_error nm i = Some (k, n0) ->
  exists n, nth_error (nodes (analyse r nm lm)) i = Some n.
Proof.
  intro H0.
  assert (Hcore : map core nm = map core (fst (degreePass nm lm))).
  { symmetry. apply degreePass_nodes_map; reflexivity. }
  destruct (nth_error_map_eq core _ _ i (k, n0) Hcore H0) as ([k1 n1] & H1 & _).
  assert (Hs : map shape (classified nm lm) = map shape (nodes (analyse r nm lm))).
  { symmetry. apply analyse_untouched; reflexivity. }
  assert (Hc : nth_error (classified nm lm) i =
               Some (classify (avgDegree (mvalues (fst (degreePass nm lm))) * 2) n1)).
  { unfold classified, hubPass, mvalues. rewrite !nth_error_map, H1. reflexivity. }
  destruct (nth_error_map_eq shape _ _ i _ Hs Hc) as (n & Hn & _).
  now exists n.
Qed.

Lemma nodes_ok_id st :
  Sound st -> forall k n, In (k, n) (nodesMap st) -> id n = k.
Proof. intros Hs k n H. now apply (nodes_ok st Hs). Qed.

(** ** Batches of one level *)

Lemma Forall_nil_of_false {A : Type} (P : A -> Prop) (l : list A) :
  Forall P l -> (forall x, P x -> False) -> l = [].
Proof.
  intros H Hf. destruct l as [|x l]; [reflexivity|].
  inversion H; subst. exfalso. eauto.
Qed.

Lemma processBatch_tiered query dep st :
  dep <= 2 -> Tiered st -> Tiered (processBatch query dep st).
Proof.
  intros Hdep [Hq Hold].
  destruct (processBatch_shape query dep st) as (Hd & l & Hq' & Hl).
  split.
  - right. rewrite Hq'. destruct Hq as [[Hlen H0] | H1].
    + rewrite skipn_all2 by exact Hlen. simpl.
      eapply Forall_impl; [|exact Hl]. simpl. intros x [Hx _]. rewrite Hx.
      destruct (toProcess st) as [|p q]; [reflexivity|].
      simpl. inversion H0; subst. congruence.
    + destruct (toProcess st) as [|p q] eqn:Eq.
      * simpl in *. eapply Forall_impl; [|exact Hl]. simpl.
        intros x [Hx _]. exact Hx.
      * assert (Hnil : l = []).
        { apply (Forall_nil_of_false _ _ Hl). simpl. intros x [Hx Hlt].
          inversion H1; subst. lia. }
        rewrite Hnil, app_nil_r. now apply Forall_skipn.
  - intros batch Hin. rewrite Hd in Hin. apply in_app_or in Hin.
    destruct Hin as [Hin | [<- | []]]; [now apply Hold|].
    intros p q Hp Hq0.
    assert (HF : exists L, Forall (fun p => level p = L) (toProcess st)).
    { destruct Hq as [[_ H0] | H1]; eauto. }
    destruct HF as [L HF]. apply (Forall_firstn _ 50) in HF.
    rewrite Forall_forall in HF. rewrite (HF p Hp), (HF q Hq0). reflexivity.
Qed.

Lemma seed_queue_length query opts :
  truthy (startPubkey opts) = false ->
  List.length (toProcess (seed query opts)) <=
  List.length (query 0 (mkFilter [3] None (Some (default 100 (opt_limit opts))))).
Proof.
  intro Ht. unfold seed. rewrite Ht.
  set (evs := query 0 _).
  assert (H : forall st0,
            List.length (toProcess (fold_left addSeed evs st0)) <=
            List.length (toProcess st0) + List.length evs).
  { induction evs as [|e evs IH]; intro st0; simpl; [lia|].
    etransitivity; [apply IH|]. unfold addSeed.
    destruct (negb _); simpl; [rewrite length_app; simpl|]; lia. }
  apply (H (mkCollector [] [] [] [] 1 [])).
Qed.

(** X5: with a depth of at most 2 (2 is the default) and at most fifty
    records answering the first query, or a root given, every batch of the
    frontier holds identities of one level only. *)
Theorem small_runs_keep_levels_apart query opts fuel st :
  default 2 (depth opts) <= 2 ->
  truthy (startPubkey opts) = true \/
  List.length (query 0 (mkFilter [3] None (Some (default 100 (opt_limit opts)))))
    <= 50 ->
  collect query opts fuel = Some st ->
  forall batch, In batch (dequeued st) -> uniformLevels batch.
Proof.
  intros Hdep Hsmall Hc. unfold collect in Hc.
  assert (H : Tiered st); [|apply H].
  refine (drain_invariant query Tiered _
            (fun s => processBatch_tiered query _ s Hdep) _ _ _ _ Hc).
  destruct (seed_layered query opts 0) as (_ & _ & Hdq).
  split.
  - left. split; [|apply seed_levels].
    destruct (truthy (startPubkey opts)) eqn:Ht.
    + unfold seed. rewrite Ht. simpl. lia.
    + destruct Hsmall as [Hs | Hs]; [discriminate|].
      etransitivity; [now apply seed_queue_length|exact Hs].
  - intros batch Hin. exfalso.
    assert (Hd : dequeued (seed query opts) = []).
    { unfold seed. destruct (truthy _); [reflexivity|].
      apply fold_left_invariant; [reflexivity|].
      intros s e _ Hs. unfold addSeed. now destruct (negb _). }
    rewrite Hd in Hin. exact Hin.
Qed.

Lemma small_runs_keep_levels_apart_witness :
  exists st,
    collect (relay [contacts "A" ["B"%string]; contacts "B" ["C"%string]])
      (mkOptions (Some "A"%string) (Some 2) None None) 3 = Some st /\
    map (map level) (dequeued st) = [[0]; [1]] /\
    forall batch, In batch (dequeued st) -> uniformLevels batch.
Proof.
  eexists. split; [vm_compute; reflexivity|]. split; [reflexivity|].
  refine (small_runs_keep_levels_apart
            (relay [contacts "A" ["B"%string]; contacts "B" ["C"%string]])
            (mkOptions (Some "A"%string) (Some 2) None None) 3 _ _
            (or_introl eq_refl) ltac:(vm_compute; reflexivity)).
  simpl. lia.
Defined.

(** ** The frontier holds no identity twice *)

(** A run from a root in which the root is followed back: every identity
    is pushed on the frontier once. *)
Lemma enqueued_once_witness :
  exists st,
    collect (relay [contacts "A" ["B"%string; "A"%string];
                    contacts "B" ["A"%string]])
      (mkOptions (Some "A"%string) (Some 2) None None) 3 = Some st /\
    enqueued st = [Some "A"%string; Some "B"%string] /\
    enqueuedOnce st.
Proof.
  eexists. split; [vm_compute; reflexivity|]. split; [reflexivity|].
  exact (enqueued_once
           (relay [contacts "A" ["B"%string; "A"%string];
                   contacts "B" ["A"%string]])
           (mkOptions (Some "A"%string) (Some 2) None None) 3 _
           (or_introl eq_refl) ltac:(vm_compute; reflexivity)).
Defined.

(** ** Nothing to fetch *)

Lemma addSeed_fold evs : forall st,
  processed st = [] ->
  processed (fold_left addSeed evs st) = [] /\
  forall k, In k (mkeys (nodesMap (fold_left addSeed evs st))) <->
            In k (mkeys (nodesMap st)) \/
            exists e, In e evs /\ k = Some (pubkey e).
Proof.
  induction evs as [|e evs IH]; intros st Hp; simpl.
  - split; [assumption|]. intro k. split; [auto|].
    intros [H|(e & [] & _)]. exact H.
  - assert (Hp' : processed (addSeed st e) = []).
    { unfold addSeed. rewrite Hp. reflexivity. }
    destruct (IH _ Hp') as [A B]. split; [exact A|].
    intro k. rewrite B. unfold addSeed at 1. rewrite Hp. simpl.
    rewrite In_mkeys_mset. split.
    + intros [[->|H]|(e' & He' & ->)]; eauto.
    + intros [H|(e' & [<-|He'] & ->)]; eauto.
Qed.

Lemma seed_seeds query opts k :
  In k (mkeys (nodesMap (seed query opts))) <-> seedIdentity query opts k.
Proof.
  unfold seed, seedIdentity. destruct (truthy (startPubkey opts)).
  - simpl. split; [intros [<- | []]; reflexivity|]. intros ->. now left.
  - destruct (addSeed_fold
                (query 0 (mkFilter [3] None (Some (default 100 (opt_limit opts)))))
                (mkCollector [] [] [] [] 1 []) eq_refl) as [_ B].
    rewrite B. simpl. split; [intros [[]|H]; exact H|]. auto.
Qed.

(** X6: with a depth of 0 no contact list is fetched for any identity: the
    snapshot has no link, and the identities of its nodes are exactly the
    identities the run started from (the root, or the authors of the
    records of the first query): every node is one of them, and each of
    them is a node. *)
Theorem depth_zero_only_seeds query opts fuel g :
  depth opts = Some 0 ->
  useWebOfTrust query opts fuel = Some g ->
  links g = [] /\
  forall x, In x (map id (nodes g)) <-> seedIdentity query opts x.
Proof.
  intros Hd. unfold useWebOfTrust.
  destruct (collect query opts fuel) as [st|] eqn:Hc; [|discriminate].
  intro Hg. injection Hg as <-.
  pose proof (collect_sound query opts fuel st Hc) as Hs.
  assert (H : linksMap st = [] /\
              forall k, In k (mkeys (nodesMap st)) <-> seedIdentity query opts k).
  { unfold collect in Hc. rewrite Hd in Hc. simpl in Hc.
    refine (drain_invariant query
              (fun st => linksMap st = [] /\
                 forall k, In k (mkeys (nodesMap st)) <-> seedIdentity query opts k)
              _ _ _ _ _ _ Hc).
    - intros s Hs0. unfold processBatch. simpl. exact Hs0.
    - split; [apply seed_sound|]. apply seed_seeds. }
  destruct H as [Hl Hn]. split.
  - rewrite analyse_links, Hl. reflexivity.
  - intro x.
    rewrite (analyse_ids (referenceUser opts) (nodesMap st) (linksMap st))
      by apply (nodes_ok_id st Hs).
    apply Hn.
Qed.

Lemma depth_zero_only_seeds_witness :
  exists g,
    useWebOfTrust (relay [contacts "A" ["B"%string]; contacts "B" ["C"%string]])
      (mkOptions None (Some 0) None None) 2 = Some g /\
    map id (nodes g) = [Some "A"%string; Some "B"%string] /\
    links g = [] /\
    forall x, In x (map id (nodes g)) <->
      seedIdentity (relay [contacts "A" ["B"%string]; contacts "B" ["C"%string]])
        (mkOptions None (Some 0) None None) x.
Proof.
  eexists. split; [vm_compute; reflexivity|]. split; [reflexivity|].
  exact (depth_zero_only_seeds
           (relay [contacts "A" ["B"%string]; contacts "B" ["C"%string]])
           (mkOptions None (Some 0) None None) 2 _
           eq_refl ltac:(vm_compute; reflexivity)).
Defined.

(** X7: without a root, when the first query returns no record, the
    snapshot is empty and all its statistics are zero, with any number of
    iterations allowed to the loop. *)
Theorem empty_answer_empty_snapshot query opts fuel :
  truthy (startPubkey opts) = false ->
  query 0 (mkFilter [3] None (Some (default 100 (opt_limit opts)))) = [] ->
  useWebOfTrust query opts fuel = Some (mkGraph [] [] (mkStats 0 0 0 0 0)).
Proof.
  intros Ht Hq. unfold useWebOfTrust, collect, seed. rewrite Ht, Hq. simpl.
  destruct fuel; simpl; unfold analyse; simpl;
    destruct (truthy (referenceUser opts)); reflexivity.
Qed.

Lemma empty_answer_empty_snapshot_witness :
  useWebOfTrust (relay []) (mkOptions None None None (Some "A"%string)) 0
  = Some (mkGraph [] [] (mkStats 0 0 0 0 0)).
Proof.
  exact (empty_answer_empty_snapshot (relay [])
           (mkOptions None None None (Some "A"%string)) 0 eq_refl eq_refl).
Defined.

(** ** Depth 1 from a root *)

Lemma addFollowed_star r lv st (x : Ident) :
  Star (Some r) st -> Star (Some r) (addFollowed r lv 1 st x).
Proof.
  intros [Hq Hl]. split.
  - intros p Hp. apply Hq.
    destruct (addFollowed_pending r lv 1 st x) as (_ & l & Hq' & Hl').
    assert (l = []).
    { apply (Forall_nil_of_false _ _ Hl'). simpl. intros y [Hy Hlt]. lia. }
    subst l. rewrite app_nil_r in Hq'. now rewrite Hq' in Hp.
  - intros k l Hin. apply addFollowed_links in Hin.
    destruct Hin as [Hin | [_ ->]]; [eauto|reflexivity].
Qed.

Lemma processEvent_star r lv st e :
  pubkey e = r ->
  Star (Some r) st -> Star (Some r) (processEvent lv 1 st e).
Proof.
  intros He Hs. unfold processEvent. apply fold_left_invariant.
  - exact Hs.
  - intros s x _ Hs0. rewrite He. now apply addFollowed_star.
Qed.

Lemma processBatch_star query r st :
  answersAuthors query ->
  Star (Some r) st -> Star (Some r) (processBatch query 1 st).
Proof.
  intros Hq [Hp Hl]. unfold processBatch.
  assert (Hrest : forall p, In p (skipn 50 (toProcess st)) ->
                            pending_pubkey p = Some r).
  { intros p Hin. apply Hp.
    rewrite <- (firstn_skipn 50 (toProcess st)). apply in_or_app. auto. }
  destruct (_ <=? _); [now split|].
  set (batch := firstn 50 (toProcess st)).
  set (f := mkFilter [3] (Some (map pending_pubkey batch)) (Some 1)).
  apply fold_left_invariant; [now split|].
  intros s e Hin Hs. apply processEvent_star; [|exact Hs].
  apply (Hq _ f _ e eq_refl) in Hin. apply in_map_iff in Hin.
  destruct Hin as (p & Hpk & Hin).
  assert (pending_pubkey p = Some r).
  { apply Hp. rewrite <- (firstn_skipn 50 (toProcess st)).
    apply in_or_app. now left. }
  congruence.
Qed.

(** X8: with a root and a depth of 1, against a relay that answers a
    query for a set of authors only with records of those authors, every
    link of the snapshot starts at the root: the snapshot shows the root
    and the identities its contact list names. *)
Theorem depth_one_star query opts fuel g :
  answersAuthors query ->
  truthy (startPubkey opts) = true ->
  depth opts = Some 1 ->
  useWebOfTrust query opts fuel = Some g ->
  (forall l, In l (links g) -> source l = startPubkey opts) /\
  (forall n, In n (nodes g) ->
     id n = startPubkey opts \/ named query (id n)).
Proof.
  intros Hq Ht Hd Hg.
  unfold useWebOfTrust in Hg.
  destruct (collect query opts fuel) as [st|] eqn:Hc; [|discriminate].
  injection Hg as <-.
  destruct (collect_origin query opts fuel st Hc) as [_ Hnodes].
  pose proof (collect_sound query opts fuel st Hc) as Hsound.
  destruct (startPubkey opts) as [r|] eqn:Er; [|discriminate].
  assert (Hs : Star (Some r) st).
  { unfold collect in Hc. rewrite Hd in Hc. simpl in Hc.
    refine (drain_invariant query (Star (Some r)) _
              (fun s => processBatch_star query r s Hq) _ _ _ _ Hc).
    unfold seed. rewrite Er, Ht. split; simpl.
    - intros p [<- | []]. reflexivity.
    - intros k l []. }
  split.
  - intros l Hl. apply snapshot_link_origin in Hl.
    destruct Hl as (i & k & l0 & _ & H0 & Hsrc & _).
    apply nth_error_In in H0. rewrite <- Hsrc. now apply (proj2 Hs k).
  - intros n Hn.
    assert (Hk : In (id n) (mkeys (nodesMap st))).
    { rewrite <- (analyse_ids (referenceUser opts) (nodesMap st) (linksMap st))
        by apply (nodes_ok_id st Hsound).
      now apply in_map. }
    destruct (Hnodes (id n) Hk) as [H | H]; [|now right].
    left. unfold seedIdentity in H. rewrite Er in H. now rewrite Ht in H.
Qed.

Lemma depth_one_star_witness :
  exists g,
    useWebOfTrust (relay [contacts "A" ["B"%string; "C"%string];
                          contacts "B" ["D"%string]])
      (mkOptions (Some "A"%string) (Some 1) None None) 2 = Some g /\
    map id (nodes g) = [Some "A"%string; Some "B"%string; Some "C"%string] /\
    (forall l, In l (links g) -> source l = Some "A"%string) /\
    (forall n, In n (nodes g) ->
       id n = Some "A"%string \/
       named (relay [contacts "A" ["B"%string; "C"%string];
                     contacts "B" ["D"%string]]) (id n)).
Proof.
  eexists. split; [vm_compute; reflexivity|]. split; [reflexivity|].
  exact (depth_one_star
           (relay [contacts "A" ["B"%string; "C"%string];
                   contacts "B" ["D"%string]])
           (mkOptions (Some "A"%string) (Some 1) None None) 2 _
           (relay_answersAuthors _) eq_refl eq_refl
           ltac:(vm_compute; reflexivity)).
Defined.

(** ** The root *)

Lemma addFollowed_rootFirst root author lv dep st x :
  RootFirst root st -> RootFirst root (addFollowed author lv dep st x).
Proof.
  intros (n & rest & Hn & Hv). unfold addFollowed, RootFirst.
  rewrite Hn. cbn [mget mset].
  destruct (keqb x root) eqn:E.
  - apply keqb_eq in E. subst x. simpl.
    exists (bump n), rest. split; [reflexivity|].
    simpl. apply Q.min_glb; lra.
  - destruct (mget x rest); simpl; eauto.
Qed.

Lemma collect_rootFirst query opts fuel st :
  truthy (startPubkey opts) = true ->
  collect query opts fuel = Some st -> RootFirst (startPubkey opts) st.
Proof.
  intros Ht Hc. unfold collect in Hc.
  refine (drain_invariant query (RootFirst (startPubkey opts)) _ _ _ _ _ _ Hc).
  - intros s Hs. unfold processBatch. destruct (_ <=? _).
    + destruct Hs as (n & rest & Hn & Hv). exists n, rest. auto.
    + apply fold_left_invariant.
      * destruct Hs as (n & rest & Hn & Hv). exists n, rest. auto.
      * intros s1 e _ H1. unfold processEvent. apply fold_left_invariant.
        -- destruct H1 as (n & rest & Hn & Hv). exists n, rest. auto.
        -- intros s2 x _ H2. now apply addFollowed_rootFirst.
  - unfold seed. rewrite Ht. eexists. eexists. split; [reflexivity|].
    simpl. lra.
Qed.

Lemma snapshot_val_at r nm lm i n :
  (forall k n0, In (k, n0) nm -> id n0 = k) ->
  nth_error (nodes (analyse r nm lm)) i = Some n ->
  exists n0, nth_error nm i = Some (id n, n0) /\ (val n0 <= val n)%Q.
Proof.
  intros Hid Hn.
  destruct (snapshot_node_at _ _ _ _ _ Hn) as (k & n0 & n1 & H0 & H1 & Hcore & Hsh).
  apply core_eq in Hcore. destruct Hcore as (_ & Hid1 & Hv & _).
  apply shape_eq in Hsh. destruct Hsh as (Hi & Hval & _).
  exists n0. split.
  - rewrite Hi, classify_id, Hid1. apply nth_error_In in H0 as Hin.
    now rewrite (Hid _ _ Hin).
  - rewrite Hval, <- Hv. apply classify_val.
Qed.

(** X9: when a root is given, the root is the first node of the snapshot,
    whatever the relays answer; its importance is 10 or more, and no other
    node has its identity. *)
Theorem root_heads_snapshot query opts fuel g :
  truthy (startPubkey opts) = true ->
  useWebOfTrust query opts fuel = Some g ->
  exists n rest,
    nodes g = n :: rest /\ id n = startPubkey opts /\ (10 <= val n)%Q /\
    forall m, In m rest -> id m <> startPubkey opts.
Proof.
  intros Ht. unfold useWebOfTrust.
  destruct (collect query opts fuel) as [st|] eqn:Hc; [|discriminate].
  intro Hg. injection Hg as <-.
  pose proof (collect_sound query opts fuel st Hc) as Hs.
  destruct (collect_rootFirst query opts fuel st Ht Hc) as (n0 & rest0 & Hn0 & Hv).
  assert (H0 : nth_error (nodesMap st) 0 = Some (startPubkey opts, n0))
    by now rewrite Hn0.
  destruct (snapshot_node_of (referenceUser opts) _ (linksMap st) _ _ _ H0)
    as (n & Hn).
  destruct (snapshot_val_at _ _ _ _ _ (nodes_ok_id st Hs) Hn) as (n0' & H0' & Hle).
  rewrite H0 in H0'. injection H0' as Hid <-.
  assert (ND : NoDup (map id (nodes (analyse (referenceUser opts)
                                       (nodesMap st) (linksMap st))))).
  { rewrite analyse_ids by apply (nodes_ok_id st Hs). apply (nodes_nodup _ Hs). }
  destruct (nodes (analyse (referenceUser opts) (nodesMap st) (linksMap st)))
    as [|m rest]; [discriminate|].
  simpl in Hn. injection Hn as ->.
  exists n, rest. split; [reflexivity|]. split; [congruence|]. split; [lra|].
  intros m Hm Heq. simpl in ND. inversion ND as [|? ? Hnot _]; subst.
  apply Hnot. rewrite <- Hid, <- Heq. now apply in_map.
Qed.

Lemma root_heads_snapshot_witness :
  exists g,
    useWebOfTrust (relay [contacts "A" ["B"%string; "A"%string]])
      (mkOptions (Some "A"%string) (Some 2) None None) 3 = Some g /\
    exists n rest,
      nodes g = n :: rest /\ id n = Some "A"%string /\ (10 <= val n)%Q /\
      forall m, In m rest -> id m <> Some "A"%string.
Proof.
  eexists. split; [vm_compute; reflexivity|].
  exact (root_heads_snapshot
           (relay [contacts "A" ["B"%string; "A"%string]])
           (mkOptions (Some "A"%string) (Some 2) None None) 3 _
           eq_refl ltac:(vm_compute; reflexivity)).
Defined.

(** ** Every node is reached from the root *)

Lemma follows_transfer ls ls' r x :
  (forall l, In l ls ->
     exists l', In l' ls' /\ source l' = source l /\ target l' = target l) ->
  follows ls r x -> follows ls' r x.
Proof.
  intros H Hf. induction Hf as [|x l Hf IH Hin Hsrc].
  - constructor.
  - destruct (H l Hin) as (l' & Hin' & Hs & Ht). rewrite <- Ht.
    apply (follows_step ls' r x l' IH Hin'). congruence.
Qed.

Lemma follows_incl ls ls' r x :
  incl ls ls' -> follows ls r x -> follows ls' r x.
Proof.
  intro H. apply follows_transfer. intros l Hl. exists l. auto.
Qed.

Lemma addFollowed_linksMap author lv dep st (x : Ident) :
  linksMap (addFollowed author lv dep st x) =
  if mhas (linkId (Some author) x) (linksMap st) then linksMap st
  else mset (linkId (Some author) x) (mkLink (Some author) x false) (linksMap st).
Proof. unfold addFollowed. now destruct (mget x (nodesMap st)). Qed.

Lemma addFollowed_links_keep author lv dep st (x : Ident) k l :
  In (k, l) (linksMap st) ->
  In (k, l) (linksMap (addFollowed author lv dep st x)).
Proof.
  intro Hin. rewrite addFollowed_linksMap.
  destruct (mhas _ (linksMap st)) eqn:E; [exact Hin|].
  apply In_mset_other; [|exact Hin].
  intros ->. apply mhas_false in E. apply E.
  unfold mkeys. now apply (in_map fst) in Hin.
Qed.

Lemma addFollowed_link_present author lv dep st (x : Ident) :
  Sound st ->
  (forall k l, In (k, l) (linksMap st) ->
               (exists s, source l = Some s /\ plainString s = true) /\
               target l <> None) ->
  plainString author = true -> x <> None ->
  exists k l, In (k, l) (linksMap (addFollowed author lv dep st x)) /\
              source l = Some author /\ target l = x.
Proof.
  intros Hs Hwf Hpa Hx.
  destruct (mhas (linkId (Some author) x) (linksMap st)) eqn:E.
  - unfold mhas in E.
    destruct (mget (linkId (Some author) x) (linksMap st)) as [l|] eqn:Hg;
      [|discriminate].
    apply mget_In in Hg.
    destruct (links_ok st Hs _ _ Hg) as (Hk & _).
    destruct (Hwf _ _ Hg) as ((s & Hsrc & Hps) & Htgt).
    destruct (target l) as [t|] eqn:Et; [|congruence].
    destruct x as [x'|]; [|congruence].
    rewrite Hsrc in Hk. unfold linkId in Hk. simpl in Hk.
    apply arrow_inj in Hk; auto. destruct Hk as [-> ->].
    exists (linkId (Some s) (Some t)), l. split.
    + now apply addFollowed_links_keep.
    + auto.
  - exists (linkId (Some author) x), (mkLink (Some author) x false). split.
    + rewrite addFollowed_linksMap, E.
      apply mget_In. rewrite mget_mset, keqb_refl. reflexivity.
    + auto.
Qed.

Lemma addFollowed_rooted root author lv dep st (x : Ident) :
  Sound st -> plainString author = true -> x <> None ->
  In (Some author) (mkeys (nodesMap st)) ->
  Rooted root st -> Rooted root (addFollowed author lv dep st x).
Proof.
  intros Hs Hpa Hx Ha [Hreach Hwf].
  assert (Hincl : incl (mvalues (linksMap st))
                       (mvalues (linksMap (addFollowed author lv dep st x)))).
  { intros l Hl. unfold mvalues in *. apply in_map_iff in Hl.
    destruct Hl as ([k l'] & <- & Hin). simpl.
    apply (in_map snd) in Hin as H0.
    apply (addFollowed_links_keep author lv dep st x) in Hin.
    now apply (in_map snd) in Hin. }
  split.
  - intros k Hk. apply addFollowed_nodes in Hk. destruct Hk as [-> | Hk].
    + destruct (addFollowed_link_present author lv dep st x Hs Hwf Hpa Hx)
        as (k & l & Hin & Hsrc & Htgt).
      subst x. apply (follows_step _ root (Some author) l).
      * eapply follows_incl; [exact Hincl|]. now apply Hreach.
      * unfold mvalues. now apply (in_map snd) in Hin.
      * exact Hsrc.
    + eapply follows_incl; [exact Hincl|]. now apply Hreach.
  - intros k l Hin. apply addFollowed_links in Hin.
    destruct Hin as [Hin | [_ ->]]; [eauto|]. simpl. split; eauto.
Qed.

Lemma processEvent_rooted root lv dep st e :
  wellFormed e -> Sound st ->
  In (Some (pubkey e)) (mkeys (nodesMap st)) ->
  Rooted root st -> Rooted root (processEvent lv dep st e).
Proof.
  intros [Hpa Htags] Hs Ha Hr. unfold processEvent.
  apply (fold_left_invariant
           (fun s => Sound s /\ In (Some (pubkey e)) (mkeys (nodesMap s)) /\
                     Rooted root s)).
  - split; [|split]; try assumption. destruct Hs. constructor; assumption.
  - intros s x Hx (A & B & C). split; [|split].
    + now apply addFollowed_sound.
    + now apply addFollowed_nodes_incl.
    + apply addFollowed_rooted; auto.
Qed.

Lemma processBatch_rooted query root dep st :
  answersAuthors query -> servesWellFormed query ->
  Sound st -> Rooted root st -> Rooted root (processBatch query dep st).
Proof.
  intros Hq Hw Hs Hr. unfold processBatch.
  assert (Hrest : forall p, In p (skipn 50 (toProcess st)) ->
                            In (pending_pubkey p) (mkeys (nodesMap st))).
  { intros p Hin. apply (queue_ok _ Hs).
    rewrite <- (firstn_skipn 50 (toProcess st)). apply in_or_app. auto. }
  destruct (_ <=? _); [exact Hr|].
  set (batch := firstn 50 (toProcess st)).
  set (f := mkFilter [3] (Some (map pending_pubkey batch)) (Some 1)).
  apply (fold_left_invariant
           (fun s => Sound s /\ Rooted root s /\
                     incl (mkeys (nodesMap st)) (mkeys (nodesMap s)))).
  - split; [|split]; [|exact Hr|apply incl_refl].
    destruct Hs. constructor; assumption.
  - intros s e Hin (A & B & C). split; [|split].
    + now apply processEvent_sound.
    + apply processEvent_rooted; auto.
      * apply (Hw _ _ _ Hin).
      * apply C. apply (Hq _ f _ e eq_refl) in Hin.
        apply in_map_iff in Hin. destruct Hin as (p & Hp & Hin).
        rewrite <- Hp. apply (queue_ok _ Hs).
        rewrite <- (firstn_skipn 50 (toProcess st)). apply in_or_app. auto.
    + eapply incl_tran; [exact C|]. apply processEvent_nodes_incl.
Qed.

Lemma collect_rooted query opts fuel st :
  answersAuthors query -> servesWellFormed query ->
  truthy (startPubkey opts) = true ->
  collect query opts fuel = Some st -> Rooted (startPubkey opts) st.
Proof.
  intros Hq Hw Ht Hc. unfold collect in Hc.
  assert (H : Sound st /\ Rooted (startPubkey opts) st); [|apply H].
  refine (drain_invariant query
            (fun st => Sound st /\ Rooted (startPubkey opts) st) _ _ _ _ _ _ Hc).
  - intros s [A B]. split.
    + now apply processBatch_sound.
    + now apply processBatch_rooted.
  - split; [apply seed_sound|]. unfold seed. rewrite Ht. split; simpl.
    + intros k [<- | []]. constructor.
    + intros k l [].
Qed.

Lemma follows_hops ls r x : follows ls r x -> exists k, hops ls r k x.
Proof.
  induction 1 as [|x l Hf [k IH] Hin Hsrc].
  - exists 0. constructor.
  - exists (S k). apply (hops_S ls r k x); [exact IH|].
    exists l. split; [exact Hin|]. left. auto.
Qed.

Lemma relay_servesWellFormed db :
  forallb wellFormedb db = true -> servesWellFormed (relay db).
Proof.
  intros H n f e Hin.
  assert (Hdb : In e db).
  { unfold relay in Hin.
    assert (Hm : In e (match authors f with
                       | Some ps => filter (fun e => shas (Some (pubkey e)) ps) db
                       | None => db
                       end)).
    { destruct (limit f); [|exact Hin].
      rewrite <- (firstn_skipn n0 _). apply in_or_app. now left. }
    destruct (authors f); [|exact Hm]. now apply filter_In in Hm. }
  rewrite forallb_forall in H. apply H in Hdb.
  unfold wellFormedb in Hdb. apply andb_true_iff in Hdb.
  destruct Hdb as [A B]. split; [exact A|].
  intros t Ht ->. rewrite forallb_forall in B. now apply B in Ht.
Qed.

(** X10: when a root is given, the relay answers a query for a set of
    authors only with records of those authors, and the records it serves
    have plain keys as authors and a value in every "p" tag, every node of
    the snapshot is reached from the root along follow links of the
    snapshot; so, with the root as the reference, no node lacks a
    distance. *)
Theorem every_node_follows_root query opts fuel g :
  answersAuthors query -> servesWellFormed query ->
  truthy (startPubkey opts) = true ->
  useWebOfTrust query opts fuel = Some g ->
  (forall n, In n (nodes g) ->
             follows (links g) (startPubkey opts) (id n)) /\
  (referenceUser opts = startPubkey opts ->
   forall n, In n (nodes g) -> exists k, degreesFromRoot n = Some k).
Proof.
  intros Hq Hw Ht. unfold useWebOfTrust.
  destruct (collect query opts fuel) as [st|] eqn:Hc; [|discriminate].
  intro Hg. injection Hg as <-.
  pose proof (collect_sound _ _ _ _ Hc) as Hs.
  pose proof (collect_sourced _ _ _ _ Hq Hc) as Hsrc.
  destruct (collect_rooted _ _ _ _ Hq Hw Ht Hc) as [Hreach _].
  assert (Hfol : forall n,
            In n (nodes (analyse (referenceUser opts) (nodesMap st) (linksMap st))) ->
            follows (links (analyse (referenceUser opts) (nodesMap st) (linksMap st)))
                    (startPubkey opts) (id n)).
  { intros n Hn.
    apply (follows_transfer (mvalues (linksMap st))).
    - intros l Hl. unfold mvalues in Hl. apply in_map_iff in Hl.
      destruct Hl as ([k l0] & <- & Hin). simpl.
      apply In_nth_error in Hin. destruct Hin as [i Hi].
      destruct (snapshot_link_present (referenceUser opts) (nodesMap st) _ _ _ _ Hi)
        as (l & _ & Hl & Hsl & Htl).
      exists l. auto.
    - apply Hreach.
      rewrite <- (analyse_ids (referenceUser opts) (nodesMap st) (linksMap st))
        by apply (nodes_ok_id st Hs).
      now apply in_map. }
  split; [exact Hfol|].
  intros Hr n Hn.
  pose proof (Hfol n Hn) as Hf. apply follows_hops in Hf. destruct Hf as [k Hk].
  pose proof (analyse_no_dangling (referenceUser opts) st Hs Hsrc) as Hnd.
  rewrite analyse_nodes in Hn. rewrite analyse_links in *.
  simpl in Hn. rewrite Hr, Ht in Hn.
  apply calculateDegreesOfSeparation_spec in Hn.
  - destruct Hn as [_ B].
    destruct (degreesFromRoot n) as [d|]; [now exists d|].
    exfalso. destruct B as [B _]. apply (B eq_refl k Hk).
  - rewrite (assignClusters_untouched id) by reflexivity.
    rewrite classified_ids by apply (nodes_ok_id st Hs).
    exact Hnd.
Qed.

Lemma every_node_follows_root_witness :
  exists g,
    useWebOfTrust (relay [contacts "A" ["B"%string]; contacts "B" ["C"%string]])
      (mkOptions (Some "A"%string) (Some 2) None (Some "A"%string)) 3 = Some g /\
    map degreesFromRoot (nodes g) = [Some 0; Some 1; Some 2] /\
    (forall n, In n (nodes g) -> follows (links g) (Some "A"%string) (id n)) /\
    (Some "A"%string = Some "A"%string ->
     forall n, In n (nodes g) -> exists k, degreesFromRoot n = Some k).
Proof.
  eexists. split; [vm_compute; reflexivity|]. split; [reflexivity|].
  exact (every_node_follows_root
           (relay [contacts "A" ["B"%string]; contacts "B" ["C"%string]])
           (mkOptions (Some "A"%string) (Some 2) None (Some "A"%string)) 3 _
           (relay_answersAuthors _)
           (relay_servesWellFormed
              [contacts "A" ["B"%string]; contacts "B" ["C"%string]] eq_refl)
           eq_refl ltac:(vm_compute; reflexivity)).
Defined.

(** ** The importance is only raised *)

Lemma collected_bump n : collected n -> collected (bump n).
Proof. unfold collected. now destruct n. Qed.

Lemma addFollowed_collected author lv dep st x :
  (forall k n, In (k, n) (nodesMap st) -> collected n) ->
  forall k n, In (k, n) (nodesMap (addFollowed author lv dep st x)) -> collected n.
Proof.
  intros H k n. unfold addFollowed.
  destruct (mget x (nodesMap st)) as [node|] eqn:Hg; simpl; intro Hin;
    apply In_mset in Hin; destruct Hin as [[_ ->] | Hin]; eauto.
  - apply collected_bump. apply mget_In in Hg. eauto.
  - unfold collected, freshNode. simpl. auto.
Qed.

Lemma collect_collected query opts fuel st :
  collect query opts fuel = Some st ->
  forall k n, In (k, n) (nodesMap st) -> collected n.
Proof.
  unfold collect. intro Hc.
  refine (drain_invariant query
            (fun st => forall k n, In (k, n) (nodesMap st) -> collected n)
            _ _ _ _ _ _ Hc).
  - intros s Hs. unfold processBatch. destruct (_ <=? _); [exact Hs|].
    apply fold_left_invariant; [exact Hs|].
    intros s1 e _ H1. unfold processEvent.
    apply fold_left_invariant; [exact H1|].
    intros s2 x _ H2. now apply addFollowed_collected.
  - unfold seed. destruct (truthy _).
    + simpl. intros k n [H | []]. injection H as <- <-.
      unfold collected. simpl. auto.
    + apply fold_left_invariant; [intros k n []|].
      intros s e _ Hs k n. unfold addSeed. destruct (negb _); [|now apply Hs].
      simpl. intro Hin. apply In_mset in Hin.
      destruct Hin as [[_ ->] | Hin]; [|eauto].
      unfold collected. simpl. auto.
Qed.

Lemma hub_share td :
  10 <= td -> (2 <= Qmin (ofNat td / 5) 15)%Q.
Proof.
  intro H. apply Q.min_glb; [|lra].
  assert (H10 : (10 <= ofNat td)%Q).
  { unfold ofNat. change 10%Q with (inject_Z 10). rewrite <- Zle_Qle. lia. }
  apply Qle_shift_div_l; [reflexivity|]. lra.
Qed.

(** X11: the analytics never lower an importance.  The node at a position
    of the snapshot is the node the collector had at that position, with an
    importance that is not below the collected one.  For a node that is not
    a hub it is the larger of the collected importance and of
    3 + min(degree/2, 7), halves being exact; for a hub, whose share
    degree/5 is subject to rounding, it is at least 17 and at most the
    larger of the collected importance and 30. *)
Theorem importance_only_raised query opts fuel g :
  useWebOfTrust query opts fuel = Some g ->
  exists st,
    collect query opts fuel = Some st /\
    List.length (nodes g) = List.length (nodesMap st) /\
    forall i n, nth_error (nodes g) i = Some n ->
      exists n0,
        nth_error (nodesMap st) i = Some (id n, n0) /\
        (val n0 <= val n)%Q /\
        (isHub n = false ->
         val n = Qmax (val n0) (3 + Qmin (ofNat (totalDegree n) / 2) 7)%Q) /\
        (isHub n = true ->
         (17 <= val n)%Q /\ (val n <= Qmax (val n0) 30)%Q).
Proof.
  unfold useWebOfTrust. destruct (collect query opts fuel) as [st|] eqn:Hc;
    [|discriminate].
  intro Hg. injection Hg as <-. exists st. split; [reflexivity|].
  pose proof (collect_sound query opts fuel st Hc) as Hs.
  split.
  - rewrite <- (length_map id), analyse_ids.
    + unfold mkeys. now rewrite length_map.
    + intros k n0 H0. now apply (nodes_ok st Hs).
  - intros i n Hn.
    destruct (snapshot_node_at _ _ _ _ _ Hn) as (k & n0 & n1 & H0 & H1 & Hcore & Hsh).
    set (t := (avgDegree (mvalues (fst (degreePass (nodesMap st) (linksMap st)))) * 2)%Q)
      in *.
    apply core_eq in Hcore. destruct Hcore as (_ & Hid1 & Hv & _).
    apply shape_eq in Hsh. destruct Hsh as (Hi & Hval & Hind & Hout & Hhub).
    assert (Hid : id n = k).
    { pose proof (nth_error_In _ _ H0) as Hin.
      destruct (nodes_ok st Hs _ _ Hin) as [Hk _].
      rewrite Hi, classify_id. congruence. }
    exists n0. rewrite Hid. split; [exact H0|].
    assert (Htd : totalDegree n = totalDegree n1).
    { unfold totalDegree. rewrite Hind, Hout. reflexivity. }
    destruct (classify_val t n1) as [Hlo Hhi].
    split; [|split].
    + rewrite Hval, <- Hv. exact Hlo.
    + rewrite Hval, Hhub, Htd, <- Hv. unfold classify. cbn [isHub val].
      destruct (Qle_bool t (ofNat (totalDegree n1)) && (10 <=? totalDegree n1));
        [discriminate|reflexivity].
    + rewrite Hval, Hhub, <- Hv. intro Hh. split; [|exact Hhi].
      revert Hh. unfold classify. cbn [isHub val].
      destruct (Qle_bool t (ofNat (totalDegree n1)) && (10 <=? totalDegree n1))
        eqn:E; [|discriminate].
      intros _. apply andb_true_iff in E. destruct E as [_ E].
      apply Nat.leb_le in E. pose proof (hub_share _ E) as Hq.
      eapply Qle_trans; [|apply Q.le_max_r]. lra.
Qed.

Lemma importance_only_raised_witness :
  exists g,
    useWebOfTrust (relay starRecords)
      (mkOptions (Some "r"%string) (Some 1) None None) 2 = Some g /\
    exists st,
      collect (relay starRecords)
        (mkOptions (Some "r"%string) (Some 1) None None) 2 = Some st /\
      List.length (nodes g) = List.length (nodesMap st) /\
      forall i n, nth_error (nodes g) i = Some n ->
        exists n0,
          nth_error (nodesMap st) i = Some (id n, n0) /\
          (val n0 <= val n)%Q /\
          (isHub n = false ->
           val n = Qmax (val n0) (3 + Qmin (ofNat (totalDegree n) / 2) 7)%Q) /\
          (isHub n = true ->
           (17 <= val n)%Q /\ (val n <= Qmax (val n0) 30)%Q).
Proof.
  eexists. split; [vm_compute; reflexivity|].
  exact (importance_only_raised (relay starRecords)
           (mkOptions (Some "r"%string) (Some 1) None None) 2 _
           ltac:(vm_compute; reflexivity)).
Defined.

(** ** Degrees count links *)

Lemma mget_nodeStep k nm s t :
  mget k (nodeStep nm (s, t)) =
  option_map (fun n => (if ident_eqb k t then incIn n else n))
    (option_map (fun n => (if ident_eqb k s then incOut n else n)) (mget k nm)).
Proof.
  unfold nodeStep. simpl fst. simpl snd. rewrite mget_mupdate.
  change (keqb k t) with (ident_eqb k t).
  destruct (ident_eqb k t) eqn:Et.
  - apply ident_eqb_eq in Et. subst t. rewrite mget_mupdate.
    change (keqb k s) with (ident_eqb k s).
    destruct (ident_eqb k s) eqn:Es.
    + apply ident_eqb_eq in Es. subst s. now destruct (mget k nm).
    + now destruct (mget k nm).
  - rewrite mget_mupdate. change (keqb k s) with (ident_eqb k s).
    destruct (ident_eqb k s) eqn:Es.
    + apply ident_eqb_eq in Es. subst s. now destruct (mget k nm).
    + now destruct (mget k nm).
Qed.

Lemma raise_nil k n : raise [] k n = n.
Proof.
  destruct n. unfold raise, arriving, leaving. simpl.
  now rewrite !Nat.add_0_r.
Qed.

Lemma raise_snoc ps s t k n :
  raise (ps ++ [(s, t)]) k n =
  (fun n => if ident_eqb k t then incIn n else n)
    ((fun n => if ident_eqb k s then incOut n else n) (raise ps k n)).
Proof.
  unfold raise, arriving, leaving. rewrite !filter_app, !length_app. simpl.
  destruct (ident_eqb k t), (ident_eqb k s); simpl;
    unfold incIn, incOut; simpl; f_equal; lia.
Qed.

Lemma firstn_snoc {A : Type} (l : list A) j x :
  nth_error l j = Some x -> firstn (S j) l = firstn j l ++ [x].
Proof.
  revert j. induction l as [|a l IH]; intros [|j] H; simpl in *;
    try discriminate.
  - now injection H as ->.
  - now rewrite (IH j H).
Qed.

Lemma degreeFold_nodes nm lm j :
  j <= List.length lm ->
  map ends (snd (fold_left degreeStep (seq 0 j) (nm, lm))) = map ends lm /\
  forall k,
    mget k (fst (fold_left degreeStep (seq 0 j) (nm, lm))) =
    option_map (raise (firstn j (map endpoints (mvalues lm))) k) (mget k nm).
Proof.
  induction j as [|j IH]; intro Hj.
  - simpl. split; [reflexivity|]. intro k.
    destruct (mget k nm); simpl; [|reflexivity]. now rewrite raise_nil.
  - destruct IH as [He Hm]; [lia|].
    rewrite seq_S, fold_left_app. cbn [fold_left Nat.add].
    set (st := fold_left degreeStep (seq 0 j) (nm, lm)) in *.
    destruct (nth_error lm j) as [[kj l0]|] eqn:H0;
      [|apply nth_error_None in H0; lia].
    destruct (ends_nth lm (snd st) j kj l0 (eq_sym He) H0)
      as (l & Hl & Hsrc & Htgt).
    split.
    + rewrite degreeStep_snd, linkStep_ends. exact He.
    + intro k. unfold degreeStep. rewrite Hl. simpl fst.
      change (mupdate (target l) incIn (mupdate (source l) incOut (fst st)))
        with (nodeStep (fst st) (source l, target l)).
      rewrite mget_nodeStep, Hm, Hsrc, Htgt.
      assert (Hp : nth_error (map endpoints (mvalues lm)) j =
                   Some (source l0, target l0)).
      { unfold mvalues. rewrite !nth_error_map, H0. reflexivity. }
      rewrite (firstn_snoc _ _ _ Hp).
      destruct (mget k nm); simpl; [|reflexivity].
      now rewrite raise_snoc.
Qed.

Lemma degreePass_counts nm lm k :
  mget k (fst (degreePass nm lm)) =
  option_map (raise (map endpoints (mvalues lm)) k) (mget k nm).
Proof.
  unfold degreePass.
  destruct (degreeFold_nodes nm lm (List.length lm) (le_n _)) as [_ H].
  rewrite H. rewrite firstn_all2; [reflexivity|].
  unfold mvalues. rewrite !length_map. lia.
Qed.

(** The degrees of the node at a position of the snapshot. *)
Lemma snapshot_degrees_at st r i n :
  Sound st ->
  (forall k n0, In (k, n0) (nodesMap st) -> collected n0) ->
  nth_error (nodes (analyse r (nodesMap st) (linksMap st))) i = Some n ->
  outDegree n = outgoing (links (analyse r (nodesMap st) (linksMap st))) (id n) /\
  inDegree n = incoming (links (analyse r (nodesMap st) (linksMap st))) (id n).
Proof.
  intros Hs Hcol Hn.
  destruct (snapshot_node_at _ _ _ _ _ Hn) as (k & n0 & n1 & H0 & H1 & Hcore & Hsh).
  apply shape_eq in Hsh. destruct Hsh as (Hi & _ & Hind & Hout & _).
  apply core_eq in Hcore. destruct Hcore as (_ & Hid1 & _).
  pose proof (nth_error_In _ _ H0) as Hin0.
  pose proof (nth_error_In _ _ H1) as Hin1.
  assert (Hk : id n = k).
  { rewrite Hi, classify_id, Hid1. apply (nodes_ok_id st Hs _ _ Hin0). }
  assert (Hnd1 : NoDup (mkeys (fst (degreePass (nodesMap st) (linksMap st))))).
  { destruct (degreePass_nodes (fun _ _ => True) (nodesMap st) (linksMap st))
      as [Hkeys _]; auto.
    rewrite Hkeys. apply (nodes_nodup st Hs). }
  pose proof (In_mget _ _ _ Hnd1 Hin1) as Hg1.
  rewrite degreePass_counts in Hg1.
  rewrite (In_mget _ _ _ (nodes_nodup st Hs) Hin0) in Hg1.
  simpl in Hg1. injection Hg1 as Hg1.
  destruct (Hcol _ _ Hin0) as (Hi0 & Ho0 & _).
  unfold outgoing, incoming. rewrite snapshot_endpoints, Hk.
  rewrite Hout, Hind. unfold classify. simpl. rewrite <- Hg1. simpl.
  rewrite Hi0, Ho0. auto.
Qed.

(** X12: in a snapshot, the out-degree of a node is the number of links
    whose source it is, and its in-degree the number of links whose target
    it is. *)
Theorem degrees_count_links query opts fuel g :
  useWebOfTrust query opts fuel = Some g ->
  forall n, In n (nodes g) ->
    outDegree n = outgoing (links g) (id n) /\
    inDegree n = incoming (links g) (id n).
Proof.
  unfold useWebOfTrust.
  destruct (collect query opts fuel) as [st|] eqn:Hc; [|discriminate].
  intro Hg. injection Hg as <-. intros n Hn.
  apply In_nth_error in Hn. destruct Hn as [i Hi].
  apply (snapshot_degrees_at st _ i).
  - apply (collect_sound _ _ _ _ Hc).
  - apply (collect_collected _ _ _ _ Hc).
  - exact Hi.
Qed.

Lemma degrees_count_links_witness :
  exists g,
    useWebOfTrust (relay [contacts "A" ["B"%string; "C"%string];
                          contacts "B" ["C"%string]])
      (mkOptions (Some "A"%string) (Some 2) None None) 3 = Some g /\
    map outDegree (nodes g) = [2; 1; 0] /\
    map inDegree (nodes g) = [0; 1; 2] /\
    forall n, In n (nodes g) ->
      outDegree n = outgoing (links g) (id n) /\
      inDegree n = incoming (links g) (id n).
Proof.
  eexists. split; [vm_compute; reflexivity|].
  split; [reflexivity|]. split; [reflexivity|].
  exact (degrees_count_links
           (relay [contacts "A" ["B"%string; "C"%string];
                   contacts "B" ["C"%string]])
           (mkOptions (Some "A"%string) (Some 2) None None) 3 _
           ltac:(vm_compute; reflexivity)).
Defined.

(** ** The sums of the degrees *)

Lemma list_sum_head a l : list_sum (a :: l) = a + list_sum l.
Proof. reflexivity. Qed.

Lemma list_sum_add {A : Type} (f g : A -> nat) l :
  list_sum (map (fun x => f x + g x) l) =
  list_sum (map f l) + list_sum (map g l).
Proof.
  induction l as [|x l IH]; [reflexivity|].
  cbn [map]. rewrite !list_sum_head, IH. lia.
Qed.

Lemma count_key (k : Ident) ids :
  NoDup ids ->
  list_sum (map (fun x => if ident_eqb x k then 1 else 0) ids) =
  if shas k ids then 1 else 0.
Proof.
  induction ids as [|x ids IH]; intro ND; [reflexivity|].
  inversion ND as [|? ? Hnot ND']; subst.
  cbn [map]. rewrite list_sum_head, (IH ND').
  change (shas k (x :: ids)) with (keqb k x || shas k ids).
  change (keqb k x) with (ident_eqb k x).
  destruct (ident_eqb x k) eqn:E.
  - apply ident_eqb_eq in E. subst x.
    assert (Hf : shas k ids = false) by now apply shas_false.
    assert (Hr : ident_eqb k k = true) by now apply ident_eqb_eq.
    rewrite Hf, Hr. reflexivity.
  - assert (Hr : ident_eqb k x = false).
    { destruct (ident_eqb k x) eqn:E'; [|reflexivity].
      apply ident_eqb_eq in E'. subst x.
      assert (ident_eqb k k = true) by now apply ident_eqb_eq. congruence. }
    now rewrite Hr.
Qed.

Lemma list_sum_zero {A : Type} (l : list A) :
  list_sum (map (fun _ => 0) l) = 0.
Proof. induction l as [|x l IH]; [reflexivity|exact IH]. Qed.

Lemma leaving_sum ps ids :
  NoDup ids ->
  list_sum (map (leaving ps) ids) =
  List.length (filter (fun p => shas (fst p) ids) ps).
Proof.
  intro ND. induction ps as [|p ps IH].
  - apply list_sum_zero.
  - transitivity (list_sum (map (fun x => (if ident_eqb x (fst p) then 1 else 0)
                                          + leaving ps x) ids)).
    + f_equal. apply map_ext. intro x. unfold leaving. cbn [filter].
      destruct (ident_eqb x (fst p)); reflexivity.
    + rewrite list_sum_add, IH, count_key by exact ND. cbn [filter].
      destruct (shas (fst p) ids); reflexivity.
Qed.

Lemma arriving_sum ps ids :
  NoDup ids ->
  list_sum (map (arriving ps) ids) =
  List.length (filter (fun p => shas (snd p) ids) ps).
Proof.
  intro ND. induction ps as [|p ps IH].
  - apply list_sum_zero.
  - transitivity (list_sum (map (fun x => (if ident_eqb x (snd p) then 1 else 0)
                                          + arriving ps x) ids)).
    + f_equal. apply map_ext. intro x. unfold arriving. cbn [filter].
      destruct (ident_eqb x (snd p)); reflexivity.
    + rewrite list_sum_add, IH, count_key by exact ND. cbn [filter].
      destruct (shas (snd p) ids); reflexivity.
Qed.

Lemma snapshot_degree_lists st r :
  Sound st ->
  (forall k n0, In (k, n0) (nodesMap st) -> collected n0) ->
  let g := analyse r (nodesMap st) (linksMap st) in
  map outDegree (nodes g) =
    map (leaving (map endpoints (links g))) (map id (nodes g)) /\
  map inDegree (nodes g) =
    map (arriving (map endpoints (links g))) (map id (nodes g)).
Proof.
  intros Hs Hcol g. rewrite !map_map. split; apply map_ext_in; intros n Hn;
    apply In_nth_error in Hn; destruct Hn as [i Hi];
    now destruct (snapshot_degrees_at st r i n Hs Hcol Hi).
Qed.

(** X13: in a snapshot the in-degrees of the nodes add up to the number
    of links; the out-degrees add up to at most that number, and to
    exactly that number when the relay answers a query for a set of
    authors only with records of those authors. *)
Theorem degree_sums query opts fuel g :
  useWebOfTrust query opts fuel = Some g ->
  list_sum (map inDegree (nodes g)) = totalLinks (stats g) /\
  list_sum (map outDegree (nodes g)) <= totalLinks (stats g) /\
  (answersAuthors query ->
   list_sum (map outDegree (nodes g)) = totalLinks (stats g)).
Proof.
  unfold useWebOfTrust.
  destruct (collect query opts fuel) as [st|] eqn:Hc; [|discriminate].
  intro Hg. injection Hg as <-.
  pose proof (collect_sound _ _ _ _ Hc) as Hs.
  pose proof (collect_collected _ _ _ _ Hc) as Hcol.
  destruct (snapshot_degree_lists st (referenceUser opts) Hs Hcol) as [Ho Hi].
  set (g := analyse (referenceUser opts) (nodesMap st) (linksMap st)) in *.
  assert (Ht : totalLinks (stats g) = List.length (map endpoints (links g))).
  { rewrite length_map. unfold g, analyse. destruct (degreePass _ _).
    reflexivity. }
  assert (ND : NoDup (map id (nodes g))).
  { unfold g. rewrite analyse_ids by apply (nodes_ok_id st Hs).
    apply (nodes_nodup _ Hs). }
  assert (Hids : map id (nodes g) = mkeys (nodesMap st))
    by (unfold g; apply analyse_ids, (nodes_ok_id st Hs)).
  assert (Hends : map endpoints (links g) = map endpoints (mvalues (linksMap st)))
    by (unfold g; apply snapshot_endpoints).
  rewrite Ht, Ho, Hi, leaving_sum, arriving_sum by exact ND.
  split; [|split].
  - f_equal. apply filter_all. intros p Hp. apply shas_In.
    rewrite Hids. rewrite Hends in Hp. unfold mvalues in Hp.
    rewrite map_map in Hp. apply in_map_iff in Hp.
    destruct Hp as ([k l] & <- & Hin). simpl.
    now destruct (links_ok st Hs k l Hin) as (_ & A & _).
  - apply filter_length_le.
  - intro Hq. pose proof (collect_sourced _ _ _ _ Hq Hc) as Hsrc.
    f_equal. apply filter_all. intros p Hp. apply shas_In.
    rewrite Hids. rewrite Hends in Hp. unfold mvalues in Hp.
    rewrite map_map in Hp. apply in_map_iff in Hp.
    destruct Hp as ([k l] & <- & Hin). simpl. now apply (Hsrc k l).
Qed.

Lemma degree_sums_witness :
  exists g,
    useWebOfTrust (relay [contacts "A" ["B"%string; "C"%string];
                          contacts "B" ["C"%string]])
      (mkOptions (Some "A"%string) (Some 2) None None) 3 = Some g /\
    totalLinks (stats g) = 3 /\
    list_sum (map inDegree (nodes g)) = totalLinks (stats g) /\
    list_sum (map outDegree (nodes g)) <= totalLinks (stats g) /\
    (answersAuthors (relay [contacts "A" ["B"%string; "C"%string];
                            contacts "B" ["C"%string]]) ->
     list_sum (map outDegree (nodes g)) = totalLinks (stats g)).
Proof.
  eexists. split; [vm_compute; reflexivity|]. split; [reflexivity|].
  exact (degree_sums
           (relay [contacts "A" ["B"%string; "C"%string];
                   contacts "B" ["C"%string]])
           (mkOptions (Some "A"%string) (Some 2) None None) 3 _
           ltac:(vm_compute; reflexivity)).
Defined.

(** ** Hubs *)

Lemma threshold_test S N td :
  0 < N ->
  Qle_bool (ofNat S / ofNat N * 2)%Q (ofNat td) = true <-> 2 * S <= td * N.
Proof.
  intro HN. rewrite Qle_bool_iff.
  assert (Hpos : (0 < ofNat N)%Q).
  { unfold ofNat. change 0%Q with (inject_Z 0). rewrite <- Zlt_Qlt. lia. }
  rewrite <- (Qmult_le_r _ _ (ofNat N) Hpos).
  assert (E1 : (ofNat S / ofNat N * 2 * ofNat N == ofNat (2 * S))%Q).
  { unfold ofNat. rewrite Znat.Nat2Z.inj_mul, inject_Z_mult. simpl (Z.of_nat 2).
    field. intro H. rewrite H in Hpos. now apply Qlt_irrefl in Hpos. }
  assert (E2 : (ofNat td * ofNat N == ofNat (td * N))%Q).
  { unfold ofNat. now rewrite Znat.Nat2Z.inj_mul, inject_Z_mult. }
  rewrite E1, E2. unfold ofNat. rewrite <- Zle_Qle. lia.
Qed.

Lemma degree_sum ns : forall a,
  fold_left (fun sum n => sum + inDegree n + outDegree n) ns a =
  a + list_sum (map totalDegree ns).
Proof.
  induction ns as [|n ns IH]; intro a; simpl; [lia|].
  rewrite IH. unfold totalDegree. lia.
Qed.

Lemma snapshot_totalDegrees r nm lm :
  map totalDegree (nodes (analyse r nm lm)) =
  map totalDegree (mvalues (fst (degreePass nm lm))).
Proof.
  rewrite (analyse_untouched totalDegree) by reflexivity.
  unfold classified, hubPass. rewrite map_map. now apply map_ext.
Qed.

Lemma snapshot_hub_at r nm lm i n :
  nth_error (nodes (analyse r nm lm)) i = Some n ->
  (isHub n = true <->
   10 <= totalDegree n /\
   2 * list_sum (map totalDegree (nodes (analyse r nm lm)))
     <= totalDegree n * List.length (nodes (analyse r nm lm))).
Proof.
  intro Hn.
  destruct (snapshot_node_at _ _ _ _ _ Hn) as (k & n0 & n1 & H0 & H1 & _ & Hsh).
  apply shape_eq in Hsh. destruct Hsh as (_ & _ & Hind & Hout & Hhub).
  assert (Htd : totalDegree n = totalDegree n1).
  { unfold totalDegree. rewrite Hind, Hout. reflexivity. }
  assert (Hlen : List.length (nodes (analyse r nm lm)) =
                 List.length (mvalues (fst (degreePass nm lm)))).
  { rewrite <- (length_map totalDegree), snapshot_totalDegrees.
    now rewrite length_map. }
  assert (Hpos : 0 < List.length (nodes (analyse r nm lm))).
  { assert (Hi : i < List.length (nodes (analyse r nm lm)))
      by (apply nth_error_Some; congruence).
    lia. }
  rewrite Hhub. unfold classify, avgDegree. cbn [isHub].
  rewrite degree_sum, <- (snapshot_totalDegrees r), <- Hlen, <- Htd.
  cbn [Nat.add].
  rewrite andb_true_iff, Nat.leb_le, threshold_test by exact Hpos.
  tauto.
Qed.

(** X14: a node of a snapshot is a hub exactly when its total degree is
    at least 10 and at least twice the average total degree of the nodes
    of the snapshot (in integers: the degree times the number of nodes is
    at least twice the sum of the degrees). *)
Theorem hubs_characterised query opts fuel g :
  useWebOfTrust query opts fuel = Some g ->
  forall n, In n (nodes g) ->
    (isHub n = true <->
     10 <= totalDegree n /\
     2 * list_sum (map totalDegree (nodes g))
       <= totalDegree n * List.length (nodes g)).
Proof.
  unfold useWebOfTrust.
  destruct (collect query opts fuel) as [st|]; [|discriminate].
  intro Hg. injection Hg as <-. intros n Hn.
  apply In_nth_error in Hn. destruct Hn as [i Hi].
  now apply (snapshot_hub_at _ _ _ i).
Qed.

Lemma hubs_characterised_witness :
  exists g,
    useWebOfTrust (relay starRecords)
      (mkOptions (Some "r"%string) (Some 1) None None) 2 = Some g /\
    hubs (stats g) = 1 /\
    forall n, In n (nodes g) ->
      (isHub n = true <->
       10 <= totalDegree n /\
       2 * list_sum (map totalDegree (nodes g))
         <= totalDegree n * List.length (nodes g)).
Proof.
  eexists. split; [vm_compute; reflexivity|]. split; [reflexivity|].
  exact (hubs_characterised (relay starRecords)
           (mkOptions (Some "r"%string) (Some 1) None None) 2 _
           ltac:(vm_compute; reflexivity)).
Defined.

Lemma hub_sums ns S N :
  (forall n, In n ns -> isHub n = true ->
             1 <= totalDegree n /\ 2 * S <= totalDegree n * N) ->
  2 * S * List.length (filter isHub ns)
    <= list_sum (map totalDegree (filter isHub ns)) * N /\
  List.length (filter isHub ns) <= list_sum (map totalDegree (filter isHub ns)) /\
  list_sum (map totalDegree (filter isHub ns)) <= list_sum (map totalDegree ns).
Proof.
  induction ns as [|n ns IH]; intro H; [simpl; lia|].
  destruct IH as (A & B & C); [intros m Hm; apply H; now right|].
  cbn [filter]. destruct (isHub n) eqn:Eh;
    cbn [map List.length]; rewrite ?list_sum_head.
  - destruct (H n (or_introl eq_refl) Eh) as [H1 H2]. repeat split; nia.
  - repeat split; lia.
Qed.

(** X15: at most half of the nodes of a snapshot are hubs: twice
    [stats.hubs] is at most [stats.totalNodes]. *)
Theorem hubs_at_most_half query opts fuel g :
  useWebOfTrust query opts fuel = Some g ->
  2 * hubs (stats g) <= totalNodes (stats g).
Proof.
  unfold useWebOfTrust.
  destruct (collect query opts fuel) as [st|]; [|discriminate].
  intro Hg. injection Hg as <-.
  set (g := analyse (referenceUser opts) (nodesMap st) (linksMap st)).
  assert (Hh : hubs (stats g) = List.length (filter isHub (nodes g)))
    by (unfold g, analyse; destruct (degreePass _ _); reflexivity).
  assert (Hn : totalNodes (stats g) = List.length (nodes g))
    by (unfold g, analyse; destruct (degreePass _ _); reflexivity).
  rewrite Hh, Hn.
  destruct (hub_sums (nodes g) (list_sum (map totalDegree (nodes g)))
              (List.length (nodes g))) as (A & B & C).
  { intros n Hin Hhub. apply In_nth_error in Hin. destruct Hin as [i Hi].
    apply (snapshot_hub_at _ _ _ i n Hi) in Hhub.
    destruct Hhub as [H1 H2]. split; [lia|exact H2]. }
  set (S := list_sum (map totalDegree (nodes g))) in *.
  set (T := list_sum (map totalDegree (filter isHub (nodes g)))) in *.
  destruct (Nat.eq_dec S 0) as [E | E]; [lia|].
  assert (H0 : S * (2 * List.length (filter isHub (nodes g)))
               <= S * List.length (nodes g)) by nia.
  apply Nat.mul_le_mono_pos_l in H0; lia.
Qed.

Lemma hubs_at_most_half_witness :
  exists g,
    useWebOfTrust (relay starRecords)
      (mkOptions (Some "r"%string) (Some 1) None None) 2 = Some g /\
    hubs (stats g) = 1 /\ totalNodes (stats g) = 31 /\
    2 * hubs (stats g) <= totalNodes (stats g).
Proof.
  eexists. split; [vm_compute; reflexivity|].
  split; [reflexivity|]. split; [reflexivity|].
  exact (hubs_at_most_half (relay starRecords)
           (mkOptions (Some "r"%string) (Some 1) None None) 2 _
           ltac:(vm_compute; reflexivity)).
Defined.

(** ** The labels of the clusters are 0, 1, ..., clusters - 1 *)

Lemma seeds_firstn_le n log : seeds (firstn n log) <= seeds log.
Proof.
  unfold seeds. rewrite <- (firstn_skipn n log) at 2.
  rewrite filter_app, length_app. lia.
Qed.

Lemma seeds_cons e log :
  seeds (e :: log) = (if isSeed e then 1 else 0) + seeds log.
Proof. unfold seeds. simpl. now destruct (isSeed e). Qed.

Lemma seeds_nth log : forall c,
  c < seeds log ->
  exists j e, nth_error log j = Some e /\ isSeed e = true /\
              seeds (firstn (S j) log) = S c.
Proof.
  induction log as [|e log IH]; intros c Hc.
  - unfold seeds in Hc. simpl in Hc. lia.
  - rewrite seeds_cons in Hc. destruct (isSeed e) eqn:Es.
    + destruct c as [|c].
      * exists 0, e. split; [reflexivity|]. split; [exact Es|].
        change (firstn 1 (e :: log)) with [e]. rewrite seeds_cons, Es.
        reflexivity.
      * destruct (IH c) as (j & e' & Hj & He' & Hs); [lia|].
        exists (S j), e'. split; [exact Hj|]. split; [exact He'|].
        change (firstn (S (S j)) (e :: log)) with (e :: firstn (S j) log).
        rewrite seeds_cons, Es, Hs. reflexivity.
    + destruct (IH c Hc) as (j & e' & Hj & He' & Hs).
      exists (S j), e'. split; [exact Hj|]. split; [exact He'|].
      change (firstn (S (S j)) (e :: log)) with (e :: firstn (S j) log).
      rewrite seeds_cons, Es, Hs. reflexivity.
Qed.

Lemma NoDup_map_eq {A B : Type} (f : A -> B) (l : list A) x y :
  NoDup (map f l) -> In x l -> In y l -> f x = f y -> x = y.
Proof.
  induction l as [|a l IH]; intros ND Hx Hy E; [contradiction|].
  simpl in ND. inversion ND as [|? ? Hnot ND']; subst.
  destruct Hx as [-> | Hx], Hy as [-> | Hy]; auto.
  - exfalso. apply Hnot. rewrite E. now apply in_map.
  - exfalso. apply Hnot. rewrite <- E. now apply in_map.
Qed.

Lemma distinctLabels_spec ns :
  NoDup (distinctLabels ns) /\
  forall c, In c (distinctLabels ns) <->
            exists n, In n ns /\ cluster n = Some c.
Proof.
  unfold distinctLabels.
  assert (H : forall s,
            NoDup s ->
            NoDup (fold_left (fun s n => match cluster n with
                                         | Some c => sadd c s
                                         | None => s
                                         end) ns s) /\
            forall c, In c (fold_left (fun s n => match cluster n with
                                                  | Some c => sadd c s
                                                  | None => s
                                                  end) ns s) <->
                      In c s \/ exists n, In n ns /\ cluster n = Some c).
  { induction ns as [|n ns IH]; intros s ND; simpl.
    - split; [exact ND|]. intro c. split; [auto|].
      intros [H | (n & [] & _)]. exact H.
    - destruct (cluster n) as [c0|] eqn:Ec.
      + destruct (IH (sadd c0 s) (NoDup_sadd c0 s ND)) as [A B].
        split; [exact A|]. intro c. rewrite B, In_sadd. split.
        * intros [[-> | H] | (m & Hm & Hc)]; eauto.
        * intros [H | (m & [<- | Hm] & Hc)]; eauto.
          left. left. congruence.
      + destruct (IH s ND) as [A B]. split; [exact A|].
        intro c. rewrite B. split.
        * intros [H | (m & Hm & Hc)]; eauto.
        * intros [H | (m & [<- | Hm] & Hc)]; eauto. congruence. }
  destruct (H [] (NoDup_nil _)) as [A B]. split; [exact A|].
  intro c. rewrite B. split; [intros [[] | H0]; exact H0 | auto].
Qed.

Lemma distinctLabels_ext ns ns' :
  map cluster ns = map cluster ns' -> distinctLabels ns = distinctLabels ns'.
Proof.
  unfold distinctLabels. generalize (@nil nat).
  revert ns'. induction ns as [|n ns IH]; intros [|n' ns'] s H;
    try discriminate; [reflexivity|].
  simpl in H. injection H as Hc Hr. simpl. rewrite Hc. now apply IH.
Qed.

Section Regions.
Variable ns : list GraphNode.
Variable ls : list GraphLink.
Hypothesis ids_nodup : NoDup (map id ns).

Lemma assignClusters_length :
  List.length (assignClusters ns ls) = List.length ns.
Proof.
  rewrite <- (length_map id), (assignClusters_untouched id) by reflexivity.
  now rewrite length_map.
Qed.

Lemma label_below e :
  In e (labellings (fst (assignClustersRun ns ls))) ->
  label e < snd (assignClustersRun ns ls).
Proof.
  destruct (assignClustersRun_clustered ns ls ids_nodup) as ((_ & Hlaw & Hk) & _).
  intro He. apply In_nth_error in He. destruct He as [j Hj].
  pose proof (Hlaw j e Hj) as H.
  pose proof (seeds_firstn_le (S j) (labellings (fst (assignClustersRun ns ls)))).
  lia.
Qed.

Lemma labelled_at i n :
  nth_error (assignClusters ns ls) i = Some n ->
  exists e, In e (labellings (fst (assignClustersRun ns ls))) /\
            position e = i /\ cluster n = Some (label e).
Proof.
  destruct (assignClustersRun_clustered ns ls ids_nodup) as ((Hinv & _ & _) & Hall).
  intro Hi.
  destruct (ci_cluster _ _ Hinv i n Hi) as [H | [A _]]; [exact H|].
  exfalso. apply A. apply Hall. rewrite <- assignClusters_length.
  apply nth_error_Some. congruence.
Qed.

Lemma labels_contiguous :
  (forall n, In n (assignClusters ns ls) ->
             exists c, cluster n = Some c /\ c < snd (assignClustersRun ns ls)) /\
  (forall c, c < snd (assignClustersRun ns ls) ->
             exists n, In n (assignClusters ns ls) /\ cluster n = Some c).
Proof.
  destruct (assignClustersRun_clustered ns ls ids_nodup)
    as ((Hinv & Hlaw & Hk) & Hall).
  split.
  - intros n Hn. apply In_nth_error in Hn. destruct Hn as [i Hi].
    destruct (labelled_at i n Hi) as (e & He & _ & Hc).
    exists (label e). split; [exact Hc|]. now apply label_below.
  - intros c Hc. rewrite <- Hk in Hc.
    destruct (seeds_nth _ c Hc) as (j & e & Hj & _ & Hs).
    pose proof (Hlaw j e Hj) as Hl. rewrite Hs in Hl.
    pose proof (nth_error_In _ _ Hj) as He.
    pose proof (ci_range _ _ Hinv e He) as Hr.
    rewrite <- assignClusters_length in Hr.
    destruct (nth_error (assignClusters ns ls) (position e)) as [n|] eqn:Hn;
      [|apply nth_error_None in Hn; lia].
    exists n. split; [now apply nth_error_In in Hn|].
    destruct (labelled_at _ n Hn) as (e' & He' & Hp & Hc').
    assert (e' = e) by
      (apply (NoDup_map_eq position _ _ _ (ci_nodup _ _ Hinv) He' He Hp)).
    subst e'. rewrite Hc'. f_equal. lia.
Qed.

Lemma distinctLabels_count :
  List.length (distinctLabels (assignClusters ns ls)) =
  snd (assignClustersRun ns ls).
Proof.
  destruct (distinctLabels_spec (assignClusters ns ls)) as [ND Hin].
  destruct labels_contiguous as [A B].
  rewrite <- (length_seq (snd (assignClustersRun ns ls)) 0).
  apply Permutation_length. apply NoDup_Permutation.
  - exact ND.
  - apply seq_NoDup.
  - intro c. rewrite Hin, in_seq. split.
    + intros (n & Hn & Hc). destruct (A n Hn) as (c' & Hc' & Hlt).
      assert (c' = c) by congruence. lia.
    + intros [_ Hlt]. apply B. lia.
Qed.
End Regions.

(** X16: the cluster labels of a snapshot are exactly the numbers below
    [stats.clusters]: every node carries a label below it, and every number
    below it is the label of some node. *)
Theorem cluster_labels_contiguous query opts fuel g :
  useWebOfTrust query opts fuel = Some g ->
  (forall n, In n (nodes g) ->
             exists c, cluster n = Some c /\ c < clusters (stats g)) /\
  (forall c, c < clusters (stats g) ->
             exists n, In n (nodes g) /\ cluster n = Some c).
Proof.
  unfold useWebOfTrust.
  destruct (collect query opts fuel) as [st|] eqn:Hc; [|discriminate].
  intro Hg. injection Hg as <-.
  pose proof (collect_sound _ _ _ _ Hc) as Hs.
  set (cl := classified (nodesMap st) (linksMap st)).
  set (lk := mvalues (snd (degreePass (nodesMap st) (linksMap st)))).
  assert (ND : NoDup (map id cl)).
  { unfold cl. rewrite classified_ids by apply (nodes_ok_id st Hs).
    apply (nodes_nodup _ Hs). }
  assert (Hcl : map cluster
                  (nodes (analyse (referenceUser opts) (nodesMap st) (linksMap st)))
                = map cluster (assignClusters cl lk)).
  { rewrite analyse_nodes. simpl. fold cl lk.
    destruct (truthy (referenceUser opts)); [|reflexivity].
    now apply calculateDegreesOfSeparation_untouched. }
  assert (Hk : clusters (stats (analyse (referenceUser opts) (nodesMap st)
                                  (linksMap st)))
               = snd (assignClustersRun cl lk)).
  { transitivity (List.length (distinctLabels
        (nodes (analyse (referenceUser opts) (nodesMap st) (linksMap st))))).
    - unfold analyse. destruct (degreePass _ _). reflexivity.
    - rewrite (distinctLabels_ext _ _ Hcl). now apply distinctLabels_count. }
  rewrite Hk. destruct (labels_contiguous cl lk ND) as [A B]. split.
  - intros n Hn.
    destruct (map_eq_In cluster _ _ n Hcl Hn) as (m & Hm & Hcm).
    destruct (A m Hm) as (c & Hc1 & Hc2). exists c. split; congruence.
  - intros c Hlt. destruct (B c Hlt) as (m & Hm & Hcm).
    destruct (map_eq_In cluster _ _ m (eq_sym Hcl) Hm) as (n & Hn & Hcn).
    exists n. split; congruence.
Qed.

Lemma cluster_labels_contiguous_witness :
  exists g,
    useWebOfTrust (relay [contacts "A" ["B"%string]; contacts "B" ["C"%string];
                          contacts "C" ["D"%string]])
      (mkOptions (Some "A"%string) (Some 3) None None) 4 = Some g /\
    map cluster (nodes g) = [Some 0; Some 0; Some 0; Some 1] /\
    clusters (stats g) = 2 /\
    (forall n, In n (nodes g) ->
               exists c, cluster n = Some c /\ c < clusters (stats g)) /\
    (forall c, c < clusters (stats g) ->
               exists n, In n (nodes g) /\ cluster n = Some c).
Proof.
  eexists. split; [vm_compute; reflexivity|].
  split; [reflexivity|]. split; [reflexivity|].
  exact (cluster_labels_contiguous
           (relay [contacts "A" ["B"%string]; contacts "B" ["C"%string];
                   contacts "C" ["D"%string]])
           (mkOptions (Some "A"%string) (Some 3) None None) 4 _
           ltac:(vm_compute; reflexivity)).
Defined.

(** ** A region of the clustering reaches two steps from its seed *)

Lemma walk_to_hops ns ls r k x :
  walk (buildAdjacency ns ls) r k x -> hops ls r k x.
Proof.
  induction 1 as [|k x y Hw IH Hy].
  - constructor.
  - apply (hops_S ls r k x y IH).
    apply buildAdjacency_spec in Hy. destruct Hy as (_ & l & Hl & Hj).
    now exists l.
Qed.

Section Spread.
Variable adj : list (Ident * list Ident).
Variable ns : list GraphNode.
Variable s : Labelling.
Variable sid : Ident.
Hypothesis s_seed : isSeed s = true.
Hypothesis s_id : idAt ns (position s) = Some sid.

Lemma visitNeighbor_spreading d n st cur y :
  S d <= 2 -> within adj sid d cur -> In y (neighbours adj cur) ->
  Spreading adj ns s sid d n st ->
  Spreading adj ns s sid d n (visitNeighbor (label s) st y).
Proof.
  intros Hd (k0 & Hk0 & Hw) Hy (Hids & Hcomp & Hs & Hn & Hfst & Hrest).
  assert (Hnear : within adj sid (S d) y).
  { exists (S k0). split; [lia|]. now apply (walk_step adj sid k0 cur y). }
  unfold visitNeighbor.
  destruct (findIndex y (c_nodes st)) as [k|] eqn:Hf;
    [|repeat split; assumption].
  destruct (negb (shas y (visited st))); [|repeat split; assumption].
  apply findIndex_Some in Hf. rewrite Hids in Hf.
  split; [|split; [|split; [|split; [|split]]]]; simpl.
  - rewrite <- Hids. apply map_updateAt. reflexivity.
  - intros e He. apply in_app_or in He. destruct He as [He | [<- | []]].
    + destruct (Hcomp e He) as (s' & x & z & A & B & C & D & E & F).
      exists s', x, z. repeat split; auto. apply in_or_app. now left.
    + exists s, sid, y. simpl. repeat split; auto.
      * apply in_or_app. now left.
      * destruct Hnear as (k1 & Hk1 & Hw1). exists k1. split; [lia|exact Hw1].
  - apply in_or_app. now left.
  - rewrite length_app. simpl. lia.
  - rewrite firstn_app. replace (n - List.length (queue st)) with 0 by lia.
    simpl. now rewrite app_nil_r.
  - rewrite skipn_app. replace (n - List.length (queue st)) with 0 by lia.
    simpl. apply Forall_app. split; [exact Hrest|]. now constructor.
Qed.

Lemma forBatch_spreading d : forall n st,
  S d <= 2 ->
  Spreading adj ns s sid d n st ->
  Spreading adj ns s sid d 0 (forBatch adj (label s) n st).
Proof.
  induction n as [|n IH]; intros st Hd Hsp.
  - exact Hsp.
  - simpl. destruct Hsp as (Hids & Hcomp & Hs & Hn & Hfst & Hrest).
    destruct (queue st) as [|cur rest] eqn:Hq; [simpl in Hn; lia|].
    simpl in Hfst, Hrest, Hn. inversion Hfst as [|? ? Hcur Hfst']; subst.
    apply IH; [exact Hd|].
    apply fold_left_invariant.
    + repeat split; simpl; auto. lia.
    + intros st' y Hy Hst'. apply (visitNeighbor_spreading d n st' cur y); auto.
Qed.

Lemma bfsRounds_compact : forall r d st,
  d + r <= 2 ->
  Spreading adj ns s sid d (List.length (queue st)) st ->
  map id (c_nodes (bfsRounds adj (label s) r st)) = map id ns /\
  Compact adj ns (labellings (bfsRounds adj (label s) r st)).
Proof.
  induction r as [|r IH]; intros d st Hd Hsp.
  - destruct Hsp as (A & B & _). now split.
  - simpl. destruct (queue st) as [|cur rest] eqn:Hq.
    + destruct Hsp as (A & B & _). now split.
    + rewrite <- Hq in *.
      pose proof (forBatch_spreading d _ st ltac:(lia) Hsp) as H.
      destruct H as (A & B & C & _ & _ & F). simpl in F.
      apply (IH (S d)); [lia|].
      repeat split; auto.
      * now rewrite firstn_all.
      * rewrite skipn_all. constructor.
Qed.
End Spread.

Lemma clusterStep_compact ns adj acc i :
  map id (c_nodes (fst acc)) = map id ns /\
  Compact adj ns (labellings (fst acc)) ->
  map id (c_nodes (fst (clusterStep adj acc i))) = map id ns /\
  Compact adj ns (labellings (fst (clusterStep adj acc i))).
Proof.
  destruct acc as [st cid]. cbn [fst]. intros [Hids Hcomp]. unfold clusterStep.
  destruct (nth_error (c_nodes st) i) as [node|] eqn:Hi; [|now split].
  destruct (negb (shas (id node) (visited st))); [|now split].
  cbn [fst].
  assert (Hid : idAt ns i = Some (id node)).
  { unfold idAt. rewrite <- Hids, nth_error_map, Hi. reflexivity. }
  apply (bfsRounds_compact adj ns (mkLabelling true i cid) (id node)
           eq_refl Hid 2 0); [lia|].
  split; [|split; [|split; [|split; [|split]]]]; simpl.
  - rewrite <- Hids. apply map_updateAt. reflexivity.
  - intros e He. apply in_app_or in He. destruct He as [He | [<- | []]].
    + destruct (Hcomp e He) as (s' & x & z & A & B & C & D & E & F).
      exists s', x, z. repeat split; auto. apply in_or_app. now left.
    + exists (mkLabelling true i cid), (id node), (id node). simpl.
      repeat split; auto.
      * apply in_or_app. right. now left.
      * exists 0. split; [lia|constructor].
  - apply in_or_app. right. now left.
  - lia.
  - constructor; [|constructor]. exists 0. split; [lia|constructor].
  - constructor.
Qed.

Lemma assignClustersRun_compact ns ls :
  Compact (buildAdjacency ns ls) ns
          (labellings (fst (assignClustersRun ns ls))).
Proof.
  unfold assignClustersRun.
  apply (fold_left_invariant
           (fun acc => map id (c_nodes (fst acc)) = map id ns /\
                       Compact (buildAdjacency ns ls) ns (labellings (fst acc)))).
  - simpl. split; [reflexivity|]. intros e [].
  - intros acc i _ H. now apply clusterStep_compact.
Qed.

Lemma seeds_firstn_lt log j j' e :
  j < j' -> nth_error log j' = Some e -> isSeed e = true ->
  seeds (firstn (S j) log) < seeds (firstn (S j') log).
Proof.
  intros Hlt Hj He.
  rewrite (firstn_snoc log j' e Hj).
  assert (H1 : seeds (firstn j' log ++ [e]) = seeds (firstn j' log) + 1).
  { unfold seeds. rewrite filter_app, length_app. simpl. now rewrite He. }
  assert (H2 : firstn (S j) log = firstn (S j) (firstn j' log)).
  { rewrite firstn_firstn. f_equal. lia. }
  rewrite H1, H2.
  pose proof (seeds_firstn_le (S j) (firstn j' log)). lia.
Qed.

Lemma regions_compact ns ls :
  NoDup (map id ns) ->
  forall c, c < snd (assignClustersRun ns ls) ->
    exists s, In s (assignClusters ns ls) /\ cluster s = Some c /\
      forall n, In n (assignClusters ns ls) -> cluster n = Some c ->
                exists k, k <= 2 /\ hops ls (id s) k (id n).
Proof.
  intros ND c Hc.
  destruct (assignClustersRun_clustered ns ls ND) as ((Hinv & Hlaw & Hk) & Hall).
  rewrite <- Hk in Hc.
  destruct (seeds_nth _ c Hc) as (j & e & Hj & Hseed & Hs).
  pose proof (Hlaw j e Hj) as Hl. rewrite Hs in Hl.
  pose proof (nth_error_In _ _ Hj) as He.
  pose proof (ci_range _ _ Hinv e He) as Hr.
  rewrite <- (assignClusters_length ns ls) in Hr.
  destruct (nth_error (assignClusters ns ls) (position e)) as [sn|] eqn:Hsn;
    [|apply nth_error_None in Hsn; lia].
  exists sn. split; [now apply nth_error_In in Hsn|].
  destruct (labelled_at ns ls ND _ sn Hsn) as (e0 & He0 & Hp0 & Hc0).
  assert (e0 = e)
    by (apply (NoDup_map_eq position _ _ _ (ci_nodup _ _ Hinv) He0 He Hp0)).
  subst e0. split; [rewrite Hc0; f_equal; lia|].
  intros n Hn Hcn. apply In_nth_error in Hn. destruct Hn as [i Hi].
  destruct (labelled_at ns ls ND _ n Hi) as (e1 & He1 & Hp1 & Hc1).
  destruct (assignClustersRun_compact ns ls e1 He1)
    as (s' & x & y & Hs' & Hseed' & Hlab & Hx & Hy & k & Hk2 & Hw).
  assert (Hlab1 : label e1 = c) by congruence.
  assert (s' = e).
  { apply In_nth_error in Hs'. destruct Hs' as [j' Hj'].
    pose proof (Hlaw j' s' Hj') as Hl'.
    assert (j' = j).
    { destruct (Nat.lt_trichotomy j j') as [H | [H | H]]; [|auto|].
      - pose proof (seeds_firstn_lt _ j j' s' H Hj' Hseed'). lia.
      - pose proof (seeds_firstn_lt _ j' j e H Hj Hseed). lia. }
    subst j'. congruence. }
  subst s'.
  assert (Hids : map id (assignClusters ns ls) = map id ns)
    by (apply assignClusters_untouched; reflexivity).
  unfold idAt in Hx, Hy. rewrite <- Hids, nth_error_map in Hx, Hy.
  rewrite Hsn in Hx. rewrite Hp1, Hi in Hy. simpl in Hx, Hy.
  injection Hx as <-. injection Hy as <-.
  exists k. split; [exact Hk2|]. now apply (walk_to_hops ns).
Qed.

(** X17: a cluster of a snapshot reaches at most two links from one of its
    nodes.  For every label below [stats.clusters] there is a node of that
    label from which every node of the label is at most two links away,
    the links taken in either direction. *)
Theorem clusters_within_two_links query opts fuel g :
  useWebOfTrust query opts fuel = Some g ->
  forall c, c < clusters (stats g) ->
    exists s, In s (nodes g) /\ cluster s = Some c /\
      forall n, In n (nodes g) -> cluster n = Some c ->
                exists k, k <= 2 /\ hops (links g) (id s) k (id n).
Proof.
  unfold useWebOfTrust.
  destruct (collect query opts fuel) as [st|] eqn:Hc; [|discriminate].
  intro Hg. injection Hg as <-.
  pose proof (collect_sound _ _ _ _ Hc) as Hs.
  set (cl := classified (nodesMap st) (linksMap st)).
  set (lk := mvalues (snd (degreePass (nodesMap st) (linksMap st)))).
  assert (ND : NoDup (map id cl)).
  { unfold cl. rewrite classified_ids by apply (nodes_ok_id st Hs).
    apply (nodes_nodup _ Hs). }
  assert (Hcl : map (fun n => (id n, cluster n))
                  (nodes (analyse (referenceUser opts) (nodesMap st) (linksMap st)))
                = map (fun n => (id n, cluster n)) (assignClusters cl lk)).
  { rewrite analyse_nodes. simpl. fold cl lk.
    destruct (truthy (referenceUser opts)); [|reflexivity].
    now apply calculateDegreesOfSeparation_untouched. }
  assert (Hcl' : map cluster
                   (nodes (analyse (referenceUser opts) (nodesMap st) (linksMap st)))
                 = map cluster (assignClusters cl lk)).
  { rewrite <- (map_map (fun n => (id n, cluster n)) snd), Hcl.
    now rewrite map_map. }
  assert (Hk : clusters (stats (analyse (referenceUser opts) (nodesMap st)
                                  (linksMap st)))
               = snd (assignClustersRun cl lk)).
  { transitivity (List.length (distinctLabels
        (nodes (analyse (referenceUser opts) (nodesMap st) (linksMap st))))).
    - unfold analyse. destruct (degreePass _ _). reflexivity.
    - rewrite (distinctLabels_ext _ _ Hcl'). now apply distinctLabels_count. }
  rewrite Hk, analyse_links. fold lk. intros c Hlt.
  destruct (regions_compact cl lk ND c Hlt) as (s & Hs0 & Hcs & Hnear).
  destruct (map_eq_In (fun n => (id n, cluster n)) _ _ s (eq_sym Hcl) Hs0)
    as (s' & Hs' & Es).
  injection Es as Eid Ecl.
  exists s'. split; [exact Hs'|]. split; [congruence|].
  intros n Hn Hcn.
  destruct (map_eq_In (fun n => (id n, cluster n)) _ _ n Hcl Hn)
    as (m & Hm & Em).
  injection Em as Emid Emcl. rewrite Eid, <- Emid. apply Hnear; congruence.
Qed.

Lemma clusters_within_two_links_witness :
  exists g,
    useWebOfTrust (relay [contacts "A" ["B"%string]; contacts "B" ["C"%string];
                          contacts "C" ["D"%string]])
      (mkOptions (Some "A"%string) (Some 3) None None) 4 = Some g /\
    map cluster (nodes g) = [Some 0; Some 0; Some 0; Some 1] /\
    forall c, c < clusters (stats g) ->
      exists s, In s (nodes g) /\ cluster s = Some c /\
        forall n, In n (nodes g) -> cluster n = Some c ->
                  exists k, k <= 2 /\ hops (links g) (id s) k (id n).
Proof.
  eexists. split; [vm_compute; reflexivity|]. split; [reflexivity|].
  exact (clusters_within_two_links
           (relay [contacts "A" ["B"%string]; contacts "B" ["C"%string];
                   contacts "C" ["D"%string]])
           (mkOptions (Some "A"%string) (Some 3) None None) 4 _
           ltac:(vm_compute; reflexivity)).
Defined.

(** ** When no distance is written *)

Lemma walk_stays ns ls r k x :
  ~ In r (map id ns) -> walk (buildAdjacency ns ls) r k x -> x = r.
Proof.
  intros Hr W. induction W as [|k x y W IH Hy]; [reflexivity|].
  subst x. apply buildAdjacency_spec in Hy. now destruct Hy as [Hy _].
Qed.

Lemma reference_absent ns ls r :
  ~ In r (map id ns) ->
  forall n, In n (calculateDegreesOfSeparation ns ls r) ->
            degreesFromRoot n = None.
Proof.
  intros Hr n Hin. unfold calculateDegreesOfSeparation in Hin.
  apply in_map_iff in Hin. destruct Hin as (n0 & <- & Hn0). simpl.
  pose proof (searchLoop_searching (buildAdjacency ns ls) r
                (1 + 2 * List.length ls) _ (search_start _ r)) as Hs.
  pose proof (search_exhausts ns ls r) as He.
  destruct (searching_done _ r _ Hs He (id n0)) as [_ B].
  fold (searchDistances ns ls r) in B. apply B.
  intros k W. apply (walk_stays ns ls r k _ Hr) in W.
  apply Hr. rewrite <- W. now apply in_map.
Qed.

Lemma classified_distances nm lm :
  map degreesFromRoot (classified nm lm) =
  map (fun e => degreesFromRoot (snd e)) nm.
Proof.
  unfold classified, hubPass, mvalues. rewrite !map_map.
  apply (degreePass_nodes_map (fun e => degreesFromRoot (snd e)));
    reflexivity.
Qed.

(** X18: no node of a snapshot carries a distance when no reference is
    given, or when the reference given is not a node of the snapshot. *)
Theorem distances_absent query opts fuel g :
  useWebOfTrust query opts fuel = Some g ->
  truthy (referenceUser opts) = false \/
  ~ In (referenceUser opts) (map id (nodes g)) ->
  forall n, In n (nodes g) -> degreesFromRoot n = None.
Proof.
  unfold useWebOfTrust.
  destruct (collect query opts fuel) as [st|] eqn:Hc; [|discriminate].
  intro Hg. injection Hg as <-.
  pose proof (collect_sound _ _ _ _ Hc) as Hs.
  pose proof (collect_collected _ _ _ _ Hc) as Hcol.
  intros Hcase n Hn.
  destruct (truthy (referenceUser opts)) eqn:Ht.
  - destruct Hcase as [Hcase | Hcase]; [discriminate|].
    rewrite analyse_ids in Hcase by apply (nodes_ok_id st Hs).
    rewrite analyse_nodes in Hn. simpl in Hn. rewrite Ht in Hn.
    apply reference_absent in Hn; [exact Hn|].
    rewrite (assignClusters_untouched id) by reflexivity.
    now rewrite classified_ids by apply (nodes_ok_id st Hs).
  - rewrite analyse_nodes in Hn. simpl in Hn. rewrite Ht in Hn.
    apply (in_map degreesFromRoot) in Hn.
    rewrite (assignClusters_untouched degreesFromRoot) in Hn by reflexivity.
    rewrite classified_distances in Hn. apply in_map_iff in Hn.
    destruct Hn as ([k n0] & Hd & Hin). simpl in Hd. rewrite <- Hd.
    now destruct (Hcol k n0 Hin) as (_ & _ & _ & _ & H).
Qed.

Lemma distances_absent_witness :
  exists g,
    useWebOfTrust (relay [contacts "A" ["B"%string]])
      (mkOptions (Some "A"%string) (Some 1) None (Some "Z"%string)) 2 = Some g /\
    forall n, In n (nodes g) -> degreesFromRoot n = None.
Proof.
  eexists. split; [vm_compute; reflexivity|].
  refine (distances_absent (relay [contacts "A" ["B"%string]])
            (mkOptions (Some "A"%string) (Some 1) None (Some "Z"%string)) 2 _
            ltac:(vm_compute; reflexivity) _).
  right. simpl. intros [H | [H | []]]; discriminate.
Defined.

(** * Further properties of useSocialGraph *)

(** ** parseContactList *)

(** X19: [parseContactList] returns the values of the "p" tags that have a
    value other than the empty string, and nothing else: an identity is
    returned exactly when some tag of the record has the marker "p" and
    that identity, a non-empty string, as its second field. *)
Theorem parseContactList_members event x :
  In x (parseContactList event) <->
  exists tag s,
    In tag (tags event) /\ nth_error tag 0 = Some "p"%string /\
    nth_error tag 1 = Some s /\ s <> EmptyString /\ x = Some s.
Proof.
  unfold parseContactList. rewrite filter_In, in_map_iff. split.
  - intros ((tag & Hx & Htag) & Hb). apply filter_In in Htag.
    destruct Htag as [Hin Hp]. unfold isPTag in Hp.
    destruct (nth_error tag 0) as [m|] eqn:Hm; [|discriminate].
    apply String.eqb_eq in Hp. subst m.
    unfold jsBoolean, truthy in Hb. destruct x as [s|]; [|discriminate].
    exists tag, s. repeat split; auto.
    intros ->. discriminate.
  - intros (tag & s & Hin & Hm & Hv & Hne & ->). split.
    + exists tag. split; [exact Hv|]. apply filter_In. split; [exact Hin|].
      unfold isPTag. rewrite Hm. apply String.eqb_refl.
    + unfold jsBoolean, truthy. apply negb_true_iff.
      now apply String.eqb_neq.
Qed.


(** ** Nodes and links of the snapshot *)

Section SocialGraphMore.
Import SocialGraph.

Lemma useSocialGraph_nodes query opts :
  query 0 (contactFilters opts) <> [] ->
  nodes (useSocialGraph query opts) =
  map (fun pk => mkNode pk (if ident_eqb pk (rootPubkey opts) then 20 else 12)
                        (ident_eqb pk (rootPubkey opts)))
      (pubkeyArray query opts).
Proof.
  intro Hne. unfold useSocialGraph, pubkeyArray, crawled, contactFilters in *.
  destruct (query 0 _) as [|e es]; [contradiction|reflexivity].
Qed.

Lemma useSocialGraph_ids query opts :
  map id (nodes (useSocialGraph query opts)) =
  match query 0 (contactFilters opts) with
  | [] => []
  | _ :: _ => pubkeyArray query opts
  end.
Proof.
  destruct (query 0 (contactFilters opts)) as [|e es] eqn:Hq.
  - unfold useSocialGraph. unfold contactFilters in Hq. now rewrite Hq.
  - rewrite useSocialGraph_nodes by (rewrite Hq; discriminate).
    rewrite map_map. simpl. apply map_id.
Qed.

Lemma useSocialGraph_links query opts :
  query 0 (contactFilters opts) <> [] ->
  links (useSocialGraph query opts) =
  flat_map (fun entry =>
              if includes (fst entry) (pubkeyArray query opts)
              then map (mkLink (fst entry))
                       (filter (fun t => includes t (pubkeyArray query opts))
                               (snd entry))
              else [])
           (followMap (crawled query opts)).
Proof.
  intro Hne. unfold useSocialGraph, pubkeyArray, crawled, contactFilters in *.
  destruct (query 0 _) as [|e es]; [contradiction|reflexivity].
Qed.

Lemma useSocialGraph_empty query opts :
  query 0 (contactFilters opts) = [] ->
  useSocialGraph query opts = mkGraph [] [].
Proof.
  intro Hq. unfold useSocialGraph. unfold contactFilters in Hq.
  now rewrite Hq.
Qed.

(** X20: every link of the snapshot of useSocialGraph joins two nodes of
    the snapshot, whatever the relays answer. *)
Theorem social_links_join_nodes query opts l :
  In l (links (useSocialGraph query opts)) ->
  In (source l) (map id (nodes (useSocialGraph query opts))) /\
  In (target l) (map id (nodes (useSocialGraph query opts))).
Proof.
  destruct (query 0 (contactFilters opts)) as [|e es] eqn:Hq.
  - rewrite (useSocialGraph_empty _ _ Hq). intros [].
  - assert (Hne : query 0 (contactFilters opts) <> [])
      by (rewrite Hq; discriminate).
    rewrite useSocialGraph_ids, Hq, (useSocialGraph_links _ _ Hne).
    intro Hl. apply in_flat_map in Hl. destruct Hl as ([k tg] & _ & Hl).
    cbn [fst snd] in Hl.
    destruct (includes k (pubkeyArray query opts)) eqn:Ek; [|contradiction].
    apply in_map_iff in Hl. destruct Hl as (t & <- & Ht).
    apply filter_In in Ht. destruct Ht as [_ Ht]. cbn [source target].
    unfold includes in *. split; now apply shas_In.
Qed.

Lemma social_links_join_nodes_witness :
  exists l,
    links (useSocialGraph (relay [contacts "A" ["B"%string; "C"%string]])
             (mkOptions (Some "A"%string) (Some 2) (Some 2)))
    = [l] /\
    In (source l)
       (map id (nodes (useSocialGraph
                         (relay [contacts "A" ["B"%string; "C"%string]])
                         (mkOptions (Some "A"%string) (Some 2) (Some 2))))) /\
    In (target l)
       (map id (nodes (useSocialGraph
                         (relay [contacts "A" ["B"%string; "C"%string]])
                         (mkOptions (Some "A"%string) (Some 2) (Some 2))))).
Proof.
  eexists. split; [vm_compute; reflexivity|].
  refine (social_links_join_nodes
            (relay [contacts "A" ["B"%string; "C"%string]])
            (mkOptions (Some "A"%string) (Some 2) (Some 2)) _ _).
  vm_compute. left. reflexivity.
Defined.









End SocialGraphMore.

(** ** Profiles and labels *)

Lemma latestOf_other seen pk e kept :
  Some (pubkey e) <> pk ->
  latestOf seen pk kept -> latestOf (seen ++ [e]) pk kept.
Proof.
  intros Hne. unfold latestOf. destruct kept as [e0|].
  - intros (Hpk & before & after & Hseen & Hb & Ha). split; [exact Hpk|].
    exists before, (after ++ [e]). split; [|split].
    + rewrite Hseen, <- app_assoc. reflexivity.
    + exact Hb.
    + intros e' He' Heq. apply in_app_or in He'.
      destruct He' as [He' | [<- | []]]; [auto|].
      exfalso. apply Hne. congruence.
  - intros Hnone e' He'. apply in_app_or in He'.
    destruct He' as [He' | [<- | []]]; auto.
Qed.

Lemma keepLatest_latestOf seen latest e :
  (forall pk, latestOf seen pk (mget pk latest)) ->
  forall pk, latestOf (seen ++ [e]) pk (mget pk (keepLatest latest e)).
Proof.
  intros Hinv pk. unfold keepLatest.
  pose proof (Hinv (Some (pubkey e))) as Hk.
  destruct (mget (K := Ident) (Some (pubkey e)) latest) as [ex|] eqn:Hex.
  - unfold latestOf in Hk.
    destruct Hk as (Hpk & before & after & Hseen & Hb & Ha).
    injection Hpk as Hpk.
    destruct (created_at ex <? created_at e) eqn:Hlt.
    + apply Nat.ltb_lt in Hlt. rewrite mget_mset.
      destruct (keqb pk (Some (pubkey e))) eqn:E.
      * apply keqb_eq in E. subst pk. unfold latestOf.
        split; [reflexivity|]. exists seen, []. split; [reflexivity|].
        split; [|intros e' []].
        intros e' He' Heq. rewrite Hseen in He'. apply in_app_or in He'.
        destruct He' as [He' | [<- | He']]; [| exact Hlt |].
        -- assert (created_at e' < created_at ex) by (apply Hb; congruence).
           lia.
        -- assert (created_at e' <= created_at ex) by (apply Ha; congruence).
           lia.
      * apply latestOf_other; [|apply Hinv].
        intros <-. now rewrite keqb_refl in E.
    + apply Nat.ltb_ge in Hlt.
      destruct (keqb_dec pk (Some (pubkey e))) as [-> | Hne].
      * rewrite Hex. unfold latestOf. split; [congruence|].
        exists before, (after ++ [e]). split; [|split].
        -- rewrite Hseen, <- app_assoc. reflexivity.
        -- exact Hb.
        -- intros e' He' Heq. apply in_app_or in He'.
           destruct He' as [He' | [<- | []]]; [now apply Ha|exact Hlt].
      * apply latestOf_other; [congruence|apply Hinv].
  - unfold latestOf in Hk. rewrite mget_mset.
    destruct (keqb pk (Some (pubkey e))) eqn:E.
    + apply keqb_eq in E. subst pk. unfold latestOf.
      split; [reflexivity|]. exists seen, []. split; [reflexivity|].
      split; [|intros e' []].
      intros e' He' Heq. exfalso. apply (Hk e' He'). congruence.
    + apply latestOf_other; [|apply Hinv].
      intros <-. now rewrite keqb_refl in E.
Qed.

Lemma keepLatest_fold evs : forall seen latest,
  (forall pk, latestOf seen pk (mget pk latest)) ->
  forall pk, latestOf (seen ++ evs) pk (mget pk (fold_left keepLatest evs latest)).
Proof.
  induction evs as [|e evs IH]; intros seen latest Hinv pk; simpl.
  - rewrite app_nil_r. apply Hinv.
  - replace (seen ++ e :: evs) with ((seen ++ [e]) ++ evs)
      by (now rewrite <- app_assoc).
    apply IH. now apply keepLatest_latestOf.
Qed.

(** X22: of the kind-0 events received, the one kept for an author is the
    first of the events of that author that no event of the author is later
    than; an author has no event kept only when none of the events is
    theirs. *)
Theorem latest_profile_kept profileEvents pk :
  latestOf profileEvents pk (mget pk (latestProfileEvents profileEvents)).
Proof.
  unfold latestProfileEvents.
  apply (keepLatest_fold profileEvents [] []).
  intros pk0 e' [].
Qed.

Lemma latestProfileEvents_nodup profileEvents :
  NoDup (mkeys (latestProfileEvents profileEvents)).
Proof.
  unfold latestProfileEvents.
  apply (fold_left_invariant (fun m => NoDup (mkeys (V := NostrEvent) m)));
    [constructor|].
  intros m e _ ND. unfold keepLatest.
  destruct (mget _ m); [destruct (_ <? _)|]; auto using NoDup_mset.
Qed.

Section ProfileFacts.
Variable parse : string -> option Metadata.

Lemma addProfile_fold pk : forall L acc,
  NoDup (mkeys L) ->
  mget pk (fold_left (addProfile parse) L acc) =
  match mget pk L with
  | Some e => Some (profileOf parse pk e)
  | None => mget pk acc
  end.
Proof.
  induction L as [|[k e] L IH]; intros acc ND; [reflexivity|].
  simpl in ND. inversion ND as [|? ? Hnot ND']; subst.
  cbn [fold_left mget]. rewrite (IH _ ND'). unfold addProfile. cbn [fst snd].
  destruct (keqb pk k) eqn:E.
  - apply keqb_eq in E. subst k.
    assert (Hn : mget pk L = None) by now apply mget_None.
    rewrite Hn, mget_mset, keqb_refl. reflexivity.
  - destruct (mget pk L); [reflexivity|]. now rewrite mget_mset, E.
Qed.

Lemma ensureProfile_fold pk : forall arr acc,
  mget pk (fold_left ensureProfile arr acc) =
  match mget pk acc with
  | Some p => Some p
  | None => if shas pk arr then Some (bareProfile pk) else None
  end.
Proof.
  induction arr as [|x arr IH]; intros acc.
  - simpl. now destruct (mget pk acc).
  - cbn [fold_left]. rewrite IH. unfold ensureProfile.
    change (shas pk (x :: arr)) with (keqb pk x || shas pk arr).
    destruct (mhas x acc) eqn:Hx; simpl negb; cbv iota.
    + destruct (mget pk acc) eqn:Hp; [reflexivity|].
      destruct (keqb pk x) eqn:E; [|reflexivity].
      apply keqb_eq in E. subst x. unfold mhas in Hx. now rewrite Hp in Hx.
    + rewrite mget_mset. destruct (keqb pk x) eqn:E.
      * apply keqb_eq in E. subst x. unfold mhas in Hx.
        destruct (mget pk acc); [discriminate|]. reflexivity.
      * reflexivity.
Qed.

(** X23: the profile map returned by useSocialGraph.  The profile of an
    identity is read from the latest kind-0 event kept for it (the bare
    profile when its content cannot be parsed); an identity of
    [pubkeyArray] without such an event has the bare profile; no other
    identity has a profile.  In particular every identity of [pubkeyArray],
    that is, every node, has a profile, which carries that identity. *)
Theorem profiles_characterised profileEvents pubkeys pk :
  mget pk (buildProfiles parse profileEvents pubkeys) =
    match mget pk (latestProfileEvents profileEvents) with
    | Some e => Some (profileOf parse pk e)
    | None => if shas pk pubkeys then Some (bareProfile pk) else None
    end /\
  (shas pk pubkeys = true ->
   exists p, mget pk (buildProfiles parse profileEvents pubkeys) = Some p /\
             profile_pubkey p = pk).
Proof.
  assert (H : mget pk (buildProfiles parse profileEvents pubkeys) =
              match mget pk (latestProfileEvents profileEvents) with
              | Some e => Some (profileOf parse pk e)
              | None => if shas pk pubkeys then Some (bareProfile pk) else None
              end).
  { unfold buildProfiles. rewrite ensureProfile_fold, addProfile_fold
      by apply latestProfileEvents_nodup.
    now destruct (mget pk (latestProfileEvents profileEvents)). }
  split; [exact H|]. intro Hin. rewrite H, Hin.
  destruct (mget pk (latestProfileEvents profileEvents)) as [e|].
  - eexists. split; [reflexivity|]. unfold profileOf.
    now destruct (parse (content e)).
  - eexists. split; reflexivity.
Qed.
End ProfileFacts.

Lemma profiles_characterised_witness :
  exists p,
    mget (Some "B"%string)
      (buildProfiles (fun _ => None)
         [mkEvent "A" 0 5 [] "x"] [Some "A"%string; Some "B"%string])
      = Some p /\
    profile_pubkey p = Some "B"%string.
Proof.
  exact (proj2 (profiles_characterised (fun _ => None)
                  [mkEvent "A" 0 5 [] "x"] [Some "A"%string; Some "B"%string]
                  (Some "B"%string)) eq_refl).
Defined.

Lemma truthy_proper o : truthy o = true -> properIdent o.
Proof.
  destruct o as [s|]; [|discriminate]. simpl. intro H.
  exists s. split; [reflexivity|]. intros ->. discriminate.
Qed.



Section SocialGraphLabels.
Import SocialGraph.
Variable query : nat -> Filter -> list NostrEvent.
Hypothesis authors_named :
  forall n f e, In e (query n f) -> pubkey e <> EmptyString.
Variable slice8 : string -> string.
Hypothesis slice_keeps :
  forall s, s <> EmptyString -> slice8 s <> EmptyString.







End SocialGraphLabels.


(** * Further properties: the visualizer *)

(** ** Colours *)

(** X25: [drawNode] fills every node of a snapshot with a defined colour
    that is never the grey kept for a node without cluster: white for the
    node of the current user, amber for the hovered node, and otherwise the
    colour that [getClusterColor] returns for the node, which is the colour
    of the palette at its label modulo the size of the palette. *)
Theorem nodes_get_palette_colour query opts fuel g user hoveredNode n :
  useWebOfTrust query opts fuel = Some g ->
  In n (nodes g) ->
  exists c colour drawn,
    cluster n = Some c /\
    getClusterColor (cluster n) = Some colour /\
    nth_error CLUSTER_COLORS (c mod 10) = Some colour /\
    In colour CLUSTER_COLORS /\
    nodeColour user hoveredNode n = Some drawn /\
    In drawn ("#ffffff" :: "#fbbf24" :: CLUSTER_COLORS)%string /\
    drawn <> "#94a3b8"%string /\
    (id n = user -> drawn = "#ffffff"%string) /\
    (id n <> user -> isHovered hoveredNode n = true ->
     drawn = "#fbbf24"%string) /\
    (id n <> user -> isHovered hoveredNode n = false -> drawn = colour).
Proof.
  intros Hg Hn.
  destruct (snapshot_clustered query opts fuel g Hg) as [_ Hc].
  destruct (Hc n Hn) as [c Ec].
  assert (Hlt : c mod 10 < 10) by (apply Nat.mod_upper_bound; discriminate).
  destruct (nth_error CLUSTER_COLORS (c mod 10)) as [colour|] eqn:Ecol.
  2:{ apply nth_error_None in Ecol.
      change (List.length CLUSTER_COLORS) with 10 in Ecol. lia. }
  pose proof (nth_error_In _ _ Ecol) as Hin.
  assert (Hgrey : forall x, In x ("#ffffff" :: "#fbbf24" :: CLUSTER_COLORS)%string ->
                            x <> "#94a3b8"%string).
  { intros x Hx ->. unfold CLUSTER_COLORS in Hx. simpl in Hx.
    repeat (destruct Hx as [Hx | Hx]; [discriminate|]). exact Hx. }
  assert (Hcol : getClusterColor (cluster n) = Some colour)
    by (rewrite Ec; exact Ecol).
  exists c, colour. unfold nodeColour. cbv zeta. rewrite Hcol.
  destruct (ident_eqb (id n) user) eqn:Eu.
  - apply ident_eqb_eq in Eu. exists "#ffffff"%string.
    repeat split; auto.
    + now left.
    + apply Hgrey. now left.
    + intro H. contradiction.
    + intro H. contradiction.
  - assert (Hu : id n <> user).
    { intro H. apply ident_eqb_eq in H. congruence. }
    destruct (isHovered hoveredNode n) eqn:Eh.
    + exists "#fbbf24"%string. repeat split; auto.
      * right. now left.
      * apply Hgrey. right. now left.
      * intro H. contradiction.
      * discriminate.
    + exists colour. repeat split; auto.
      * right. right. exact Hin.
      * apply Hgrey. right. right. exact Hin.
      * intro H. contradiction.
      * discriminate.
Qed.

(** The run of Scenario A, drawn for the user "A" while "B" is hovered:
    "A" is white, "B" amber, and "C" has the first colour of the palette. *)
Lemma nodes_get_palette_colour_witness :
  exists g,
    useWebOfTrust (relay [contacts "A" ["B"%string; "C"%string]])
      (mkOptions (Some "A"%string) (Some 1) None None) 2 = Some g /\
    map (nodeColour (Some "A"%string) (Some "B"%string)) (nodes g) =
      [Some "#ffffff"%string; Some "#fbbf24"%string; Some "#3b82f6"%string] /\
    exists n,
      nth_error (nodes g) 2 = Some n /\
      exists c colour drawn,
        cluster n = Some c /\
        getClusterColor (cluster n) = Some colour /\
        nth_error CLUSTER_COLORS (c mod 10) = Some colour /\
        In colour CLUSTER_COLORS /\
        nodeColour (Some "A"%string) (Some "B"%string) n = Some drawn /\
        In drawn ("#ffffff" :: "#fbbf24" :: CLUSTER_COLORS)%string /\
        drawn <> "#94a3b8"%string /\
        (id n = Some "A"%string -> drawn = "#ffffff"%string) /\
        (id n <> Some "A"%string ->
         isHovered (Some "B"%string) n = true -> drawn = "#fbbf24"%string) /\
        (id n <> Some "A"%string ->
         isHovered (Some "B"%string) n = false -> drawn = colour).
Proof.
  eexists. split; [vm_compute; reflexivity|]. split; [reflexivity|].
  eexists. split; [reflexivity|].
  refine (nodes_get_palette_colour
            (relay [contacts "A" ["B"%string; "C"%string]])
            (mkOptions (Some "A"%string) (Some 1) None None) 2 _
            (Some "A"%string) (Some "B"%string) _
            ltac:(vm_compute; reflexivity) _).
  right. right. left. reflexivity.
Defined.

(** ** The relay panel *)

Lemma toggleRelay_In relay prev r :
  In r (toggleRelay relay prev) <->
  (r = relay /\ ~ In relay prev) \/ (r <> relay /\ In r prev).
Proof.
  unfold toggleRelay. destruct (shas relay prev) eqn:E.
  - apply shas_In in E. rewrite filter_In, negb_true_iff, String.eqb_neq.
    split.
    + intros [A B]. right. auto.
    + intros [[-> A] | [A B]]; [contradiction|auto].
  - apply shas_false in E. rewrite in_app_iff. simpl. split.
    + intros [A | [<- | []]]; [|auto]. right. split; [|exact A].
      intros ->. contradiction.
    + intros [[-> A] | [A B]]; auto.
Qed.

Lemma snoc_nodup (x : string) l : shas x l = false -> NoDup l -> NoDup (l ++ [x]).
Proof.
  intros E ND. pose proof (NoDup_sadd x l ND) as H.
  unfold sadd in H. now rewrite E in H.
Qed.

Lemma toggleRelay_nodup relay prev :
  NoDup prev -> NoDup (toggleRelay relay prev).
Proof.
  intro ND. unfold toggleRelay. destruct (shas relay prev) eqn:E.
  - now apply NoDup_filter.
  - now apply snoc_nodup.
Qed.

(** X26: [toggleRelay] flips the selection of the relay and of no other:
    afterwards the relay is selected exactly when it was not before, any
    other relay is selected exactly when it was, and a selection without
    repetition stays without repetition. *)
Theorem toggleRelay_flips relay prev :
  (In relay (toggleRelay relay prev) <-> ~ In relay prev) /\
  (forall r, r <> relay -> (In r (toggleRelay relay prev) <-> In r prev)) /\
  (NoDup prev -> NoDup (toggleRelay relay prev)).
Proof.
  split; [|split].
  - rewrite toggleRelay_In. split.
    + intros [[_ A] | [A _]]; [exact A|contradiction].
    + intro A. left. auto.
  - intros r Hr. rewrite toggleRelay_In. split.
    + intros [[A _] | [_ A]]; [contradiction|exact A].
    + intro A. right. auto.
  - apply toggleRelay_nodup.
Qed.

Lemma popular_wss r : In r POPULAR_RELAYS -> String.prefix "wss://" r = true.
Proof.
  assert (H : forallb (String.prefix "wss://") POPULAR_RELAYS = true)
    by reflexivity.
  rewrite forallb_forall in H. apply H.
Qed.

Lemma panelStep_ok p ev : panelOk p -> panelOk (panelStep p ev).
Proof.
  intros [ND Hw]. destruct ev as [i | text |]; simpl.
  - destruct (nth_error POPULAR_RELAYS i) as [relay|] eqn:Ei; [|now split].
    apply nth_error_In in Ei. split; simpl.
    + now apply toggleRelay_nodup.
    + intros r Hr. apply toggleRelay_In in Hr.
      destruct Hr as [[-> _] | [_ Hr]]; [now apply popular_wss|now apply Hw].
  - now split.
  - unfold addCustomRelay.
    destruct (String.prefix "wss://" (customRelayInput p)) eqn:Ep; simpl;
      [|now split].
    destruct (shas (customRelayInput p) (selectedRelays p)) eqn:Es; simpl;
      [now split|].
    split; simpl.
    + now apply snoc_nodup.
    + intros r Hr. apply in_app_or in Hr.
      destruct Hr as [Hr | [<- | []]]; [now apply Hw|exact Ep].
Qed.

(** X27: whatever the user does in the relay panel (ticking the boxes of
    the popular relays, typing, adding the relay typed), a selection of
    websocket addresses without repetition stays one; the default
    selection is one. *)
Theorem relay_panel_invariant p evs :
  panelOk p -> panelOk (fold_left panelStep evs p).
Proof.
  intro H. apply fold_left_invariant; [exact H|].
  intros s ev _. apply panelStep_ok.
Qed.

Lemma default_panel_ok : panelOk (mkPanel DEFAULT_RELAYS EmptyString).
Proof.
  split; simpl.
  - repeat constructor; simpl; intuition discriminate.
  - intros r [<- | [<- | [<- | []]]]; reflexivity.
Qed.

Lemma relay_panel_invariant_witness :
  selectedRelays
    (fold_left panelStep
       [CheckRelay 0; TypeRelay "wss://x"; SubmitRelay; SubmitRelay;
        TypeRelay "http://y"; SubmitRelay; CheckRelay 3]
       (mkPanel DEFAULT_RELAYS EmptyString))
  = ["wss://relay.nostr.band"; "wss://relay.damus.io"; "wss://x";
     "wss://nos.lol"]%string /\
  panelOk
    (fold_left panelStep
       [CheckRelay 0; TypeRelay "wss://x"; SubmitRelay; SubmitRelay;
        TypeRelay "http://y"; SubmitRelay; CheckRelay 3]
       (mkPanel DEFAULT_RELAYS EmptyString)).
Proof.
  split; [reflexivity|].
  exact (relay_panel_invariant (mkPanel DEFAULT_RELAYS EmptyString) _
           default_panel_ok).
Defined.

